(** * gnet: frame codecs over the connection read buffer

    A shallow embedding of [codec.go] (the five frame codecs) and of the
    buffer operations of [connection_windows.go] ([Read], [ReadN], [ShiftN],
    [ResetBuffer], [BufferLength]), followed by the properties of the
    specification that concern them.  The file has three parts: the
    embedding, the vocabulary in which the properties are stated, and the
    properties with their proofs.

    Conventions.
    - Go's [int] is the 64-bit two's complement integer of the usual targets;
      it is a [Z] and every addition on configuration values is wrapped by
      [GoInt.wrap].  Sums of slice lengths are written without the wrap: two
      slices held in memory have a total length far below [2^63].
    - A [[]byte] is a [list byte]; [nil] and the empty slice are both [[]].
    - A Go function returning [(v, err)] returns an [outcome]: [Ret v] for
      [(v, nil)], [Fail e] for [(nil, e)], [Panic p] for a run-time panic.
    - Methods on [*stdConn] are state transformers on the record [stdConn]. *)

From Stdlib Require Import ZArith List Lia Bool String.
From coqutil Require Import Byte Word.LittleEndianList.
Import ListNotations.
Local Open Scope Z_scope.

(** ** Go integers *)

Module GoInt.

(** [int]: 64 bits, two's complement. *)
Definition min_int : Z := - 2 ^ 63.
Definition max_int : Z := 2 ^ 63 - 1.

Definition in_range (z : Z) : Prop := min_int <= z <= max_int.

(** The value an [int] holds after an operation whose exact result is [z]. *)
Definition wrap (z : Z) : Z := (z + 2 ^ 63) mod 2 ^ 64 - 2 ^ 63.

Definition add (a b : Z) : Z := wrap (a + b).

(** Conversions [uint16(v)], [uint32(v)], [uint64(v)] of an [int]. *)
Definition to_uint (bits : Z) (v : Z) : Z := v mod 2 ^ bits.

(** Conversion [int(u)] of a [uint64]. *)
Definition of_uint64 (u : Z) : Z := wrap u.

(** [a % b] on [int]: the remainder of the truncated division. *)
Definition rem (a b : Z) : Z := Z.rem a b.

End GoInt.

(** ** Byte slices *)

Definition bytes : Type := list byte.

Definition len (b : bytes) : Z := Z.of_nat (List.length b).

(** ** Results of Go calls *)

(** Error values.  The [Err...] variables are declared elsewhere in the
    package and only named in these files; [FmtErrorf] is
    [fmt.Errorf(format, arg)] and [ErrorsNew] is [errors.New(msg)]. *)
Inductive error : Type :=
| ErrUnexpectedEOF
| ErrDelimiterNotFound
| ErrCRLFNotFound
| ErrInvalidFixedLength
| ErrUnsupportedLength
| ErrTooLessLength
| FmtErrorf (format : string) (arg : Z)
| ErrorsNew (msg : string).

Inductive panic : Type :=
| SliceBoundsOutOfRange
| IndexOutOfRange
| IntegerDivideByZero
| MakeLenOutOfRange.

Inductive outcome (A : Type) : Type :=
| Ret (a : A)
| Fail (e : error)
| Panic (p : panic).

Arguments Ret {A} a.
Arguments Fail {A} e.
Arguments Panic {A} p.

(** ** State threaded through calls that may fail

    [SO St A] is a call that reads and updates a state [St] and ends in an
    [outcome A]; after an error or a panic the state is the one reached at
    that point. *)

Section StateOutcome.
Context {St : Type}.

Definition SO (A : Type) : Type := St -> outcome A * St.

Definition ret {A} (a : A) : SO A := fun s => (Ret a, s).

Definition bind {A B} (m : SO A) (k : A -> SO B) : SO B :=
  fun s =>
    match m s with
    | (Ret a, s') => k a s'
    | (Fail e, s') => (Fail e, s')
    | (Panic p, s') => (Panic p, s')
    end.

Definition lift {A} (o : outcome A) : SO A := fun s => (o, s).

Definition get : SO St := fun s => (Ret s, s).

Definition modify (f : St -> St) : SO unit := fun s => (Ret tt, f s).

(** [v, err := m; if err != nil { return nil, e }]. *)
Definition or_fail {A} (e : error) (m : SO A) : SO A :=
  fun s =>
    match m s with
    | (Fail _, s') => (Fail e, s')
    | r => r
    end.
End StateOutcome.

Arguments SO St A : clear implicits.

Declare Scope so_scope.
Delimit Scope so_scope with so.
Notation "x <- m ;; k" := (bind m (fun x => k))
  (at level 61, m at next level, right associativity) : so_scope.
Notation "' pat <- m ;; k" := (bind m (fun x => match x with pat => k end))
  (at level 61, pat pattern, m at next level, right associativity) : so_scope.
Notation "m ;;; k" := (bind m (fun _ => k))
  (at level 61, right associativity) : so_scope.
Local Open Scope so_scope.

(** ** Slice expressions and built-ins *)

(** [b[:n]].  Go allows [n] up to the capacity of [b]; the buffers here are
    only ever sliced within their length, which is what is checked. *)
Definition slice_to (b : bytes) (n : Z) : outcome bytes :=
  if (0 <=? n) && (n <=? len b) then Ret (firstn (Z.to_nat n) b)
  else Panic SliceBoundsOutOfRange.

(** [b[n:]]. *)
Definition slice_from (b : bytes) (n : Z) : outcome bytes :=
  if (0 <=? n) && (n <=? len b) then Ret (skipn (Z.to_nat n) b)
  else Panic SliceBoundsOutOfRange.

(** [b[i]]. *)
Definition index (b : bytes) (i : nat) : outcome byte :=
  match nth_error b i with
  | Some x => Ret x
  | None => Panic IndexOutOfRange
  end.

(** [make([]byte, n)]. *)
Definition make (n : Z) : outcome bytes :=
  if n <? 0 then Panic MakeLenOutOfRange
  else Ret (repeat Byte.x00 (Z.to_nat n)).

(** [copy(dst, src)]: the first [min (len dst) (len src)] bytes of [dst] are
    overwritten; the value is [dst] afterwards. *)
Definition copy (dst src : bytes) : bytes :=
  firstn (List.length dst) src ++ skipn (List.length src) dst.

(** [copy(dst[off:], src)], the value being the whole of [dst] afterwards. *)
Definition copy_at (dst : bytes) (off : Z) (src : bytes) : outcome bytes :=
  match slice_from dst off with
  | Ret tl => Ret (firstn (Z.to_nat off) dst ++ copy tl src)
  | Fail e => Fail e
  | Panic p => Panic p
  end.

(** [bytes.IndexByte(b, c)]: index of the first [c] in [b], or [-1]. *)
Fixpoint IndexByte (b : bytes) (c : byte) : Z :=
  match b with
  | [] => -1
  | x :: b' =>
      if Byte.eqb x c then 0
      else let i := IndexByte b' c in if i =? -1 then -1 else i + 1
  end.

(** ** encoding/binary *)

Module binary.

(** The two values of [binary.ByteOrder] the package offers. *)
Inductive ByteOrder : Type := LittleEndian | BigEndian.

(** [order == binary.LittleEndian]. *)
Definition is_LittleEndian (order : ByteOrder) : bool :=
  match order with LittleEndian => true | BigEndian => false end.

(** [order.PutUint16/32/64(out, v)] on a fresh [out] of [w] bytes: the [w]
    low-order bytes of [v], least significant first for [LittleEndian],
    most significant first for [BigEndian]. *)
Definition PutUint (order : ByteOrder) (w : nat) (v : Z) : bytes :=
  match order with
  | LittleEndian => le_split w v
  | BigEndian => rev (le_split w v)
  end.

(** [order.Uint16/32/64(b)] on the first [w] bytes of [b]. *)
Definition Uint (order : ByteOrder) (w : nat) (b : bytes) : outcome Z :=
  if (w <=? List.length b)%nat then
    Ret (le_combine (match order with
                     | LittleEndian => firstn w b
                     | BigEndian => rev (firstn w b)
                     end))
  else Panic IndexOutOfRange.

End binary.

(** ** The inbound ring buffer *)

Module RingBuffer.

(** Modelled from the spec: the [ringbuffer] package is not among the
    sources.  The specification describes a circular byte store
    [{storage, head, tail, size}] whose contents may wrap, with
    [peek_n(n)] "returning the first [n] bytes as two slices without
    advancing", [advance(n)], [reset], [is_empty], [len] and [push].
    The model keeps the size of the storage, the read position in it and
    the bytes held, oldest first; the bytes past the end of the storage
    are the ones that wrapped. *)
Record t : Type := mk {
  size : nat;
  r : nat;
  held : bytes
}.

(** Modelled from the spec: a ring as the pool hands it out, holding
    nothing. *)
Definition empty : t := mk 0 0 [].

(** Modelled from the spec: [len], the number of bytes held. *)
Definition Length (rb : t) : Z := len (held rb).

(** Modelled from the spec: [is_empty]. *)
Definition IsEmpty (rb : t) : bool :=
  match held rb with [] => true | _ :: _ => false end.

(** Modelled from the spec: [peek_n(n)], the first [n] bytes held, as the
    slice that runs to the end of the storage and the slice that wrapped to
    its start. *)
Definition LazyRead (n : Z) (rb : t) : bytes * bytes :=
  let d := firstn (Z.to_nat n) (held rb) in
  (firstn (size rb - r rb) d, skipn (size rb - r rb) d).

(** Modelled from the spec: [advance(n)]. *)
Definition Shift (n : Z) (rb : t) : t :=
  mk (size rb)
     (Nat.modulo (r rb + Z.to_nat n) (size rb))
     (skipn (Z.to_nat n) (held rb)).

(** Modelled from the spec: [reset]. *)
Definition Reset (rb : t) : t := mk (size rb) 0 [].

(** Modelled from the spec: [push(bytes)], growing the storage when the
    bytes do not fit; the grown storage starts at the oldest byte. *)
Definition Write (p : bytes) (rb : t) : t :=
  if (List.length (held rb) + List.length p <=? size rb)%nat
  then mk (size rb) (r rb) (held rb ++ p)
  else mk (List.length (held rb) + List.length p) 0 (held rb ++ p).

(** Modelled from the spec: [WithByteBuffer(b)], the join buffer of the
    specification's [peek_all], "[ring_contents ++ scratch_contents]". *)
Definition WithByteBuffer (b : bytes) (rb : t) : bytes :=
  let (head, tail) := LazyRead (Length rb) rb in
  (head ++ tail) ++ b.

End RingBuffer.

(** ** The connection *)

(** The fields of [stdConn] that the buffer operations touch:
    [buffer] is [c.buffer.B], the bytes of the latest read ([c.buffer] is
    set by the event loop before a codec runs and is not [nil] here);
    [byteBuffer] is [None] for [nil] and otherwise the bytes of the pooled
    buffer last joined from the ring and [buffer];
    [inboundBuffer] is the ring of bytes left over by earlier decodes.
    A [bytebuffer.ByteBuffer] is its slice [B]: [Len()] is [len(B)],
    [Bytes()] is [B], [Reset()] empties it, [Write(p)] appends [p], and the
    pool's [Get()] yields an empty one. *)
Record stdConn : Type := mkConn {
  buffer : bytes;
  byteBuffer : option bytes;
  inboundBuffer : RingBuffer.t
}.

(** Assignments to the fields. *)
Definition set_buffer (b : bytes) (c : stdConn) : stdConn :=
  mkConn b (byteBuffer c) (inboundBuffer c).
Definition set_byteBuffer (j : option bytes) (c : stdConn) : stdConn :=
  mkConn (buffer c) j (inboundBuffer c).
Definition set_inboundBuffer (rb : RingBuffer.t) (c : stdConn) : stdConn :=
  mkConn (buffer c) (byteBuffer c) rb.

(** The bytes a codec can read, oldest first: the ring, then the latest read. *)
Definition logical (c : stdConn) : bytes :=
  RingBuffer.held (inboundBuffer c) ++ buffer c.

(** A method with receiver [c *stdConn] and a result of type [A]. *)
Definition Method (A : Type) : Type := SO stdConn A.

(** [func (c *stdConn) Read() []byte] *)
Definition Read : Method bytes :=
  c <- get ;;
  if RingBuffer.IsEmpty (inboundBuffer c) then
    if len (buffer c) =? 0 then ret []
    else ret (buffer c)
  else
    let j := RingBuffer.WithByteBuffer (buffer c) (inboundBuffer c) in
    modify (set_byteBuffer (Some j)) ;;;
    ret j.

(** [func (c *stdConn) ResetBuffer()] *)
Definition ResetBuffer : Method unit :=
  modify (fun c => set_buffer [] c) ;;;
  modify (fun c => set_inboundBuffer (RingBuffer.Reset (inboundBuffer c)) c) ;;;
  modify (set_byteBuffer None).

(** [func (c *stdConn) ReadN(n int) (size int, buf []byte)] *)
Definition ReadN (n : Z) : Method (Z * bytes) :=
  c <- get ;;
  let inBufferLen := RingBuffer.Length (inboundBuffer c) in
  let tempBufferLen := len (buffer c) in
  let totalLen := inBufferLen + tempBufferLen in
  let n := if (totalLen <? n) || (n <=? 0) then totalLen else n in
  let size := n in
  if RingBuffer.IsEmpty (inboundBuffer c) then
    buf <- lift (slice_to (buffer c) n) ;;
    ret (size, buf)
  else
    let (head, tail) := RingBuffer.LazyRead n (inboundBuffer c) in
    let j := ([] ++ head) ++ tail in
    modify (set_byteBuffer (Some j)) ;;;
    if inBufferLen >=? n then ret (size, j)
    else
      let restSize := n - inBufferLen in
      rest <- lift (slice_to (buffer c) restSize) ;;
      let j := j ++ rest in
      modify (set_byteBuffer (Some j)) ;;;
      ret (size, j).

(** [func (c *stdConn) ShiftN(n int) (size int)] *)
Definition ShiftN (n : Z) : Method Z :=
  c <- get ;;
  let inBufferLen := RingBuffer.Length (inboundBuffer c) in
  let tempBufferLen := len (buffer c) in
  if (inBufferLen + tempBufferLen <? n) || (n <=? 0) then
    ResetBuffer ;;;
    ret (inBufferLen + tempBufferLen)
  else
    let size := n in
    if RingBuffer.IsEmpty (inboundBuffer c) then
      b <- lift (slice_from (buffer c) n) ;;
      modify (set_buffer b) ;;;
      ret size
    else
      modify (set_byteBuffer None) ;;;
      if inBufferLen >=? n then
        modify (set_inboundBuffer (RingBuffer.Shift n (inboundBuffer c))) ;;;
        ret size
      else
        modify (set_inboundBuffer (RingBuffer.Reset (inboundBuffer c))) ;;;
        let restSize := n - inBufferLen in
        b <- lift (slice_from (buffer c) restSize) ;;
        modify (set_buffer b) ;;;
        ret size.

(** [func (c *stdConn) BufferLength() int] *)
Definition BufferLength (c : stdConn) : Z :=
  RingBuffer.Length (inboundBuffer c) + len (buffer c).

(** A connection as [newTCPConn] leaves it, before any byte has arrived. *)
Definition newTCPConn : stdConn := mkConn [] None RingBuffer.empty.

(** Modelled from the spec: the event loop's read step is not among the
    sources.  Section 2 gives the flow "transport -> scratch buffer ->
    (optional) ring buffer -> codec decode": bytes that earlier decodes left
    in the scratch are kept in the ring, and the bytes just read become the
    scratch. *)
Definition feed (p : bytes) (c : stdConn) : stdConn :=
  mkConn p (byteBuffer c) (RingBuffer.Write (buffer c) (inboundBuffer c)).

(** ** The codecs *)

(** [type ICodec interface].  No codec of the package reads the connection
    in [Encode], which is therefore a function of the frame alone. *)
Class ICodec (T : Type) : Type := {
  Encode : T -> bytes -> outcome bytes;
  Decode : T -> Method bytes
}.

(** [var CRLFByte = byte('\n')] *)
Definition CRLFByte : byte := Byte.x0a.

Inductive BuiltInFrameCodec : Type := mkBuiltInFrameCodec.

Inductive LineBasedFrameCodec : Type := mkLineBasedFrameCodec.

Record DelimiterBasedFrameCodec : Type := NewDelimiterBasedFrameCodec {
  delimiter : byte
}.

Record FixedLengthFrameCodec : Type := NewFixedLengthFrameCodec {
  frameLength : Z
}.

Module EncoderConfig.
Record t : Type := mk {
  ByteOrder : binary.ByteOrder;
  LengthFieldLength : Z;
  LengthAdjustment : Z;
  LengthIncludesLengthFieldLength : bool
}.
End EncoderConfig.

Module DecoderConfig.
Record t : Type := mk {
  ByteOrder : binary.ByteOrder;
  LengthFieldOffset : Z;
  LengthFieldLength : Z;
  LengthAdjustment : Z;
  InitialBytesToStrip : Z
}.
End DecoderConfig.

Record LengthFieldBasedFrameCodec : Type := NewLengthFieldBasedFrameCodec {
  encoderConfig : EncoderConfig.t;
  decoderConfig : DecoderConfig.t
}.

(** *** Built-in (pass-through) codec *)

(** [func (cc *BuiltInFrameCodec) Encode(c Conn, buf []byte) ([]byte, error)] *)
Definition BuiltIn_Encode (cc : BuiltInFrameCodec) (buf : bytes) : outcome bytes :=
  Ret buf.

(** [func (cc *BuiltInFrameCodec) Decode(c Conn) ([]byte, error)] *)
Definition BuiltIn_Decode (cc : BuiltInFrameCodec) : Method bytes :=
  buf <- Read ;;
  ResetBuffer ;;;
  ret buf.

#[export] Instance BuiltIn_ICodec : ICodec BuiltInFrameCodec :=
  {| Encode := BuiltIn_Encode; Decode := BuiltIn_Decode |}.

(** *** Line and delimiter codecs *)

(** [func (cc *LineBasedFrameCodec) Encode(c Conn, buf []byte) ([]byte, error)] *)
Definition LineBased_Encode (cc : LineBasedFrameCodec) (buf : bytes) : outcome bytes :=
  Ret (buf ++ [CRLFByte]).

(** [func (cc *LineBasedFrameCodec) Decode(c Conn) ([]byte, error)] *)
Definition LineBased_Decode (cc : LineBasedFrameCodec) : Method bytes :=
  buf <- Read ;;
  let idx := IndexByte buf CRLFByte in
  if idx =? -1 then lift (Fail ErrCRLFNotFound)
  else
    ShiftN (idx + 1) ;;;
    lift (slice_to buf idx).

#[export] Instance LineBased_ICodec : ICodec LineBasedFrameCodec :=
  {| Encode := LineBased_Encode; Decode := LineBased_Decode |}.

(** [func (cc *DelimiterBasedFrameCodec) Encode(c Conn, buf []byte) ([]byte, error)] *)
Definition DelimiterBased_Encode (cc : DelimiterBasedFrameCodec) (buf : bytes)
  : outcome bytes :=
  Ret (buf ++ [delimiter cc]).

(** [func (cc *DelimiterBasedFrameCodec) Decode(c Conn) ([]byte, error)] *)
Definition DelimiterBased_Decode (cc : DelimiterBasedFrameCodec) : Method bytes :=
  buf <- Read ;;
  let idx := IndexByte buf (delimiter cc) in
  if idx =? -1 then lift (Fail ErrDelimiterNotFound)
  else
    ShiftN (idx + 1) ;;;
    lift (slice_to buf idx).

#[export] Instance DelimiterBased_ICodec : ICodec DelimiterBasedFrameCodec :=
  {| Encode := DelimiterBased_Encode; Decode := DelimiterBased_Decode |}.

(** *** Fixed-length codec *)

(** [func (cc *FixedLengthFrameCodec) Encode(c Conn, buf []byte) ([]byte, error)];
    the remainder by a zero [frameLength] is a run-time panic. *)
Definition FixedLength_Encode (cc : FixedLengthFrameCodec) (buf : bytes)
  : outcome bytes :=
  if frameLength cc =? 0 then Panic IntegerDivideByZero
  else if negb (GoInt.rem (len buf) (frameLength cc) =? 0)
       then Fail ErrInvalidFixedLength
       else Ret buf.

(** [func (cc *FixedLengthFrameCodec) Decode(c Conn) ([]byte, error)] *)
Definition FixedLength_Decode (cc : FixedLengthFrameCodec) : Method bytes :=
  ' (size, buf) <- ReadN (frameLength cc) ;;
  if size =? 0 then lift (Fail ErrUnexpectedEOF)
  else
    ShiftN size ;;;
    ret buf.

#[export] Instance FixedLength_ICodec : ICodec FixedLengthFrameCodec :=
  {| Encode := FixedLength_Encode; Decode := FixedLength_Decode |}.

(** *** Length-field codec *)

(** [func writeUint24(byteOrder binary.ByteOrder, v int) []byte] *)
Definition writeUint24 (byteOrder : binary.ByteOrder) (v : Z) : bytes :=
  if binary.is_LittleEndian byteOrder then
    [byte.of_Z v; byte.of_Z (Z.shiftr v 8); byte.of_Z (Z.shiftr v 16)]
  else
    [byte.of_Z (Z.shiftr v 16); byte.of_Z (Z.shiftr v 8); byte.of_Z v].

(** [func readUint24(byteOrder binary.ByteOrder, b []byte) uint64] *)
Definition readUint24 (byteOrder : binary.ByteOrder) (b : bytes) : outcome Z :=
  match b with
  | b0 :: b1 :: b2 :: _ =>
      if binary.is_LittleEndian byteOrder then
        Ret (Z.lor (Z.lor (byte.unsigned b0) (Z.shiftl (byte.unsigned b1) 8))
                   (Z.shiftl (byte.unsigned b2) 16))
      else
        Ret (Z.lor (Z.lor (byte.unsigned b2) (Z.shiftl (byte.unsigned b1) 8))
                   (Z.shiftl (byte.unsigned b0) 16))
  | _ => Panic IndexOutOfRange
  end.

(** The value of [length] that [Encode] computes before the range checks. *)
Definition encodedLength (ec : EncoderConfig.t) (buf : bytes) : Z :=
  let length := GoInt.add (len buf) (EncoderConfig.LengthAdjustment ec) in
  if EncoderConfig.LengthIncludesLengthFieldLength ec
  then GoInt.add length (EncoderConfig.LengthFieldLength ec)
  else length.

(** The [switch cc.encoderConfig.LengthFieldLength] of [Encode]: the range
    check of the width and the bytes of the length field. *)
Definition lengthField (ec : EncoderConfig.t) (length : Z) : outcome bytes :=
  let order := EncoderConfig.ByteOrder ec in
  match EncoderConfig.LengthFieldLength ec with
  | 1 =>
      if length >=? 256
      then Fail (FmtErrorf "length does not fit into a byte: %d" length)
      else Ret [byte.of_Z length]
  | 2 =>
      if length >=? 65536
      then Fail (FmtErrorf "length does not fit into a short integer: %d" length)
      else Ret (binary.PutUint order 2 (GoInt.to_uint 16 length))
  | 3 =>
      if length >=? 16777216
      then Fail (FmtErrorf "length does not fit into a medium integer: %d" length)
      else Ret (writeUint24 order length)
  | 4 => Ret (binary.PutUint order 4 (GoInt.to_uint 32 length))
  | 8 => Ret (binary.PutUint order 8 (GoInt.to_uint 64 length))
  | _ => Fail ErrUnsupportedLength
  end.

(** [func (cc *LengthFieldBasedFrameCodec) Encode(c Conn, buf []byte)] *)
Definition LengthField_Encode (cc : LengthFieldBasedFrameCodec) (buf : bytes)
  : outcome bytes :=
  let length := encodedLength (encoderConfig cc) buf in
  if length <? 0 then Fail ErrTooLessLength
  else
    match lengthField (encoderConfig cc) length with
    | Ret out => Ret (out ++ buf)
    | Fail e => Fail e
    | Panic p => Panic p
    end.

Definition innerBuffer : Type := bytes.

(** [func (in *innerBuffer) readN(n int) (buf []byte, err error)] *)
Definition readN (n : Z) : SO innerBuffer bytes :=
  fun in_ =>
    if n <=? 0 then (Fail (ErrorsNew "zero or negative length is invalid"), in_)
    else if n >? len in_ then (Fail (ErrorsNew "exceeding buffer length"), in_)
    else (Ret (firstn (Z.to_nat n) in_), skipn (Z.to_nat n) in_).

(** [func (cc *LengthFieldBasedFrameCodec) getUnadjustedFrameLength(in *innerBuffer)
    ([]byte, uint64, error)] *)
Definition getUnadjustedFrameLength (cc : LengthFieldBasedFrameCodec)
  : SO innerBuffer (bytes * Z) :=
  let order := DecoderConfig.ByteOrder (decoderConfig cc) in
  match DecoderConfig.LengthFieldLength (decoderConfig cc) with
  | 1 =>
      b <- or_fail ErrUnexpectedEOF (readN 1) ;;
      b0 <- lift (index b 0) ;;
      ret (b, byte.unsigned b0)
  | 2 =>
      lenBuf <- or_fail ErrUnexpectedEOF (readN 2) ;;
      v <- lift (binary.Uint order 2 lenBuf) ;;
      ret (lenBuf, v)
  | 3 =>
      lenBuf <- or_fail ErrUnexpectedEOF (readN 3) ;;
      v <- lift (readUint24 order lenBuf) ;;
      ret (lenBuf, v)
  | 4 =>
      lenBuf <- or_fail ErrUnexpectedEOF (readN 4) ;;
      v <- lift (binary.Uint order 4 lenBuf) ;;
      ret (lenBuf, v)
  | 8 =>
      lenBuf <- or_fail ErrUnexpectedEOF (readN 8) ;;
      v <- lift (binary.Uint order 8 lenBuf) ;;
      ret (lenBuf, v)
  | _ => lift (Fail ErrUnsupportedLength)
  end.

(** A step on the local [in] of [Decode], run inside a method of the
    connection: the connection is not touched, the value comes with the
    cursor left behind. *)
Definition on_inner {A} (m : SO innerBuffer A) (in_ : innerBuffer)
  : Method (A * innerBuffer) :=
  fun c =>
    match m in_ with
    | (Ret a, in') => (Ret (a, in'), c)
    | (Fail e, _) => (Fail e, c)
    | (Panic p, _) => (Panic p, c)
    end.

(** [msgLength := int(frameLength) + cc.decoderConfig.LengthAdjustment] *)
Definition msgLengthOf (dc : DecoderConfig.t) (frameLength : Z) : Z :=
  GoInt.add (GoInt.of_uint64 frameLength) (DecoderConfig.LengthAdjustment dc).

(** [func (cc *LengthFieldBasedFrameCodec) Decode(c Conn) ([]byte, error)];
    [in] is the local cursor, threaded through [on_inner]. *)
Definition LengthField_Decode (cc : LengthFieldBasedFrameCodec) : Method bytes :=
  let dc := decoderConfig cc in
  in0 <- Read ;;
  ' (header, in1) <-
    (if DecoderConfig.LengthFieldOffset dc >? 0
     then on_inner (or_fail ErrUnexpectedEOF
                      (readN (DecoderConfig.LengthFieldOffset dc))) in0
     else ret ([], in0)) ;;
  ' ((lenBuf, frameLength), in2) <- on_inner (getUnadjustedFrameLength cc) in1 ;;
  let msgLength := msgLengthOf dc frameLength in
  ' (msg, _) <- on_inner (or_fail ErrUnexpectedEOF (readN msgLength)) in2 ;;
  fullMessage <- lift (make (len header + len lenBuf + msgLength)) ;;
  fullMessage <- lift (copy_at fullMessage 0 header) ;;
  fullMessage <- lift (copy_at fullMessage (len header) lenBuf) ;;
  fullMessage <- lift (copy_at fullMessage (len header + len lenBuf) msg) ;;
  ShiftN (len fullMessage) ;;;
  lift (slice_from fullMessage (DecoderConfig.InitialBytesToStrip dc)).

#[export] Instance LengthField_ICodec : ICodec LengthFieldBasedFrameCodec :=
  {| Encode := LengthField_Encode; Decode := LengthField_Decode |}.

(** * Vocabulary of the properties *)

(** Two connections hold the same bytes in the same buffers; only the cached
    join buffer may differ. *)
Definition same_buffers (c c' : stdConn) : Prop :=
  buffer c' = buffer c /\ inboundBuffer c' = inboundBuffer c.

(** The number of bytes [ReadN] settles on. *)
Definition peek_size (n total : Z) : Z :=
  if (total <? n) || (n <=? 0) then total else n.

(** [n] is a count [ShiftN] honours: positive and within the bytes buffered. *)
Definition shift_ok (n total : Z) : bool :=
  negb ((total <? n) || (n <=? 0)).

(** [idx] is the index of the first occurrence of [t] in [b]. *)
Definition first_at (t : byte) (b : bytes) (idx : nat) : Prop :=
  nth_error b idx = Some t /\ forall j, (j < idx)%nat -> nth_error b j <> Some t.

(** The body the two decoders share: [t] is the terminator and [e] the
    error of the codec. *)
Definition terminated_Decode (t : byte) (e : error) : Method bytes :=
  buf <- Read ;;
  let idx := IndexByte buf t in
  if idx =? -1 then lift (Fail e)
  else
    ShiftN (idx + 1) ;;;
    lift (slice_to buf idx).

(** The widths the two [switch] statements accept. *)
Definition supported_width (w : Z) : Prop :=
  w = 1 \/ w = 2 \/ w = 3 \/ w = 4 \/ w = 8.

(** Position [i] of a field of [w] bytes holds the byte of this significance
    (0 for the least significant byte). *)
Definition significance (order : binary.ByteOrder) (w i : nat) : nat :=
  match order with
  | binary.LittleEndian => i
  | binary.BigEndian => w - 1 - i
  end.

(** The number a length field stands for under a byte order. *)
Definition fieldValue (order : binary.ByteOrder) (field : bytes) : Z :=
  le_combine (match order with
              | binary.LittleEndian => field
              | binary.BigEndian => rev field
              end).

(** The first two steps of [Decode] on its cursor: the header of
    [LengthFieldOffset] bytes, kept when the offset is positive, and the
    length field.  The value is [(header, lenBuf, frameLength)]. *)
Definition decodeFields (cc : LengthFieldBasedFrameCodec)
  : SO innerBuffer (bytes * bytes * Z) :=
  let dc := decoderConfig cc in
  header <-
    (if DecoderConfig.LengthFieldOffset dc >? 0
     then or_fail ErrUnexpectedEOF (readN (DecoderConfig.LengthFieldOffset dc))
     else ret []) ;;
  ' (lenBuf, frameLength) <- getUnadjustedFrameLength cc ;;
  ret (header, lenBuf, frameLength).

(** The number of header bytes [Decode] keeps: the offset when positive. *)
Definition headerLength (dc : DecoderConfig.t) : Z :=
  Z.max 0 (DecoderConfig.LengthFieldOffset dc).

(** The decoder configurations of the specification (section 4.2): a
    supported width, an offset and a number of bytes to strip that are not
    negative. *)
Definition valid_DecoderConfig (dc : DecoderConfig.t) : Prop :=
  supported_width (DecoderConfig.LengthFieldLength dc)
  /\ 0 <= DecoderConfig.LengthFieldOffset dc
  /\ 0 <= DecoderConfig.InitialBytesToStrip dc.

(** The number of bytes of the frame that starts the contents [b]: header,
    length field and message, when the cursor gets that far. *)
Definition fullLength (cc : LengthFieldBasedFrameCodec) (b : bytes) : option Z :=
  match decodeFields cc b with
  | (Ret (header, lenBuf, F), in2) =>
      let m := msgLengthOf (decoderConfig cc) F in
      if (0 <? m) && (m <=? len in2) then Some (len header + len lenBuf + m)
      else None
  | _ => None
  end.

(** The outcome of [Decode] and the contents it leaves, as a function of the
    codec and of the logical contents alone. *)
Definition decodeContents (cc : LengthFieldBasedFrameCodec) (b : bytes)
  : outcome bytes * bytes :=
  match decodeFields cc b with
  | (Ret (header, lenBuf, F), in2) =>
      match fullLength cc b with
      | Some n =>
          (slice_from (firstn (Z.to_nat n) b)
             (DecoderConfig.InitialBytesToStrip (decoderConfig cc)),
           skipn (Z.to_nat n) b)
      | None => (Fail ErrUnexpectedEOF, b)
      end
  | (Fail e, _) => (Fail e, b)
  | (Panic p, _) => (Panic p, b)
  end.

(** The property claimed of one call: a complete frame is returned and the
    head has moved past header, length field and message; or the call
    reports a short read and the contents are as before. *)
Definition frame_or_short_read (cc : LengthFieldBasedFrameCodec) (c : stdConn) : Prop :=
  let dc := decoderConfig cc in
  let c' := snd (Decode cc c) in
  (exists frame header lenBuf F in2,
      fst (Decode cc c) = Ret frame
      /\ decodeFields cc (logical c) = (Ret (header, lenBuf, F), in2)
      /\ logical c'
         = skipn (Z.to_nat (DecoderConfig.LengthFieldOffset dc
                            + DecoderConfig.LengthFieldLength dc
                            + msgLengthOf dc F)) (logical c))
  \/ (fst (Decode cc c) = Fail ErrUnexpectedEOF
      /\ logical c' = logical c
      /\ BufferLength c' = BufferLength c).

(** The frame [f] encoded by [cc], fed to a fresh connection and decoded by
    [cc], comes back as [expected] and leaves nothing buffered. *)
Definition round_trips {T : Type} `{ICodec T} (cc : T) (f expected : bytes) : Prop :=
  exists wire,
    Encode cc f = Ret wire
    /\ fst (Decode cc (feed wire newTCPConn)) = Ret expected
    /\ BufferLength (snd (Decode cc (feed wire newTCPConn))) = 0.

(** The width the encoder adds to the length when the field counts itself. *)
Definition included (ec : EncoderConfig.t) : Z :=
  if EncoderConfig.LengthIncludesLengthFieldLength ec
  then EncoderConfig.LengthFieldLength ec
  else 0.

(** The decoder reads what the encoder writes: same byte order and width,
    no header before the field, and an adjustment that undoes the
    encoder's. *)
Definition mirrors (dc : DecoderConfig.t) (ec : EncoderConfig.t) : Prop :=
  DecoderConfig.ByteOrder dc = EncoderConfig.ByteOrder ec
  /\ DecoderConfig.LengthFieldLength dc = EncoderConfig.LengthFieldLength ec
  /\ supported_width (EncoderConfig.LengthFieldLength ec)
  /\ DecoderConfig.LengthFieldOffset dc = 0
  /\ DecoderConfig.LengthAdjustment dc
     = - (EncoderConfig.LengthAdjustment ec + included ec).

(** The length of [f] is an [int], as that of any slice, and the length
    written for [f] overflows neither [int] nor the field. *)
Definition fits (ec : EncoderConfig.t) (f : bytes) : Prop :=
  len f <= GoInt.max_int
  /\ GoInt.in_range (len f + EncoderConfig.LengthAdjustment ec)
  /\ len f + EncoderConfig.LengthAdjustment ec + included ec <= GoInt.max_int
  /\ 0 <= len f + EncoderConfig.LengthAdjustment ec + included ec
     < 2 ^ (8 * EncoderConfig.LengthFieldLength ec).

(** ** Vocabulary of the further properties *)

(** No join buffer is cached while the ring is empty: what [ShiftN] relies
    on when it returns early on an empty ring without touching
    [c.byteBuffer]. *)
Definition join_released (c : stdConn) : Prop :=
  RingBuffer.IsEmpty (inboundBuffer c) = true -> byteBuffer c = None.

(** What the line and delimiter decoders do to the logical contents [b]:
    the outcome and the contents left. *)
Definition terminatedContents (t : byte) (e : error) (b : bytes)
  : outcome bytes * bytes :=
  let idx := IndexByte b t in
  if idx =? -1 then (Fail e, b)
  else (Ret (firstn (Z.to_nat idx) b), skipn (Z.to_nat (idx + 1)) b).

(** What the fixed-length decoder does to the logical contents [b]. *)
Definition fixedContents (frameLength : Z) (b : bytes) : outcome bytes * bytes :=
  let m := peek_size frameLength (len b) in
  if m =? 0 then (Fail ErrUnexpectedEOF, b)
  else (Ret (firstn (Z.to_nat m) b), skipn (Z.to_nat m) b).

(** A decoder whose outcome and remaining contents are determined by the
    logical contents alone, whatever the split between ring and scratch and
    whatever join buffer is cached. *)
Definition reads_contents_only {T : Type} `{ICodec T} (cc : T) : Prop :=
  forall c1 c2 : stdConn,
    logical c1 = logical c2 ->
    fst (Decode cc c1) = fst (Decode cc c2)
    /\ logical (snd (Decode cc c1)) = logical (snd (Decode cc c2)).

(** A decoder that keeps [join_released] and has released the join buffer
    whenever it returns a frame. *)
Definition releases_join {T : Type} `{ICodec T} (cc : T) : Prop :=
  forall c : stdConn,
    join_released c ->
    join_released (snd (Decode cc c))
    /\ (forall frame, fst (Decode cc c) = Ret frame ->
        byteBuffer (snd (Decode cc c)) = None).

(** [Decode] called [n] times in a row on the same connection, as the
    event loop does while frames keep coming: the outcomes in order and the
    connection left. *)
Fixpoint decode_many {T : Type} `{ICodec T} (cc : T) (n : nat) (c : stdConn)
  : list (outcome bytes) * stdConn :=
  match n with
  | O => ([], c)
  | S n' =>
      let r := Decode cc c in
      let rs := decode_many cc n' (snd r) in
      (fst r :: fst rs, snd rs)
  end.

(** The wire bytes of a sequence of frames under a terminator [t]. *)
Definition terminated_wire (t : byte) (frames : list bytes) : bytes :=
  List.concat (map (fun f => f ++ [t]) frames).

(** ** Sample data *)

(** The bytes of an ASCII text. *)
Definition text (s : string) : bytes := list_byte_of_string s.

(** A connection whose ring holds ["ab"], wrapped around the end of a
    storage of four bytes, and whose latest read is ["cde"]. *)
Definition conn_ab_cde : stdConn :=
  mkConn (text "cde") None (RingBuffer.mk 4 3 (text "ab")).

(** A connection whose ring holds ["hel"] and whose latest read is
    ["lo\nwor"]. *)
Definition conn_hello_wor : stdConn :=
  mkConn (text "lo" ++ [CRLFByte] ++ text "wor") None (RingBuffer.mk 8 0 (text "hel")).

(** A codec with a three-byte field: the encoder is given, the decoder
    reads what it writes and keeps the field in the frame. *)
Definition medium_codec (order : binary.ByteOrder) : LengthFieldBasedFrameCodec :=
  NewLengthFieldBasedFrameCodec
    (EncoderConfig.mk order 3 258 false)
    (DecoderConfig.mk order 0 3 (-258) 0).

(** A decoder with a one-byte field that strips five bytes. *)
Definition strip5_codec : LengthFieldBasedFrameCodec :=
  NewLengthFieldBasedFrameCodec
    (EncoderConfig.mk binary.BigEndian 1 0 false)
    (DecoderConfig.mk binary.BigEndian 0 1 0 5).

(** A fresh connection that has just read the two-byte frame [01 41]. *)
Definition conn_01_41 : stdConn := feed [Byte.x01; Byte.x41] newTCPConn.

(** The codec of the specification's scenario 3: big-endian, two-byte
    field, no adjustment, nothing stripped. *)
Definition short_codec : LengthFieldBasedFrameCodec :=
  NewLengthFieldBasedFrameCodec
    (EncoderConfig.mk binary.BigEndian 2 0 false)
    (DecoderConfig.mk binary.BigEndian 0 2 0 0).

(** The frame ["hi"] on the wire, followed by the first byte of the next. *)
Definition conn_hi_00 : stdConn :=
  feed ([Byte.x00; Byte.x02] ++ text "hi" ++ [Byte.x00]) newTCPConn.

(** The codec of the specification's scenario 4: as scenario 3, with the
    two bytes of the length field stripped. *)
Definition strip2_codec : LengthFieldBasedFrameCodec :=
  NewLengthFieldBasedFrameCodec
    (EncoderConfig.mk binary.BigEndian 2 0 false)
    (DecoderConfig.mk binary.BigEndian 0 2 0 2).

(** The empty frame encoded by the codec of scenario 3, with any bytes
    behind it. *)
Definition conn_empty_frame (rest : bytes) : stdConn :=
  feed ([Byte.x00; Byte.x00] ++ rest) newTCPConn.

(** The connection [conn_ab_cde] after a [Read], which caches the join
    buffer ["abcde"]. *)
Definition conn_ab_cde_peeked : stdConn := snd (Read conn_ab_cde).

(** The bytes of [conn_hello_wor], all of them in the scratch. *)
Definition conn_hello_wor_flat : stdConn :=
  mkConn (text "hello" ++ [CRLFByte] ++ text "wor") None RingBuffer.empty.

(** A decoder for frames that carry a two-byte header before a one-byte
    length field, and that strips both. *)
Definition header_codec : LengthFieldBasedFrameCodec :=
  NewLengthFieldBasedFrameCodec
    (EncoderConfig.mk binary.BigEndian 1 0 false)
    (DecoderConfig.mk binary.BigEndian 2 1 0 3).

(** The frame ["GN" 03 "abc"] of [header_codec], followed by ["xy"], with
    the first four bytes in the ring. *)
Definition conn_GN_abc_xy : stdConn :=
  mkConn (text "bcxy") None (RingBuffer.mk 8 6 (text "GN" ++ [Byte.x03] ++ text "a")).

(** The frames ["foo"] and ["bar"], each followed by a zero byte, and the
    start ["ba"] of a third, with the first two bytes in the ring. *)
Definition conn_foo_bar_ba : stdConn :=
  mkConn (text "o" ++ [Byte.x00] ++ text "bar" ++ [Byte.x00] ++ text "ba") None
    (RingBuffer.mk 4 1 (text "fo")).

(** Three frames of four bytes and half of a fourth, with the first six
    bytes in the ring. *)
Definition conn_ABCD_EFGH_IJKL_MN : stdConn :=
  mkConn (text "GHIJKLMN") None (RingBuffer.mk 8 5 (text "ABCDEF")).

(** The wire of the specification's scenarios 3 and 4, the frames ["hi"]
    and ["hello"] under a two-byte big-endian length field, with the first
    three bytes in the ring. *)
Definition conn_hi_hello : stdConn :=
  mkConn ([Byte.x69; Byte.x00; Byte.x05] ++ text "hello") None
    (RingBuffer.mk 4 0 [Byte.x00; Byte.x02; Byte.x68]).

(** * Properties *)

(** ** The scenarios of the specification

    Section 8 of the specification runs the codecs on concrete deliveries;
    the model is run on the same bytes.  Scenario 2 is run up to its second
    frame here; its short read is taken up with the fixed-length codec
    below. *)

Example scenario_line_split_delivery :
  let cc := mkLineBasedFrameCodec in
  let r1 := Decode cc (feed (text "hel") newTCPConn) in
  let r2 := Decode cc (feed (text "lo" ++ [CRLFByte] ++ text "wor") (snd r1)) in
  let r3 := Decode cc (snd r2) in
  let r4 := Decode cc (feed (text "ld" ++ [CRLFByte]) (snd r3)) in
  fst r1 = Fail ErrCRLFNotFound
  /\ fst r2 = Ret (text "hello")
  /\ fst r3 = Fail ErrCRLFNotFound
  /\ fst r4 = Ret (text "world")
  /\ BufferLength (snd r4) = 0.
Proof. repeat split. Qed.

Example scenario_fixed_length_frames :
  let cc := NewFixedLengthFrameCodec 4 in
  let r1 := Decode cc (feed (text "ABCDEFGH") newTCPConn) in
  let r2 := Decode cc (snd r1) in
  let c3 := feed (text "IJ") (snd r2) in
  fst r1 = Ret (text "ABCD")
  /\ fst r2 = Ret (text "EFGH")
  /\ BufferLength c3 = 2.
Proof. repeat split. Qed.

Example scenario_length_field :
  let wire1 := [Byte.x00; Byte.x02; Byte.x68] in
  let wire2 := [Byte.x69; Byte.x00; Byte.x05] ++ text "hello" in
  let run cc :=
    let r1 := Decode cc (feed wire1 newTCPConn) in
    let r2 := Decode cc (feed wire2 (snd r1)) in
    let r3 := Decode cc (snd r2) in
    (fst r1, fst r2, fst r3, BufferLength (snd r3)) in
  Encode short_codec (text "hi") = Ret ([Byte.x00; Byte.x02] ++ text "hi")
  /\ run short_codec
     = (Fail ErrUnexpectedEOF,
        Ret ([Byte.x00; Byte.x02] ++ text "hi"),
        Ret ([Byte.x00; Byte.x05] ++ text "hello"), 0)
  /\ run strip2_codec
     = (Fail ErrUnexpectedEOF, Ret (text "hi"), Ret (text "hello"), 0).
Proof. repeat split. Qed.

Example scenario_length_includes_field :
  let cc := NewLengthFieldBasedFrameCodec
              (EncoderConfig.mk binary.BigEndian 4 0 true)
              (DecoderConfig.mk binary.BigEndian 0 4 (-4) 4) in
  Encode cc (text "abc")
  = Ret ([Byte.x00; Byte.x00; Byte.x00; Byte.x07] ++ text "abc")
  /\ fst (Decode cc (feed ([Byte.x00; Byte.x00; Byte.x00; Byte.x07] ++ text "abc")
                       newTCPConn))
     = Ret (text "abc").
Proof. repeat split. Qed.

Example scenario_delimiter :
  let cc := NewDelimiterBasedFrameCodec Byte.x00 in
  let r1 := Decode cc (feed (text "foo" ++ [Byte.x00] ++ text "bar" ++ [Byte.x00])
                         newTCPConn) in
  let r2 := Decode cc (snd r1) in
  fst r1 = Ret (text "foo") /\ fst r2 = Ret (text "bar") /\ BufferLength (snd r2) = 0.
Proof. repeat split. Qed.

(** ** Lists and lengths *)

Lemma len_nonneg (b : bytes) : 0 <= len b.
Proof. unfold len. lia. Qed.

Lemma len_nil : len [] = 0.
Proof. reflexivity. Qed.

Lemma len_app (a b : bytes) : len (a ++ b) = len a + len b.
Proof. unfold len. rewrite length_app. lia. Qed.

Lemma len_firstn (n : Z) (b : bytes) :
  0 <= n <= len b -> len (firstn (Z.to_nat n) b) = n.
Proof. unfold len. intros H. rewrite length_firstn. lia. Qed.

Lemma len_skipn (n : Z) (b : bytes) :
  0 <= n <= len b -> len (skipn (Z.to_nat n) b) = len b - n.
Proof. unfold len. intros H. rewrite length_skipn. lia. Qed.

Lemma len_zero_nil (b : bytes) : len b = 0 -> b = [].
Proof. destruct b; [reflexivity | unfold len; simpl; lia]. Qed.

Lemma firstn_len (b : bytes) : firstn (Z.to_nat (len b)) b = b.
Proof. unfold len. rewrite Nat2Z.id. apply firstn_all. Qed.

Lemma skipn_len (b : bytes) : skipn (Z.to_nat (len b)) b = [].
Proof. unfold len. rewrite Nat2Z.id. apply skipn_all. Qed.

Lemma firstn_app_le (n : nat) (a b : bytes) :
  (n <= List.length a)%nat -> firstn n (a ++ b) = firstn n a.
Proof.
  intros H. rewrite firstn_app.
  replace (n - List.length a)%nat with 0%nat by lia.
  simpl. apply app_nil_r.
Qed.

Lemma skipn_app_le (n : nat) (a b : bytes) :
  (n <= List.length a)%nat -> skipn n (a ++ b) = skipn n a ++ b.
Proof.
  intros H. rewrite skipn_app.
  replace (n - List.length a)%nat with 0%nat by lia.
  reflexivity.
Qed.

Lemma skipn_app_ge (n : nat) (a b : bytes) :
  (List.length a <= n)%nat -> skipn n (a ++ b) = skipn (n - List.length a) b.
Proof.
  intros H. rewrite skipn_app, skipn_all2 by lia. reflexivity.
Qed.

Lemma firstn_app_ge (n : nat) (a b : bytes) :
  (List.length a <= n)%nat -> firstn n (a ++ b) = a ++ firstn (n - List.length a) b.
Proof.
  intros H. rewrite firstn_app, firstn_all2 by lia. reflexivity.
Qed.

(** ** The ring buffer *)

Lemma LazyRead_app (n : Z) (rb : RingBuffer.t) :
  fst (RingBuffer.LazyRead n rb) ++ snd (RingBuffer.LazyRead n rb)
  = firstn (Z.to_nat n) (RingBuffer.held rb).
Proof. unfold RingBuffer.LazyRead. simpl. apply firstn_skipn. Qed.

Lemma WithByteBuffer_app (b : bytes) (rb : RingBuffer.t) :
  RingBuffer.WithByteBuffer b rb = RingBuffer.held rb ++ b.
Proof.
  unfold RingBuffer.WithByteBuffer.
  pose proof (LazyRead_app (RingBuffer.Length rb) rb) as H.
  destruct (RingBuffer.LazyRead (RingBuffer.Length rb) rb) as [h t].
  simpl in H. rewrite H. unfold RingBuffer.Length. now rewrite firstn_len.
Qed.

Lemma IsEmpty_true (rb : RingBuffer.t) :
  RingBuffer.IsEmpty rb = true -> RingBuffer.held rb = [].
Proof. unfold RingBuffer.IsEmpty. destruct (RingBuffer.held rb); easy. Qed.

Lemma IsEmpty_false (rb : RingBuffer.t) :
  RingBuffer.IsEmpty rb = false -> 0 < RingBuffer.Length rb.
Proof.
  unfold RingBuffer.IsEmpty, RingBuffer.Length, len.
  destruct (RingBuffer.held rb); [discriminate | simpl; lia].
Qed.

Lemma BufferLength_logical (c : stdConn) : BufferLength c = len (logical c).
Proof. unfold BufferLength, logical, RingBuffer.Length. now rewrite len_app. Qed.

(** ** Peeking: [Read] and [ReadN] *)

Lemma same_buffers_logical (c c' : stdConn) :
  same_buffers c c' -> logical c' = logical c /\ BufferLength c' = BufferLength c.
Proof. unfold same_buffers, logical, BufferLength. intros [-> ->]. easy. Qed.

(** Runs the state-passing steps of a method on an explicit connection. *)
Ltac run_so :=
  cbv beta iota delta [bind get modify ret lift or_fail fst snd
                       set_buffer set_byteBuffer set_inboundBuffer
                       buffer byteBuffer inboundBuffer].

Lemma Read_spec (c : stdConn) :
  fst (Read c) = Ret (logical c) /\ same_buffers c (snd (Read c)).
Proof.
  unfold Read, same_buffers, logical. destruct c as [b j rb]. run_so.
  destruct (RingBuffer.IsEmpty rb) eqn:E.
  - apply IsEmpty_true in E. rewrite E.
    destruct (len b =? 0) eqn:L; simpl; [|easy].
    apply Z.eqb_eq, len_zero_nil in L. subst b. easy.
  - simpl. rewrite WithByteBuffer_app. easy.
Qed.

Lemma peek_size_bounds (n total : Z) :
  0 <= total -> 0 <= peek_size n total <= total.
Proof. unfold peek_size. intros H. destruct (total <? n) eqn:A, (n <=? 0) eqn:B; simpl; lia. Qed.

Lemma ReadN_spec (n : Z) (c : stdConn) :
  let m := peek_size n (BufferLength c) in
  fst (ReadN n c) = Ret (m, firstn (Z.to_nat m) (logical c))
  /\ same_buffers c (snd (ReadN n c)).
Proof.
  intros m.
  pose proof (peek_size_bounds n (BufferLength c)) as Hm.
  unfold BufferLength in Hm. fold m in Hm.
  pose proof (len_nonneg (buffer c)) as Hb.
  pose proof (len_nonneg (RingBuffer.held (inboundBuffer c))) as Hr.
  unfold RingBuffer.Length in Hm. specialize (Hm ltac:(lia)).
  subst m. unfold ReadN, same_buffers, logical, BufferLength, peek_size in *.
  destruct c as [b j rb]. simpl in Hm, Hb, Hr. run_so. unfold RingBuffer.Length in *.
  set (m := if (len (RingBuffer.held rb) + len b <? n) || (n <=? 0)
            then len (RingBuffer.held rb) + len b else n) in *.
  destruct (RingBuffer.IsEmpty rb) eqn:E.
  - apply IsEmpty_true in E. rewrite E in *. simpl in *.
    unfold slice_to.
    replace ((0 <=? m) && (m <=? len b)) with true
      by (symmetry; apply andb_true_iff; split; apply Z.leb_le; unfold len in *; simpl in *; lia).
    easy.
  - pose proof (LazyRead_app m rb) as HL.
    destruct (RingBuffer.LazyRead m rb) as [h t]. simpl in HL. simpl.
    destruct (len (RingBuffer.held rb) >=? m) eqn:G.
    + simpl. split; [|easy]. do 2 f_equal. rewrite HL.
      rewrite firstn_app_le; [reflexivity|]. unfold len in *. lia.
    + unfold slice_to.
      replace ((0 <=? m - len (RingBuffer.held rb)) && (m - len (RingBuffer.held rb) <=? len b))
        with true by (symmetry; apply andb_true_iff; split; apply Z.leb_le; lia).
      simpl. split; [|easy]. do 2 f_equal. rewrite HL.
      rewrite firstn_app_ge by (unfold len in *; lia).
      rewrite firstn_all2 by (unfold len in *; lia).
      do 2 f_equal. unfold len. lia.
Qed.

(** ** Consuming: [ShiftN] and [ResetBuffer] *)

Lemma ResetBuffer_spec (c : stdConn) :
  fst (ResetBuffer c) = Ret tt
  /\ buffer (snd (ResetBuffer c)) = []
  /\ RingBuffer.held (inboundBuffer (snd (ResetBuffer c))) = []
  /\ byteBuffer (snd (ResetBuffer c)) = None.
Proof. destruct c as [b j rb]. unfold ResetBuffer. run_so. simpl. easy. Qed.

Lemma shift_ok_true (n total : Z) : shift_ok n total = true <-> 0 < n <= total.
Proof.
  unfold shift_ok. rewrite negb_true_iff, orb_false_iff, Z.ltb_ge, Z.leb_gt. lia.
Qed.

Lemma shift_ok_false (n total : Z) : shift_ok n total = false <-> n <= 0 \/ n > total.
Proof.
  unfold shift_ok. rewrite negb_false_iff, orb_true_iff, Z.ltb_lt, Z.leb_le. lia.
Qed.

Lemma ShiftN_reset (n : Z) (c : stdConn) :
  shift_ok n (BufferLength c) = false ->
  fst (ShiftN n c) = Ret (BufferLength c)
  /\ buffer (snd (ShiftN n c)) = []
  /\ RingBuffer.held (inboundBuffer (snd (ShiftN n c))) = [].
Proof.
  unfold shift_ok, BufferLength, ShiftN. destruct c as [b j rb]. run_so.
  intros H. apply negb_false_iff in H. rewrite H. simpl. easy.
Qed.

Lemma ShiftN_advance (n : Z) (c : stdConn) :
  shift_ok n (BufferLength c) = true ->
  let k := Z.min n (RingBuffer.Length (inboundBuffer c)) in
  fst (ShiftN n c) = Ret n
  /\ RingBuffer.held (inboundBuffer (snd (ShiftN n c)))
     = skipn (Z.to_nat k) (RingBuffer.held (inboundBuffer c))
  /\ buffer (snd (ShiftN n c)) = skipn (Z.to_nat (n - k)) (buffer c).
Proof.
  intros H k. pose proof H as H0. apply shift_ok_true in H0.
  unfold shift_ok in H. apply negb_true_iff in H.
  subst k. unfold BufferLength, ShiftN, RingBuffer.Length in *.
  destruct c as [b j rb]. simpl in H, H0. run_so. rewrite H.
  pose proof (len_nonneg b) as Hb.
  pose proof (len_nonneg (RingBuffer.held rb)) as Hr.
  destruct (RingBuffer.IsEmpty rb) eqn:E.
  - apply IsEmpty_true in E. rewrite E in *. change (len []) with 0 in *.
    simpl.
    unfold slice_from.
    replace ((0 <=? n) && (n <=? len b)) with true
      by (symmetry; apply andb_true_iff; split; apply Z.leb_le; lia).
    simpl. split; [reflexivity|]. split.
    + now rewrite skipn_nil.
    + do 2 f_equal. lia.
  - destruct (len (RingBuffer.held rb) >=? n) eqn:G; simpl.
    + split; [reflexivity|]. split.
      * do 2 f_equal. lia.
      * replace (n - Z.min n (len (RingBuffer.held rb))) with 0 by lia. reflexivity.
    + unfold slice_from.
      replace ((0 <=? n - len (RingBuffer.held rb)) && (n - len (RingBuffer.held rb) <=? len b))
        with true by (symmetry; apply andb_true_iff; split; apply Z.leb_le; lia).
      simpl. split; [reflexivity|]. split.
      * replace (Z.min n (len (RingBuffer.held rb))) with (len (RingBuffer.held rb)) by lia.
        now rewrite skipn_len.
      * do 2 f_equal. lia.
Qed.

Lemma ShiftN_logical (n : Z) (c : stdConn) :
  shift_ok n (BufferLength c) = true ->
  fst (ShiftN n c) = Ret n
  /\ logical (snd (ShiftN n c)) = skipn (Z.to_nat n) (logical c)
  /\ BufferLength (snd (ShiftN n c)) = BufferLength c - n.
Proof.
  intros H. destruct (ShiftN_advance n c H) as (Hr & Hring & Hbuf).
  apply shift_ok_true in H.
  assert (HL : logical (snd (ShiftN n c)) = skipn (Z.to_nat n) (logical c)).
  { unfold logical. rewrite Hring, Hbuf. unfold RingBuffer.Length, BufferLength in *.
    pose proof (len_nonneg (buffer c)) as Hb.
    pose proof (len_nonneg (RingBuffer.held (inboundBuffer c))) as Hh.
    destruct (Z.le_ge_cases n (len (RingBuffer.held (inboundBuffer c)))) as [L|L].
    - rewrite Z.min_l by lia. replace (n - n) with 0 by lia. simpl.
      rewrite skipn_app_le by (unfold len in *; lia). reflexivity.
    - rewrite Z.min_r by lia. rewrite skipn_len. simpl.
      rewrite skipn_app_ge by (unfold len in *; lia).
      f_equal. unfold len. lia. }
  split; [exact Hr|]. split; [exact HL|].
  rewrite !BufferLength_logical, HL. rewrite BufferLength_logical in H.
  apply len_skipn. lia.
Qed.

(** ** The buffer operations of the connection *)

(** C4.  With [len = ring.len + scratch.len] buffered: [ShiftN n] with
    [0 < n <= len] returns [n], removes exactly the first [n] bytes of the
    logical contents, of which [min n ring.len] leave the ring and the rest
    leave the scratch, and [BufferLength] drops by [n]; [ShiftN n] with
    [n <= 0] or [n > len] empties both buffers, returns the former total and
    leaves [BufferLength] at [0]. *)
Theorem ShiftN_consume (c : stdConn) (n : Z) :
  let total := BufferLength c in
  let ringLen := RingBuffer.Length (inboundBuffer c) in
  let c' := snd (ShiftN n c) in
  (0 < n <= total ->
     fst (ShiftN n c) = Ret n
     /\ logical c' = skipn (Z.to_nat n) (logical c)
     /\ RingBuffer.held (inboundBuffer c')
        = skipn (Z.to_nat (Z.min n ringLen)) (RingBuffer.held (inboundBuffer c))
     /\ buffer c' = skipn (Z.to_nat (n - Z.min n ringLen)) (buffer c)
     /\ BufferLength c' = total - n)
  /\ (n <= 0 \/ n > total ->
     fst (ShiftN n c) = Ret total
     /\ RingBuffer.held (inboundBuffer c') = []
     /\ buffer c' = []
     /\ BufferLength c' = 0).
Proof.
  intros total ringLen c'. split; intros H.
  - apply shift_ok_true in H.
    destruct (ShiftN_advance n c H) as (_ & Hring & Hbuf).
    destruct (ShiftN_logical n c H) as (Hret & Hlog & Hlen).
    repeat split; assumption.
  - apply shift_ok_false in H.
    destruct (ShiftN_reset n c H) as (Hret & Hbuf & Hring).
    repeat split; try assumption.
    unfold BufferLength, RingBuffer.Length. subst c'. now rewrite Hbuf, Hring.
Qed.

Lemma ShiftN_consume_witness :
  (0 < 3 <= BufferLength conn_ab_cde
   /\ fst (ShiftN 3 conn_ab_cde) = Ret 3
   /\ logical (snd (ShiftN 3 conn_ab_cde)) = text "de"
   /\ BufferLength (snd (ShiftN 3 conn_ab_cde)) = 2)
  /\ ((0 <= 0 \/ 0 > BufferLength conn_ab_cde)
      /\ fst (ShiftN 0 conn_ab_cde) = Ret 5
      /\ BufferLength (snd (ShiftN 0 conn_ab_cde)) = 0).
Proof.
  assert (H3 : 0 < 3 <= BufferLength conn_ab_cde) by (vm_compute; split; [reflexivity | discriminate]).
  assert (H0 : 0 <= 0 \/ 0 > BufferLength conn_ab_cde) by (left; discriminate).
  split.
  - destruct (ShiftN_consume conn_ab_cde 3) as [Hin _].
    destruct (Hin H3) as (Hret & Hlog & _ & _ & Hlen).
    repeat split; try assumption; try (vm_compute; congruence).
  - destruct (ShiftN_consume conn_ab_cde 0) as [_ Hout].
    destruct (Hout H0) as (Hret & _ & _ & Hlen).
    repeat split; assumption.
Defined.

(** C5.  With [total_len] bytes buffered, [ReadN n] returns
    [available = min n total_len] for a positive [n], together with the
    first [available] bytes of the logical contents in order; for [n <= 0]
    or [n > total_len] it returns every buffered byte and
    [available = total_len]; neither [ReadN] nor [Read] changes
    [BufferLength] or the logical contents. *)
Theorem ReadN_peek (c : stdConn) (n : Z) :
  let total := BufferLength c in
  exists available buf,
    fst (ReadN n c) = Ret (available, buf)
    /\ buf = firstn (Z.to_nat available) (logical c)
    /\ (0 < n -> available = Z.min n total)
    /\ (n <= 0 \/ n > total -> available = total /\ buf = logical c)
    /\ BufferLength (snd (ReadN n c)) = total
    /\ logical (snd (ReadN n c)) = logical c
    /\ fst (Read c) = Ret (logical c)
    /\ BufferLength (snd (Read c)) = total
    /\ logical (snd (Read c)) = logical c.
Proof.
  intros total.
  destruct (ReadN_spec n c) as [Hret Hsame]. cbv zeta in Hret.
  destruct (same_buffers_logical _ _ Hsame) as [Hlog Hlen].
  destruct (Read_spec c) as [Rret Rsame].
  destruct (same_buffers_logical _ _ Rsame) as [Rlog Rlen].
  fold total in Hret.
  exists (peek_size n total), (firstn (Z.to_nat (peek_size n total)) (logical c)).
  repeat split; try assumption.
  - intros Hn. unfold peek_size.
    destruct (total <? n) eqn:A; simpl.
    + apply Z.ltb_lt in A. lia.
    + apply Z.ltb_ge in A. destruct (n <=? 0) eqn:B0; [apply Z.leb_le in B0; lia | lia].
  - apply shift_ok_false in H. unfold shift_ok in H. apply negb_false_iff in H.
    unfold peek_size. now rewrite H.
  - apply shift_ok_false in H. unfold shift_ok in H. apply negb_false_iff in H.
    unfold peek_size. rewrite H. subst total. rewrite BufferLength_logical.
    apply firstn_len.
Qed.

Lemma ReadN_peek_witness :
  0 < 3
  /\ fst (ReadN 3 conn_ab_cde) = Ret (3, text "abc")
  /\ BufferLength (snd (ReadN 3 conn_ab_cde)) = 5
  /\ (0 <= 0 \/ 0 > BufferLength conn_ab_cde)
  /\ fst (ReadN 0 conn_ab_cde) = Ret (5, text "abcde").
Proof.
  assert (H3 : 0 < 3) by reflexivity.
  assert (H0 : 0 <= 0 \/ 0 > BufferLength conn_ab_cde) by (left; discriminate).
  destruct (ReadN_peek conn_ab_cde 3) as (a & buf & Hret & Hbuf & Hpos & _ & Hlen & _).
  destruct (ReadN_peek conn_ab_cde 0) as (a0 & buf0 & Hret0 & _ & _ & Hall & _).
  specialize (Hpos H3). destruct (Hall H0) as [Ha0 Hb0].
  subst a buf a0 buf0.
  repeat split; assumption.
Defined.

(** ** Terminated frames: the line and delimiter codecs *)

Lemma IndexByte_range (b : bytes) (t : byte) : -1 <= IndexByte b t < len b.
Proof.
  induction b as [|x b IH]; simpl; [unfold len; simpl; lia|].
  assert (len (x :: b) = len b + 1) by (unfold len; simpl; lia).
  destruct (Byte.eqb x t); [pose proof (len_nonneg b); lia|].
  destruct (IndexByte b t =? -1) eqn:E; [lia|]. apply Z.eqb_neq in E. lia.
Qed.

Lemma IndexByte_absent (b : bytes) (t : byte) : ~ In t b -> IndexByte b t = -1.
Proof.
  induction b as [|x b IH]; simpl; intros H; [reflexivity|].
  destruct (Byte.eqb x t) eqn:E.
  - apply Byte.byte_dec_bl in E. tauto.
  - rewrite IH by tauto. reflexivity.
Qed.

Lemma IndexByte_first (b : bytes) (t : byte) (idx : nat) :
  first_at t b idx -> IndexByte b t = Z.of_nat idx.
Proof.
  revert idx. induction b as [|x b IH]; intros idx [Hn Hlt].
  - destruct idx; discriminate.
  - simpl. destruct (Byte.eqb x t) eqn:E.
    + apply Byte.byte_dec_bl in E. subst x.
      destruct idx; [reflexivity|]. exfalso. apply (Hlt 0%nat); [lia | reflexivity].
    + destruct idx as [|idx].
      * simpl in Hn. injection Hn as ->. rewrite Byte.byte_dec_lb in E by reflexivity.
        discriminate.
      * rewrite (IH idx).
        -- destruct (Z.of_nat idx =? -1) eqn:F; [apply Z.eqb_eq in F|]; lia.
        -- split; [exact Hn|]. intros j Hj. apply (Hlt (S j)). lia.
Qed.

Lemma first_at_lt (t : byte) (b : bytes) (idx : nat) :
  first_at t b idx -> Z.of_nat idx < len b.
Proof.
  intros [H _]. unfold len. apply Nat2Z.inj_lt, nth_error_Some. congruence.
Qed.

Lemma LineBased_Decode_terminated (cc : LineBasedFrameCodec) :
  Decode cc = terminated_Decode CRLFByte ErrCRLFNotFound.
Proof. reflexivity. Qed.

Lemma DelimiterBased_Decode_terminated (cc : DelimiterBasedFrameCodec) :
  Decode cc = terminated_Decode (delimiter cc) ErrDelimiterNotFound.
Proof. reflexivity. Qed.

(** Running [k] after a [Read]: the bytes read are the logical contents and
    the buffers are those of the connection. *)
Lemma bind_Read {A} (k : bytes -> Method A) (c : stdConn) :
  bind Read k c = k (logical c) (snd (Read c)).
Proof.
  destruct (Read_spec c) as [Hret _].
  unfold bind. destruct (Read c) as [o c1]. simpl in *. now subst o.
Qed.

Lemma Read_same_buffers (c : stdConn) : same_buffers c (snd (Read c)).
Proof. apply Read_spec. Qed.

Lemma terminated_Decode_absent (t : byte) (e : error) (c : stdConn) :
  ~ In t (logical c) ->
  fst (terminated_Decode t e c) = Fail e
  /\ same_buffers c (snd (terminated_Decode t e c)).
Proof.
  intros H. unfold terminated_Decode.
  rewrite bind_Read. pose proof (Read_same_buffers c) as Hsame.
  set (c1 := snd (Read c)) in *.
  cbv zeta. rewrite (IndexByte_absent _ _ H). simpl. easy.
Qed.

Lemma terminated_Decode_found (t : byte) (e : error) (c : stdConn) (idx : nat) :
  first_at t (logical c) idx ->
  fst (terminated_Decode t e c) = Ret (firstn idx (logical c))
  /\ logical (snd (terminated_Decode t e c)) = skipn (S idx) (logical c)
  /\ BufferLength (snd (terminated_Decode t e c)) = BufferLength c - (Z.of_nat idx + 1).
Proof.
  intros H. pose proof (first_at_lt _ _ _ H) as Hlt. unfold terminated_Decode.
  rewrite bind_Read. pose proof (Read_same_buffers c) as Hsame.
  set (c1 := snd (Read c)) in *.
  destruct (same_buffers_logical _ _ Hsame) as [Hlog Hlen].
  cbv zeta. rewrite (IndexByte_first _ _ _ H).
  replace (Z.of_nat idx =? -1) with false by (symmetry; apply Z.eqb_neq; lia).
  assert (Hok : shift_ok (Z.of_nat idx + 1) (BufferLength c1) = true).
  { apply shift_ok_true. rewrite Hlen, BufferLength_logical. lia. }
  destruct (ShiftN_logical _ _ Hok) as (Hret & Hl & Hb).
  unfold bind, lift. destruct (ShiftN (Z.of_nat idx + 1) c1) as [o c2].
  simpl in Hret, Hl, Hb. subst o. simpl.
  unfold slice_to.
  replace ((0 <=? Z.of_nat idx) && (Z.of_nat idx <=? len (logical c))) with true
    by (symmetry; apply andb_true_iff; split; apply Z.leb_le; lia).
  rewrite Nat2Z.id. split; [reflexivity|]. split.
  - rewrite Hl, Hlog. now replace (Z.to_nat (Z.of_nat idx + 1)) with (S idx) by lia.
  - rewrite Hb, Hlen. reflexivity.
Qed.

(** C7.  For the line codec (terminator [CRLFByte]) and the delimiter codec
    (terminator [delimiter cc]) and every buffered contents [b]: when the
    terminator does not occur in [b], [Decode] fails with the codec's
    not-found error and consumes nothing; when its first occurrence is at
    [idx], [Decode] returns [b[0..idx)] and consumes exactly [idx + 1]
    bytes. *)
Theorem terminated_Decode_correct
  (lc : LineBasedFrameCodec) (dc : DelimiterBasedFrameCodec) (c : stdConn) :
  let b := logical c in
  ((~ In CRLFByte b ->
      fst (Decode lc c) = Fail ErrCRLFNotFound
      /\ logical (snd (Decode lc c)) = b
      /\ BufferLength (snd (Decode lc c)) = BufferLength c)
   /\ (forall idx, first_at CRLFByte b idx ->
      fst (Decode lc c) = Ret (firstn idx b)
      /\ logical (snd (Decode lc c)) = skipn (idx + 1) b
      /\ BufferLength (snd (Decode lc c)) = BufferLength c - (Z.of_nat idx + 1)))
  /\
  ((~ In (delimiter dc) b ->
      fst (Decode dc c) = Fail ErrDelimiterNotFound
      /\ logical (snd (Decode dc c)) = b
      /\ BufferLength (snd (Decode dc c)) = BufferLength c)
   /\ (forall idx, first_at (delimiter dc) b idx ->
      fst (Decode dc c) = Ret (firstn idx b)
      /\ logical (snd (Decode dc c)) = skipn (idx + 1) b
      /\ BufferLength (snd (Decode dc c)) = BufferLength c - (Z.of_nat idx + 1))).
Proof.
  intros b. rewrite LineBased_Decode_terminated, DelimiterBased_Decode_terminated.
  assert (Habs : forall t e, ~ In t b ->
            fst (terminated_Decode t e c) = Fail e
            /\ logical (snd (terminated_Decode t e c)) = b
            /\ BufferLength (snd (terminated_Decode t e c)) = BufferLength c).
  { intros t e H. destruct (terminated_Decode_absent t e c H) as [Hret Hsame].
    destruct (same_buffers_logical _ _ Hsame) as [Hlog Hlen]. easy. }
  assert (Hfound : forall t e idx, first_at t b idx ->
            fst (terminated_Decode t e c) = Ret (firstn idx b)
            /\ logical (snd (terminated_Decode t e c)) = skipn (idx + 1) b
            /\ BufferLength (snd (terminated_Decode t e c))
               = BufferLength c - (Z.of_nat idx + 1)).
  { intros t e idx H. replace (idx + 1)%nat with (S idx) by lia.
    apply terminated_Decode_found. exact H. }
  repeat split; solve [apply Habs; assumption | apply Hfound; assumption].
Qed.

Lemma terminated_Decode_correct_witness :
  (first_at CRLFByte (logical conn_hello_wor) 5
   /\ fst (Decode mkLineBasedFrameCodec conn_hello_wor) = Ret (text "hello")
   /\ logical (snd (Decode mkLineBasedFrameCodec conn_hello_wor)) = text "wor"
   /\ BufferLength (snd (Decode mkLineBasedFrameCodec conn_hello_wor)) = 3)
  /\ (~ In Byte.x00 (logical conn_hello_wor)
      /\ fst (Decode (NewDelimiterBasedFrameCodec Byte.x00) conn_hello_wor)
         = Fail ErrDelimiterNotFound
      /\ BufferLength (snd (Decode (NewDelimiterBasedFrameCodec Byte.x00) conn_hello_wor))
         = 9).
Proof.
  assert (Hfirst : first_at CRLFByte (logical conn_hello_wor) 5).
  { split; [reflexivity|]. intros j Hj.
    do 5 (destruct j as [|j]; [discriminate|]). lia. }
  assert (Habsent : ~ In Byte.x00 (logical conn_hello_wor)).
  { simpl. intuition discriminate. }
  destruct (terminated_Decode_correct mkLineBasedFrameCodec
              (NewDelimiterBasedFrameCodec Byte.x00) conn_hello_wor)
    as [[_ Hline] [Hdelim _]].
  destruct (Hline 5%nat Hfirst) as (Hret & Hlog & Hlen).
  destruct (Hdelim Habsent) as (Dret & _ & Dlen).
  exact (conj (conj Hfirst (conj Hret (conj Hlog Hlen)))
              (conj Habsent (conj Dret Dlen))).
Defined.

(** ** The fixed-length codec *)

Lemma bind_ReadN {A} (n : Z) (k : Z * bytes -> Method A) (c : stdConn) :
  bind (ReadN n) k c
  = k (peek_size n (BufferLength c),
       firstn (Z.to_nat (peek_size n (BufferLength c))) (logical c))
      (snd (ReadN n c)).
Proof.
  destruct (ReadN_spec n c) as [Hret _]. cbv zeta in Hret.
  unfold bind. destruct (ReadN n c) as [o c1]. simpl in *. now subst o.
Qed.

(** What [Decode] of the fixed-length codec does, by the number of bytes
    buffered: nothing buffered is the only case that fails. *)
Lemma FixedLength_Decode_cases (cc : FixedLengthFrameCodec) (c : stdConn) :
  let m := peek_size (frameLength cc) (BufferLength c) in
  (BufferLength c = 0 ->
     fst (Decode cc c) = Fail ErrUnexpectedEOF
     /\ same_buffers c (snd (Decode cc c)))
  /\ (0 < BufferLength c ->
     fst (Decode cc c) = Ret (firstn (Z.to_nat m) (logical c))
     /\ logical (snd (Decode cc c)) = skipn (Z.to_nat m) (logical c)
     /\ BufferLength (snd (Decode cc c)) = BufferLength c - m).
Proof.
  intros m. simpl. unfold FixedLength_Decode. rewrite bind_ReadN. fold m.
  pose proof (proj2 (ReadN_spec (frameLength cc) c)) as Hsame.
  destruct (same_buffers_logical _ _ Hsame) as [Hlog Hlen].
  set (c1 := snd (ReadN (frameLength cc) c)) in *.
  assert (Hm : BufferLength c = 0 -> m = 0).
  { intros H. subst m. unfold peek_size. rewrite H.
    destruct (0 <? frameLength cc) eqn:A, (frameLength cc <=? 0) eqn:B0; simpl; lia. }
  assert (Hm' : 0 < BufferLength c -> 0 < m <= BufferLength c).
  { intros H. subst m. unfold peek_size.
    destruct (BufferLength c <? frameLength cc) eqn:A, (frameLength cc <=? 0) eqn:B0; simpl;
      lia. }
  split; intros H.
  - rewrite (Hm H). simpl. easy.
  - specialize (Hm' H).
    replace (m =? 0) with false by (symmetry; apply Z.eqb_neq; lia).
    assert (Hok : shift_ok m (BufferLength c1) = true)
      by (apply shift_ok_true; rewrite Hlen; lia).
    destruct (ShiftN_logical _ _ Hok) as (Hret & Hl & Hb).
    unfold bind, ret. destruct (ShiftN m c1) as [o c2].
    simpl in Hret, Hl, Hb. subst o. simpl.
    rewrite Hl, Hlog, Hb, Hlen. easy.
Qed.

(** The complete-frame half of the decoder: with [frameLength > 0] and at
    least that many bytes buffered, [Decode] returns exactly the first
    [frameLength] bytes and consumes exactly those. *)
Lemma FixedLength_Decode_full (cc : FixedLengthFrameCodec) (c : stdConn) :
  0 < frameLength cc <= BufferLength c ->
  fst (Decode cc c) = Ret (firstn (Z.to_nat (frameLength cc)) (logical c))
  /\ logical (snd (Decode cc c)) = skipn (Z.to_nat (frameLength cc)) (logical c)
  /\ BufferLength (snd (Decode cc c)) = BufferLength c - frameLength cc.
Proof.
  intros H. destruct (FixedLength_Decode_cases cc c) as [_ Hpos].
  assert (E : peek_size (frameLength cc) (BufferLength c) = frameLength cc).
  { unfold peek_size.
    replace (BufferLength c <? frameLength cc) with false by (symmetry; apply Z.ltb_ge; lia).
    replace (frameLength cc <=? 0) with false by (symmetry; apply Z.leb_gt; lia).
    reflexivity. }
  rewrite E in Hpos. apply Hpos. lia.
Qed.

(** The short-read half: with fewer than [frameLength] bytes buffered, but
    at least one, [Decode] does not fail; it returns the bytes there are as
    a frame and consumes them. *)
Lemma FixedLength_Decode_short (cc : FixedLengthFrameCodec) (c : stdConn) :
  0 < BufferLength c < frameLength cc ->
  fst (Decode cc c) = Ret (logical c)
  /\ BufferLength (snd (Decode cc c)) = 0.
Proof.
  intros H. destruct (FixedLength_Decode_cases cc c) as [_ Hpos].
  assert (E : peek_size (frameLength cc) (BufferLength c) = BufferLength c).
  { unfold peek_size.
    replace (BufferLength c <? frameLength cc) with true by (symmetry; apply Z.ltb_lt; lia).
    reflexivity. }
  rewrite E in Hpos. destruct Hpos as (Hret & _ & Hlen); [lia|].
  rewrite Hret, Hlen. rewrite BufferLength_logical, firstn_len. split; [reflexivity | lia].
Qed.

(** C1.  The code at the input of the specification's scenario: frame
    length [4] and the two bytes ["IJ"] buffered.  [ReadN 4] clamps to the
    two bytes there are and returns [size = 2]; [Decode] tests [size == 0]
    only, so it returns ["IJ"] as a frame and consumes it, where the claim
    has [ErrUnexpectedEOF] and [BufferLength] still [2]. *)
Theorem FixedLength_Decode_two_of_four :
  let cc := NewFixedLengthFrameCodec 4 in
  let c := feed (text "IJ") newTCPConn in
  BufferLength c = 2
  /\ fst (ReadN 4 c) = Ret (2, text "IJ")
  /\ fst (Decode cc c) = Ret (text "IJ")
  /\ fst (Decode cc c) <> Fail ErrUnexpectedEOF
  /\ BufferLength (snd (Decode cc c)) = 0.
Proof. cbv zeta. repeat split. discriminate. Qed.

(** ** Integers and length fields *)

Lemma wrap_range (z : Z) : GoInt.in_range (GoInt.wrap z).
Proof.
  unfold GoInt.in_range, GoInt.wrap, GoInt.min_int, GoInt.max_int.
  pose proof (Z.mod_pos_bound (z + 2 ^ 63) (2 ^ 64) ltac:(lia)). lia.
Qed.

Lemma wrap_small (z : Z) : GoInt.in_range z -> GoInt.wrap z = z.
Proof.
  unfold GoInt.in_range, GoInt.wrap, GoInt.min_int, GoInt.max_int. intros H.
  rewrite Z.mod_small by lia. lia.
Qed.

Lemma supported_width_dec (w : Z) : {supported_width w} + {~ supported_width w}.
Proof.
  unfold supported_width.
  destruct (Z.eq_dec w 1); [left; tauto|].
  destruct (Z.eq_dec w 2); [left; tauto|].
  destruct (Z.eq_dec w 3); [left; tauto|].
  destruct (Z.eq_dec w 4); [left; tauto|].
  destruct (Z.eq_dec w 8); [left; tauto|].
  right. tauto.
Qed.

Lemma length_PutUint (order : binary.ByteOrder) (w : nat) (v : Z) :
  List.length (binary.PutUint order w v) = w.
Proof.
  destruct order; simpl; [|rewrite length_rev]; apply length_le_split.
Qed.

Lemma nth_error_PutUint (order : binary.ByteOrder) (w : nat) (v : Z) (i : nat) :
  (i < w)%nat ->
  nth_error (binary.PutUint order w v) i
  = Some (byte.of_Z (Z.shiftr v (8 * Z.of_nat (significance order w i)))).
Proof.
  intros H. destruct order; simpl.
  - apply nth_error_le_split. exact H.
  - rewrite nth_error_rev, length_le_split.
    replace (i <? w)%nat with true by (symmetry; apply Nat.ltb_lt; exact H).
    rewrite nth_error_le_split by lia.
    now replace (w - S i)%nat with (w - 1 - i)%nat by lia.
Qed.

Lemma fieldValue_PutUint (order : binary.ByteOrder) (w : nat) (v : Z) :
  fieldValue order (binary.PutUint order w v) = v mod 2 ^ (Z.of_nat w * 8).
Proof.
  unfold fieldValue. destruct order; simpl; [|rewrite rev_involutive];
    apply le_combine_split.
Qed.

Lemma PutUint_to_uint (order : binary.ByteOrder) (w : nat) (v : Z) :
  binary.PutUint order w (GoInt.to_uint (Z.of_nat w * 8) v) = binary.PutUint order w v.
Proof.
  unfold binary.PutUint, GoInt.to_uint. now rewrite <- le_split_mod.
Qed.

Lemma writeUint24_PutUint (order : binary.ByteOrder) (v : Z) :
  writeUint24 order v = binary.PutUint order 3 v.
Proof.
  unfold writeUint24, binary.PutUint.
  destruct order; cbv beta iota delta [binary.is_LittleEndian le_split rev app];
    rewrite Z.shiftr_shiftr by lia; reflexivity.
Qed.

Lemma lengthField_default (ec : EncoderConfig.t) (length : Z) :
  ~ supported_width (EncoderConfig.LengthFieldLength ec) ->
  lengthField ec length = Fail ErrUnsupportedLength.
Proof.
  unfold lengthField, supported_width.
  destruct (EncoderConfig.LengthFieldLength ec) as [|p|p]; intros H; try reflexivity.
  do 4 (try destruct p as [p|p|]); try reflexivity; exfalso; apply H; tauto.
Qed.

(** On a supported width, the field written is the [w] low-order bytes of
    [length] in the configured order. *)
Lemma lengthField_Ret (ec : EncoderConfig.t) (length : Z) (out : bytes) :
  lengthField ec length = Ret out ->
  supported_width (EncoderConfig.LengthFieldLength ec)
  /\ out = binary.PutUint (EncoderConfig.ByteOrder ec)
             (Z.to_nat (EncoderConfig.LengthFieldLength ec)) length
  /\ (EncoderConfig.LengthFieldLength ec = 1 -> length < 2 ^ 8)
  /\ (EncoderConfig.LengthFieldLength ec = 2 -> length < 2 ^ 16)
  /\ (EncoderConfig.LengthFieldLength ec = 3 -> length < 2 ^ 24).
Proof.
  intros H.
  destruct (supported_width_dec (EncoderConfig.LengthFieldLength ec)) as [S|S];
    [|rewrite (lengthField_default _ _ S) in H; discriminate].
  split; [exact S|].
  unfold lengthField in H.
  destruct S as [E|[E|[E|[E|E]]]]; rewrite E in *.
  - destruct (length >=? 256) eqn:G; [discriminate|]. injection H as <-.
    split; [destruct (EncoderConfig.ByteOrder ec); reflexivity|]. lia.
  - destruct (length >=? 65536) eqn:G; [discriminate|]. injection H as <-.
    split; [apply (PutUint_to_uint _ 2)|]. lia.
  - destruct (length >=? 16777216) eqn:G; [discriminate|]. injection H as <-.
    split; [apply writeUint24_PutUint|]. lia.
  - injection H as <-. split; [apply (PutUint_to_uint _ 4)|]. lia.
  - injection H as <-. split; [apply (PutUint_to_uint _ 8)|]. lia.
Qed.

(** ** The length-field encoder *)

Lemma LengthField_Encode_Ret (cc : LengthFieldBasedFrameCodec) (buf out : bytes) :
  Encode cc buf = Ret out ->
  0 <= encodedLength (encoderConfig cc) buf
  /\ exists field,
       lengthField (encoderConfig cc) (encodedLength (encoderConfig cc) buf) = Ret field
       /\ out = field ++ buf.
Proof.
  simpl. unfold LengthField_Encode.
  destruct (encodedLength (encoderConfig cc) buf <? 0) eqn:N; [discriminate|].
  apply Z.ltb_ge in N.
  destruct (lengthField (encoderConfig cc) (encodedLength (encoderConfig cc) buf))
    as [field|e|p]; try discriminate.
  intros H. injection H as <-. split; [exact N|]. now exists field.
Qed.

Lemma encodedLength_range (ec : EncoderConfig.t) (buf : bytes) :
  GoInt.in_range (encodedLength ec buf).
Proof.
  unfold encodedLength, GoInt.add.
  destruct (EncoderConfig.LengthIncludesLengthFieldLength ec); apply wrap_range.
Qed.

(** C8.  When [Encode] succeeds, the output is the length field followed by
    the frame unchanged, so its length is [LengthFieldLength + len(frame)];
    the width is one of 1, 2, 3, 4, 8; the field is [length] serialised into
    exactly [LengthFieldLength] bytes in the configured order: position [i]
    holds the byte of significance [i] under little-endian and of
    significance [w - 1 - i] under big-endian (for the 24-bit width: three
    bytes, most significant first under big-endian, least significant first
    under little-endian).  Read back in that order the field is [length]
    modulo [2^(8 w)], which is [length] itself whenever [length] fits the
    width, as it does on every success with a width other than 4. *)
Theorem LengthField_Encode_layout
  (cc : LengthFieldBasedFrameCodec) (buf out : bytes) :
  Encode cc buf = Ret out ->
  let ec := encoderConfig cc in
  let order := EncoderConfig.ByteOrder ec in
  let length := encodedLength ec buf in
  let w := Z.to_nat (EncoderConfig.LengthFieldLength ec) in
  exists field,
    out = field ++ buf
    /\ supported_width (EncoderConfig.LengthFieldLength ec)
    /\ len field = EncoderConfig.LengthFieldLength ec
    /\ len out = EncoderConfig.LengthFieldLength ec + len buf
    /\ (forall i, (i < w)%nat ->
          nth_error field i
          = Some (byte.of_Z (Z.shiftr length (8 * Z.of_nat (significance order w i)))))
    /\ fieldValue order field = length mod 2 ^ (8 * EncoderConfig.LengthFieldLength ec)
    /\ (length < 2 ^ (8 * EncoderConfig.LengthFieldLength ec) ->
          fieldValue order field = length)
    /\ (EncoderConfig.LengthFieldLength ec <> 4 ->
          length < 2 ^ (8 * EncoderConfig.LengthFieldLength ec)).
Proof.
  intros H ec order length w.
  destruct (LengthField_Encode_Ret cc buf out H) as (Hpos & field & Hf & ->).
  fold ec in Hf, Hpos. fold length in Hf, Hpos.
  destruct (lengthField_Ret ec length field Hf) as (S & -> & H1 & H2 & H3).
  fold order. fold w.
  assert (Hw : Z.of_nat w = EncoderConfig.LengthFieldLength ec).
  { subst w. unfold supported_width in S. lia. }
  assert (Hlen : len (binary.PutUint order w length) = EncoderConfig.LengthFieldLength ec).
  { unfold len. rewrite length_PutUint. exact Hw. }
  assert (Hval : fieldValue order (binary.PutUint order w length)
                 = length mod 2 ^ (8 * EncoderConfig.LengthFieldLength ec)).
  { rewrite fieldValue_PutUint, Hw. f_equal. f_equal. lia. }
  exists (binary.PutUint order w length).
  split; [reflexivity|]. split; [exact S|]. split; [exact Hlen|].
  split; [rewrite len_app, Hlen; reflexivity|].
  split; [intros i Hi; apply nth_error_PutUint; exact Hi|].
  split; [exact Hval|]. split.
  - intros Hfit. rewrite Hval. apply Z.mod_small. lia.
  - intros H4. pose proof (encodedLength_range ec buf) as R.
    fold length in R. unfold GoInt.in_range, GoInt.min_int, GoInt.max_int in R.
    destruct S as [E|[E|[E|[E|E]]]]; rewrite E; try (specialize (H1 E));
      try (specialize (H2 E)); try (specialize (H3 E)); simpl; lia.
Qed.

Lemma LengthField_Encode_layout_witness :
  Encode (medium_codec binary.BigEndian) (text "hi")
  = Ret ([Byte.x00; Byte.x01; Byte.x04] ++ text "hi")
  /\ Encode (medium_codec binary.LittleEndian) (text "hi")
     = Ret ([Byte.x04; Byte.x01; Byte.x00] ++ text "hi")
  /\ exists field,
       [Byte.x00; Byte.x01; Byte.x04] ++ text "hi" = field ++ text "hi"
       /\ len field = 3
       /\ fieldValue binary.BigEndian field = 260.
Proof.
  assert (Hbe : Encode (medium_codec binary.BigEndian) (text "hi")
                = Ret ([Byte.x00; Byte.x01; Byte.x04] ++ text "hi")) by reflexivity.
  assert (Hle : Encode (medium_codec binary.LittleEndian) (text "hi")
                = Ret ([Byte.x04; Byte.x01; Byte.x00] ++ text "hi")) by reflexivity.
  destruct (LengthField_Encode_layout _ _ _ Hbe)
    as (field & Hout & _ & Hlen & _ & _ & _ & Hval & _).
  split; [exact Hbe|]. split; [exact Hle|].
  exists field. split; [exact Hout|]. split; [exact Hlen|].
  apply Hval. reflexivity.
Defined.

(** The range checks of the [switch]: the widths 1, 2 and 3 reject a length
    that does not fit, naming the width; the width 8 needs no check, an
    [int] being below [2^63]; the width 4 has none, although an [int] can
    exceed [2^32 - 1]; any other width is [ErrUnsupportedLength]. *)
Lemma lengthField_range_checks (ec : EncoderConfig.t) (length : Z) :
  0 <= length -> GoInt.in_range length ->
  let w := EncoderConfig.LengthFieldLength ec in
  (w = 1 ->
     (2 ^ 8 <= length ->
        lengthField ec length = Fail (FmtErrorf "length does not fit into a byte: %d" length))
     /\ (length < 2 ^ 8 -> exists out, lengthField ec length = Ret out))
  /\ (w = 2 ->
     (2 ^ 16 <= length ->
        lengthField ec length
        = Fail (FmtErrorf "length does not fit into a short integer: %d" length))
     /\ (length < 2 ^ 16 -> exists out, lengthField ec length = Ret out))
  /\ (w = 3 ->
     (2 ^ 24 <= length ->
        lengthField ec length
        = Fail (FmtErrorf "length does not fit into a medium integer: %d" length))
     /\ (length < 2 ^ 24 -> exists out, lengthField ec length = Ret out))
  /\ (w = 4 -> exists out, lengthField ec length = Ret out)
  /\ (w = 8 -> length < 2 ^ 64 /\ exists out, lengthField ec length = Ret out)
  /\ (~ supported_width w -> lengthField ec length = Fail ErrUnsupportedLength).
Proof.
  intros Hpos R w. unfold GoInt.in_range, GoInt.min_int, GoInt.max_int in R.
  assert (Hge : forall k, k <= length -> (length >=? k) = true)
    by (intros k H; apply Z.geb_le; lia).
  assert (Hlt : forall k, length < k -> (length >=? k) = false)
    by (intros k H; rewrite Z.geb_leb; apply Z.leb_gt; lia).
  subst w. unfold lengthField.
  split; [intros ->; split; intros H;
          [rewrite (Hge 256) by lia | rewrite (Hlt 256) by lia; eexists]; reflexivity|].
  split; [intros ->; split; intros H;
          [rewrite (Hge 65536) by lia | rewrite (Hlt 65536) by lia; eexists]; reflexivity|].
  split; [intros ->; split; intros H;
          [rewrite (Hge 16777216) by lia | rewrite (Hlt 16777216) by lia; eexists];
          reflexivity|].
  split; [intros ->; eexists; reflexivity|].
  split; [intros ->; split; [lia | eexists; reflexivity]|].
  apply lengthField_default.
Qed.

(** C2.  The code at a four-byte field and a length of [2^32 + 2]: the
    frame ["hi"] under [LengthAdjustment = 2^32].  The length is
    non-negative and does not fit four bytes; [Encode] returns no error and
    writes the field [00 00 00 02], the length modulo [2^32]; the same
    length under the widths 1, 2 and 3 is rejected. *)
Theorem LengthField_Encode_int_unchecked :
  let ec w := EncoderConfig.mk binary.BigEndian w (2 ^ 32) false in
  let dc := DecoderConfig.mk binary.BigEndian 0 4 0 0 in
  let cc w := NewLengthFieldBasedFrameCodec (ec w) dc in
  encodedLength (ec 4) (text "hi") = 2 ^ 32 + 2
  /\ 2 ^ 32 <= encodedLength (ec 4) (text "hi")
  /\ Encode (cc 4) (text "hi")
     = Ret ([Byte.x00; Byte.x00; Byte.x00; Byte.x02] ++ text "hi")
  /\ Encode (cc 1) (text "hi")
     = Fail (FmtErrorf "length does not fit into a byte: %d" (2 ^ 32 + 2))
  /\ Encode (cc 2) (text "hi")
     = Fail (FmtErrorf "length does not fit into a short integer: %d" (2 ^ 32 + 2))
  /\ Encode (cc 3) (text "hi")
     = Fail (FmtErrorf "length does not fit into a medium integer: %d" (2 ^ 32 + 2)).
Proof. cbv zeta. repeat split; try reflexivity. vm_compute. discriminate. Qed.

(** ** The cursor of the length-field decoder *)

Lemma readN_ok (n : Z) (b : innerBuffer) :
  0 < n <= len b ->
  readN n b = (Ret (firstn (Z.to_nat n) b), skipn (Z.to_nat n) b).
Proof.
  intros H. unfold readN.
  replace (n <=? 0) with false by (symmetry; apply Z.leb_gt; lia).
  replace (n >? len b) with false by (symmetry; rewrite Z.gtb_ltb; apply Z.ltb_ge; lia).
  reflexivity.
Qed.

Lemma readN_short (e : error) (n : Z) (b : innerBuffer) :
  n <= 0 \/ len b < n ->
  or_fail e (readN n) b = (Fail e, b).
Proof.
  intros H. unfold or_fail, readN.
  destruct (n <=? 0) eqn:A; [reflexivity|]. apply Z.leb_gt in A.
  replace (n >? len b) with true by (symmetry; rewrite Z.gtb_ltb; apply Z.ltb_lt; lia).
  reflexivity.
Qed.

Lemma or_fail_readN_ok (e : error) (n : Z) (b : innerBuffer) :
  0 < n <= len b ->
  or_fail e (readN n) b = (Ret (firstn (Z.to_nat n) b), skipn (Z.to_nat n) b).
Proof. intros H. unfold or_fail. now rewrite readN_ok. Qed.

Lemma readUint24_fieldValue (order : binary.ByteOrder) (b0 b1 b2 : byte) :
  readUint24 order [b0; b1; b2] = Ret (fieldValue order [b0; b1; b2]).
Proof.
  assert (E : forall x y z : byte,
             Z.lor (Z.lor (byte.unsigned x) (Z.shiftl (byte.unsigned y) 8))
                   (Z.shiftl (byte.unsigned z) 16)
             = le_combine [x; y; z]).
  { intros x y z. cbv beta iota delta [le_combine].
    rewrite Z.shiftl_0_l, Z.lor_0_r, Z.shiftl_lor, Z.shiftl_shiftl by lia.
    symmetry. apply Z.lor_assoc. }
  destruct order;
    cbv beta iota delta [readUint24 fieldValue binary.is_LittleEndian rev app];
    now rewrite E.
Qed.

(** What [getUnadjustedFrameLength] does on a cursor [b], by the width. *)
Lemma getUnadjustedFrameLength_eq (cc : LengthFieldBasedFrameCodec) (b : innerBuffer) :
  let dc := decoderConfig cc in
  let w := DecoderConfig.LengthFieldLength dc in
  getUnadjustedFrameLength cc b
  = if supported_width_dec w then
      if len b <? w then (Fail ErrUnexpectedEOF, b)
      else (Ret (firstn (Z.to_nat w) b,
                 fieldValue (DecoderConfig.ByteOrder dc) (firstn (Z.to_nat w) b)),
            skipn (Z.to_nat w) b)
    else (Fail ErrUnsupportedLength, b).
Proof.
  intros dc w. subst w. unfold getUnadjustedFrameLength. fold dc.
  destruct (supported_width_dec (DecoderConfig.LengthFieldLength dc)) as [S|S].
  - assert (Hfix : forall k, (k <= List.length b)%nat -> firstn k (firstn k b) = firstn k b).
    { intros k Hk. rewrite firstn_firstn. now rewrite Nat.min_id. }
    assert (Huint : forall k : nat, Z.of_nat k <= len b ->
              (v <- lift (binary.Uint (DecoderConfig.ByteOrder dc) k
                            (firstn (Z.to_nat (Z.of_nat k)) b)) ;;
               ret (firstn (Z.to_nat (Z.of_nat k)) b, v))
                (skipn (Z.to_nat (Z.of_nat k)) b)
              = (Ret (firstn (Z.to_nat (Z.of_nat k)) b,
                      fieldValue (DecoderConfig.ByteOrder dc)
                        (firstn (Z.to_nat (Z.of_nat k)) b)),
                 skipn (Z.to_nat (Z.of_nat k)) b)).
    { intros k Hk. rewrite Nat2Z.id. unfold len in Hk.
      unfold bind, lift, ret, binary.Uint, fieldValue. rewrite length_firstn.
      replace (k <=? Nat.min k (List.length b))%nat with true
        by (symmetry; apply Nat.leb_le; lia).
      rewrite (Hfix k) by lia. reflexivity. }
    destruct S as [E|[E|[E|[E|E]]]]; rewrite E;
      (destruct (len b <? _) eqn:L;
       [apply Z.ltb_lt in L; unfold bind; rewrite readN_short by lia; reflexivity
       |apply Z.ltb_ge in L; unfold bind; rewrite or_fail_readN_ok by lia]).
    + destruct b as [|b0 b]; [unfold len in L; simpl in L; lia|].
      simpl. unfold ret, fieldValue.
      destruct (DecoderConfig.ByteOrder dc); simpl; now rewrite le_combine_1.
    + apply (Huint 2%nat). exact L.
    + destruct b as [|b0 [|b1 [|b2 b]]]; try (unfold len in L; simpl in L; lia).
      unfold lift, ret. change (firstn (Z.to_nat 3) (b0 :: b1 :: b2 :: b)) with [b0; b1; b2].
      now rewrite readUint24_fieldValue.
    + apply (Huint 4%nat). exact L.
    + apply (Huint 8%nat). exact L.
  - unfold supported_width in S.
    destruct (DecoderConfig.LengthFieldLength dc) as [|p|p]; try reflexivity.
    do 4 (try destruct p as [p|p|]); try reflexivity; exfalso; apply S; tauto.
Qed.

(** What [decodeFields] does on the bytes peeked. *)
Lemma decodeFields_eq (cc : LengthFieldBasedFrameCodec) (b : innerBuffer) :
  let dc := decoderConfig cc in
  let w := DecoderConfig.LengthFieldLength dc in
  let h := headerLength dc in
  let in1 := skipn (Z.to_nat h) b in
  decodeFields cc b
  = if len b <? h then (Fail ErrUnexpectedEOF, b)
    else if supported_width_dec w then
      if len in1 <? w then (Fail ErrUnexpectedEOF, in1)
      else (Ret (firstn (Z.to_nat h) b,
                 firstn (Z.to_nat w) in1,
                 fieldValue (DecoderConfig.ByteOrder dc) (firstn (Z.to_nat w) in1)),
            skipn (Z.to_nat w) in1)
    else (Fail ErrUnsupportedLength, in1).
Proof.
  intros dc w h in1. subst in1 h w. unfold decodeFields, headerLength. fold dc.
  pose proof (len_nonneg b) as Hb.
  destruct (DecoderConfig.LengthFieldOffset dc >? 0) eqn:O.
  - rewrite Z.gtb_ltb in O. apply Z.ltb_lt in O. rewrite Z.max_r by lia.
    destruct (len b <? DecoderConfig.LengthFieldOffset dc) eqn:L.
    + apply Z.ltb_lt in L. unfold bind. now rewrite readN_short by lia.
    + apply Z.ltb_ge in L. unfold bind at 1. rewrite or_fail_readN_ok by lia.
      unfold bind. rewrite getUnadjustedFrameLength_eq. fold dc.
      destruct (supported_width_dec (DecoderConfig.LengthFieldLength dc)); [|reflexivity].
      destruct (len _ <? _); reflexivity.
  - rewrite Z.gtb_ltb in O. apply Z.ltb_ge in O. rewrite Z.max_l by lia.
    replace (len b <? 0) with false by (symmetry; apply Z.ltb_ge; lia).
    unfold bind, ret. simpl. rewrite getUnadjustedFrameLength_eq. fold dc.
    destruct (supported_width_dec (DecoderConfig.LengthFieldLength dc)); [|reflexivity].
    destruct (len _ <? _); reflexivity.
Qed.

(** [decodeFields] never panics, and fails in two ways only. *)
Lemma decodeFields_Fail (cc : LengthFieldBasedFrameCodec) (b in' : innerBuffer)
  (o : outcome (bytes * bytes * Z)) :
  decodeFields cc b = (o, in') ->
  (exists v, o = Ret v)
  \/ o = Fail ErrUnexpectedEOF
  \/ (o = Fail ErrUnsupportedLength
      /\ ~ supported_width (DecoderConfig.LengthFieldLength (decoderConfig cc))).
Proof.
  rewrite decodeFields_eq. cbv zeta.
  destruct (len b <? _); [intros [= <- _]; tauto|].
  destruct (supported_width_dec _) as [S|S]; [|intros [= <- _]; tauto].
  destruct (len _ <? _); intros [= <- _]; [tauto|]. left. eexists; reflexivity.
Qed.

(** The fields [decodeFields] returns are the leading bytes of the cursor. *)
Lemma decodeFields_Ret (cc : LengthFieldBasedFrameCodec) (b in2 : innerBuffer)
  (header lenBuf : bytes) (F : Z) :
  decodeFields cc b = (Ret (header, lenBuf, F), in2) ->
  let dc := decoderConfig cc in
  b = header ++ lenBuf ++ in2
  /\ supported_width (DecoderConfig.LengthFieldLength dc)
  /\ len header = headerLength dc
  /\ len lenBuf = DecoderConfig.LengthFieldLength dc
  /\ F = fieldValue (DecoderConfig.ByteOrder dc) lenBuf.
Proof.
  rewrite decodeFields_eq. cbv zeta.
  set (dc := decoderConfig cc). set (h := headerLength dc).
  set (w := DecoderConfig.LengthFieldLength dc).
  assert (Hh : 0 <= h) by (subst h; unfold headerLength; lia).
  destruct (len b <? h) eqn:L; [discriminate|]. apply Z.ltb_ge in L.
  destruct (supported_width_dec w) as [S|S]; [|discriminate].
  destruct (len (skipn (Z.to_nat h) b) <? w) eqn:L2; [discriminate|].
  apply Z.ltb_ge in L2. intros [= <- <- <- <-].
  assert (Hw : 0 <= w) by (unfold supported_width in S; lia).
  rewrite !firstn_skipn. repeat split; try assumption.
  - apply len_firstn. lia.
  - apply len_firstn. lia.
Qed.

(** ** Assembling the full message *)

Lemma copy_at_zeros (a s : bytes) (k : nat) :
  copy_at (a ++ repeat Byte.x00 (List.length s + k)) (len a) s
  = Ret ((a ++ s) ++ repeat Byte.x00 k).
Proof.
  unfold copy_at, slice_from.
  pose proof (len_nonneg a) as Ha.
  replace ((0 <=? len a) && (len a <=? len (a ++ repeat Byte.x00 (List.length s + k))))
    with true
    by (symmetry; apply andb_true_iff; split; apply Z.leb_le;
        [lia | rewrite len_app; pose proof (len_nonneg (repeat Byte.x00 (List.length s + k)));
               lia]).
  unfold len. rewrite Nat2Z.id.
  rewrite skipn_app_ge, firstn_app_le, firstn_all by lia.
  replace (List.length a - List.length a)%nat with 0%nat by lia. simpl skipn.
  unfold copy. rewrite repeat_length, repeat_app.
  rewrite firstn_all2 by lia.
  rewrite skipn_app_ge by (rewrite repeat_length; lia).
  rewrite repeat_length.
  replace (List.length s - List.length s)%nat with 0%nat by lia. simpl skipn.
  now rewrite app_assoc.
Qed.

Lemma assemble_fullMessage {A} (header lenBuf msg : bytes) (m : Z)
  (k : bytes -> Method A) :
  len msg = m ->
  (fullMessage <- lift (make (len header + len lenBuf + m)) ;;
   fullMessage <- lift (copy_at fullMessage 0 header) ;;
   fullMessage <- lift (copy_at fullMessage (len header) lenBuf) ;;
   fullMessage <- lift (copy_at fullMessage (len header + len lenBuf) msg) ;;
   k fullMessage)
  = k (header ++ lenBuf ++ msg).
Proof.
  intros <-. unfold bind, lift, make.
  pose proof (len_nonneg header). pose proof (len_nonneg lenBuf).
  pose proof (len_nonneg msg).
  replace (len header + len lenBuf + len msg <? 0) with false
    by (symmetry; apply Z.ltb_ge; lia).
  replace (Z.to_nat (len header + len lenBuf + len msg))
    with (List.length header + (List.length lenBuf + (List.length msg + 0)))%nat
    by (unfold len; lia).
  pose proof (copy_at_zeros [] header (List.length lenBuf + (List.length msg + 0))) as C1.
  change (len []) with 0 in C1. simpl app in C1. rewrite C1.
  pose proof (copy_at_zeros header lenBuf (List.length msg + 0)) as C2. rewrite C2.
  pose proof (copy_at_zeros (header ++ lenBuf) msg 0) as C3.
  rewrite len_app in C3. rewrite C3.
  simpl repeat. now rewrite app_nil_r, <- app_assoc.
Qed.

(** ** The length-field decoder *)

Lemma ShiftN_then {A} (n : Z) (o : outcome A) (c : stdConn) :
  (ShiftN n ;;; lift o) c = (o, snd (ShiftN n c)).
Proof.
  assert (H : exists v, fst (ShiftN n c) = Ret v).
  { destruct (shift_ok n (BufferLength c)) eqn:E.
    - exists n. now apply ShiftN_advance.
    - exists (BufferLength c). now apply ShiftN_reset. }
  destruct H as [v H]. unfold bind, lift.
  destruct (ShiftN n c) as [r c']. simpl in H. now subst r.
Qed.

Lemma bind_on_inner {A B} (m : SO innerBuffer A) (i : innerBuffer)
  (k : A * innerBuffer -> Method B) (c : stdConn) :
  bind (on_inner m i) k c
  = match m i with
    | (Ret a, i') => k (a, i') c
    | (Fail e, _) => (Fail e, c)
    | (Panic p, _) => (Panic p, c)
    end.
Proof. unfold bind, on_inner. destruct (m i) as [[a|e|p] i']; reflexivity. Qed.

Lemma decodeFields_unfold (cc : LengthFieldBasedFrameCodec) (b : innerBuffer) :
  let dc := decoderConfig cc in
  let fields header in1 :=
    match getUnadjustedFrameLength cc in1 with
    | (Ret (lenBuf, F), in2) => (Ret (header, lenBuf, F), in2)
    | (Fail e, in2) => (Fail e, in2)
    | (Panic p, in2) => (Panic p, in2)
    end in
  decodeFields cc b
  = if DecoderConfig.LengthFieldOffset dc >? 0 then
      match or_fail ErrUnexpectedEOF (readN (DecoderConfig.LengthFieldOffset dc)) b with
      | (Ret header, in1) => fields header in1
      | (Fail e, in1) => (Fail e, in1)
      | (Panic p, in1) => (Panic p, in1)
      end
    else fields [] b.
Proof.
  cbv zeta. unfold decodeFields, bind, ret.
  destruct (DecoderConfig.LengthFieldOffset (decoderConfig cc) >? 0).
  - destruct (or_fail ErrUnexpectedEOF _ b) as [[header|e|p] in1]; try reflexivity.
    destruct (getUnadjustedFrameLength cc in1) as [[[lenBuf F]|e|p] in2]; reflexivity.
  - destruct (getUnadjustedFrameLength cc b) as [[[lenBuf F]|e|p] in2]; reflexivity.
Qed.

(** [Decode] of the length-field codec, by cases on what the cursor finds in
    the logical contents. *)
Lemma LengthField_Decode_eq (cc : LengthFieldBasedFrameCodec) (c : stdConn) :
  let dc := decoderConfig cc in
  let c1 := snd (Read c) in
  Decode cc c
  = match decodeFields cc (logical c) with
    | (Ret (header, lenBuf, F), in2) =>
        let m := msgLengthOf dc F in
        if (0 <? m) && (m <=? len in2) then
          let full := header ++ lenBuf ++ firstn (Z.to_nat m) in2 in
          (slice_from full (DecoderConfig.InitialBytesToStrip dc),
           snd (ShiftN (len full) c1))
        else (Fail ErrUnexpectedEOF, c1)
    | (Fail e, _) => (Fail e, c1)
    | (Panic p, _) => (Panic p, c1)
    end.
Proof.
  intros dc c1. simpl. unfold LengthField_Decode. fold dc.
  rewrite bind_Read. fold c1.
  assert (Hrest : forall header in1,
            (' ((lenBuf, frameLength), in2) <- on_inner (getUnadjustedFrameLength cc) in1 ;;
             let msgLength := msgLengthOf dc frameLength in
             ' (msg, _) <- on_inner (or_fail ErrUnexpectedEOF (readN msgLength)) in2 ;;
             fullMessage <- lift (make (len header + len lenBuf + msgLength)) ;;
             fullMessage <- lift (copy_at fullMessage 0 header) ;;
             fullMessage <- lift (copy_at fullMessage (len header) lenBuf) ;;
             fullMessage <- lift (copy_at fullMessage (len header + len lenBuf) msg) ;;
             ShiftN (len fullMessage) ;;;
             lift (slice_from fullMessage (DecoderConfig.InitialBytesToStrip dc))) c1
            = match getUnadjustedFrameLength cc in1 with
              | (Ret (lenBuf, F), in2) =>
                  let m := msgLengthOf dc F in
                  if (0 <? m) && (m <=? len in2) then
                    let full := header ++ lenBuf ++ firstn (Z.to_nat m) in2 in
                    (slice_from full (DecoderConfig.InitialBytesToStrip dc),
                     snd (ShiftN (len full) c1))
                  else (Fail ErrUnexpectedEOF, c1)
              | (Fail e, _) => (Fail e, c1)
              | (Panic p, _) => (Panic p, c1)
              end).
  { intros header in1. rewrite bind_on_inner.
    destruct (getUnadjustedFrameLength cc in1) as [[[lenBuf F]|e|p] in2];
      try reflexivity.
    cbv zeta. set (m := msgLengthOf dc F). rewrite bind_on_inner.
    destruct ((0 <? m) && (m <=? len in2)) eqn:E.
    - apply andb_true_iff in E. destruct E as [E1 E2].
      apply Z.ltb_lt in E1. apply Z.leb_le in E2.
      rewrite or_fail_readN_ok by lia.
      rewrite assemble_fullMessage by (apply len_firstn; lia).
      apply ShiftN_then.
    - rewrite readN_short; [reflexivity|].
      apply andb_false_iff in E. destruct E as [E|E];
        [apply Z.ltb_ge in E | apply Z.leb_gt in E]; lia. }
  rewrite decodeFields_unfold. cbv zeta. fold dc.
  destruct (DecoderConfig.LengthFieldOffset dc >? 0).
  - rewrite bind_on_inner.
    destruct (or_fail ErrUnexpectedEOF (readN (DecoderConfig.LengthFieldOffset dc))
                (logical c)) as [[header|e|p] in1]; try reflexivity.
    rewrite Hrest.
    destruct (getUnadjustedFrameLength cc in1) as [[[lenBuf F]|e|p] in2]; reflexivity.
  - change (bind (ret ([], logical c)) ?k c1) with (k ([], logical c) c1).
    cbv beta iota. rewrite Hrest.
    destruct (getUnadjustedFrameLength cc (logical c)) as [[[lenBuf F]|e|p] in2];
      reflexivity.
Qed.


Lemma fullLength_Some (cc : LengthFieldBasedFrameCodec) (b : bytes) (n : Z) :
  fullLength cc b = Some n ->
  exists header lenBuf F in2,
    decodeFields cc b = (Ret (header, lenBuf, F), in2)
    /\ 0 < msgLengthOf (decoderConfig cc) F <= len in2
    /\ n = headerLength (decoderConfig cc)
           + DecoderConfig.LengthFieldLength (decoderConfig cc)
           + msgLengthOf (decoderConfig cc) F
    /\ 0 < n <= len b
    /\ header ++ lenBuf ++ firstn (Z.to_nat (msgLengthOf (decoderConfig cc) F)) in2
       = firstn (Z.to_nat n) b.
Proof.
  unfold fullLength.
  destruct (decodeFields cc b) as [[[[header lenBuf] F]|e|p] in2] eqn:D; try discriminate.
  cbv zeta. set (m := msgLengthOf (decoderConfig cc) F).
  destruct ((0 <? m) && (m <=? len in2)) eqn:E; [|discriminate].
  apply andb_true_iff in E. destruct E as [E1 E2].
  apply Z.ltb_lt in E1. apply Z.leb_le in E2. intros [= <-].
  destruct (decodeFields_Ret _ _ _ _ _ _ D) as (Hb & S & Hh & Hl & _).
  exists header, lenBuf, F, in2.
  pose proof (len_nonneg header). pose proof (len_nonneg lenBuf).
  split; [reflexivity|]. split; [lia|]. split; [lia|].
  assert (Hlen : len b = len header + len lenBuf + len in2)
    by (rewrite Hb, !len_app; lia).
  split; [lia|].
  rewrite Hb.
  replace (Z.to_nat (len header + len lenBuf + m))
    with (List.length header + (List.length lenBuf + Z.to_nat m))%nat
    by (unfold len; lia).
  rewrite firstn_app_2. f_equal. now rewrite firstn_app_2.
Qed.

Lemma LengthField_Decode_contents (cc : LengthFieldBasedFrameCodec) (c : stdConn) :
  fst (Decode cc c) = fst (decodeContents cc (logical c))
  /\ logical (snd (Decode cc c)) = snd (decodeContents cc (logical c)).
Proof.
  rewrite LengthField_Decode_eq. cbv zeta. unfold decodeContents.
  destruct (same_buffers_logical _ _ (Read_same_buffers c)) as [Hlog Hlen].
  destruct (fullLength cc (logical c)) as [n|] eqn:FL.
  - destruct (fullLength_Some _ _ _ FL) as (header & lenBuf & F & in2 & D & Hm & Hn & Hb & Hfull).
    rewrite D.
    replace ((0 <? msgLengthOf (decoderConfig cc) F)
             && (msgLengthOf (decoderConfig cc) F <=? len in2)) with true
      by (symmetry; apply andb_true_iff; split; [apply Z.ltb_lt | apply Z.leb_le]; lia).
    rewrite Hfull. simpl. split; [reflexivity|].
    rewrite len_firstn by lia.
    assert (Hok : shift_ok n (BufferLength (snd (Read c))) = true)
      by (apply shift_ok_true; rewrite Hlen, BufferLength_logical; lia).
    destruct (ShiftN_logical _ _ Hok) as (_ & Hl & _). now rewrite Hl, Hlog.
  - unfold fullLength in FL.
    destruct (decodeFields cc (logical c)) as [[[[header lenBuf] F]|e|p] in2];
      simpl; try (split; [reflexivity | exact Hlog]).
    cbv zeta in FL.
    destruct ((0 <? msgLengthOf (decoderConfig cc) F)
              && (msgLengthOf (decoderConfig cc) F <=? len in2)); [discriminate|].
    simpl. split; [reflexivity | exact Hlog].
Qed.

(** ** One call of the length-field decoder *)

(** C6, as stated, fails: under a configuration of the specification's
    domain whose [InitialBytesToStrip] exceeds the frame, the call neither
    returns a frame nor reports a short read; it consumes the frame and
    panics on the final slice. *)
Lemma frame_or_short_read_counterexample :
  valid_DecoderConfig (decoderConfig strip5_codec)
  /\ Decode strip5_codec conn_01_41
     = (Panic SliceBoundsOutOfRange, mkConn [] None RingBuffer.empty)
  /\ ~ frame_or_short_read strip5_codec conn_01_41.
Proof.
  split; [|split].
  - unfold valid_DecoderConfig, supported_width. simpl. lia.
  - reflexivity.
  - unfold frame_or_short_read. cbv zeta.
    change (fst (Decode strip5_codec conn_01_41))
      with (Panic SliceBoundsOutOfRange : outcome bytes).
    intros [(frame & header & lenBuf & F & in2 & H & _) | (H & _)]; discriminate.
Qed.

(** C6, amended.  Under a configuration of the specification's domain
    (supported width, offset and strip not negative) one call of [Decode]
    either reports [ErrUnexpectedEOF] and leaves the logical contents and
    [BufferLength] as they were, or reaches the success path: the head
    advances by exactly [LengthFieldOffset + LengthFieldLength + msgLength]
    bytes and, when [InitialBytesToStrip] does not exceed that length, the
    call returns one complete frame, those bytes less the stripped prefix.
    Nothing persists across calls: outcome and remaining contents are
    functions of the configuration and the logical contents. *)
Theorem LengthField_Decode_one_call (cc : LengthFieldBasedFrameCodec) (c : stdConn) :
  valid_DecoderConfig (decoderConfig cc) ->
  let dc := decoderConfig cc in
  let c' := snd (Decode cc c) in
  (forall c2, logical c2 = logical c ->
     fst (Decode cc c2) = fst (Decode cc c)
     /\ logical (snd (Decode cc c2)) = logical c')
  /\ ((fst (Decode cc c) = Fail ErrUnexpectedEOF
       /\ logical c' = logical c
       /\ BufferLength c' = BufferLength c)
      \/ (exists header lenBuf F in2,
            decodeFields cc (logical c) = (Ret (header, lenBuf, F), in2)
            /\ 0 < msgLengthOf dc F
            /\ let n := DecoderConfig.LengthFieldOffset dc
                        + DecoderConfig.LengthFieldLength dc
                        + msgLengthOf dc F in
               n <= BufferLength c
               /\ logical c' = skipn (Z.to_nat n) (logical c)
               /\ BufferLength c' = BufferLength c - n
               /\ (DecoderConfig.InitialBytesToStrip dc <= n ->
                   fst (Decode cc c)
                   = Ret (skipn (Z.to_nat (DecoderConfig.InitialBytesToStrip dc))
                            (firstn (Z.to_nat n) (logical c)))))).
Proof.
  intros (S & Hoff & Hstrip) dc c'. subst dc c'. split.
  - intros c2 E.
    destruct (LengthField_Decode_contents cc c2) as [A2 B2].
    destruct (LengthField_Decode_contents cc c) as [A1 B1].
    rewrite A2, B2, A1, B1, E. easy.
  - destruct (LengthField_Decode_contents cc c) as [A B].
    unfold decodeContents in A, B.
    destruct (fullLength cc (logical c)) as [n|] eqn:FL.
    + right.
      destruct (fullLength_Some _ _ _ FL)
        as (header & lenBuf & F & in2 & D & Hm & Hn & Hb & Hfull).
      rewrite D in A, B. cbn [fst snd] in A, B.
      exists header, lenBuf, F, in2. split; [exact D|]. split; [lia|]. cbv zeta.
      unfold headerLength in Hn. rewrite Z.max_r in Hn by exact Hoff.
      rewrite <- Hn. rewrite BufferLength_logical.
      split; [lia|]. split; [exact B|]. split.
      * rewrite BufferLength_logical, B. apply len_skipn. lia.
      * intros Hle. rewrite A. unfold slice_from.
        rewrite len_firstn by lia.
        replace ((0 <=? DecoderConfig.InitialBytesToStrip (decoderConfig cc))
                 && (DecoderConfig.InitialBytesToStrip (decoderConfig cc) <=? n)) with true
          by (symmetry; apply andb_true_iff; split; apply Z.leb_le; assumption).
        reflexivity.
    + left.
      destruct (decodeFields cc (logical c)) as [[[[header lenBuf] F]|e|p] in2] eqn:D;
        cbn [fst snd] in A, B.
      * rewrite A, B, !BufferLength_logical, B. easy.
      * destruct (decodeFields_Fail _ _ _ _ D) as [[v Hv]|[Hv|[_ Hv]]];
          [discriminate | | contradiction].
        injection Hv as ->. rewrite A, !BufferLength_logical, B. easy.
      * destruct (decodeFields_Fail _ _ _ _ D) as [[v Hv]|[Hv|[Hv _]]]; discriminate.
Qed.

Lemma valid_short_codec : valid_DecoderConfig (decoderConfig short_codec).
Proof. unfold valid_DecoderConfig, supported_width. simpl. lia. Qed.

Lemma LengthField_Decode_one_call_witness :
  valid_DecoderConfig (decoderConfig short_codec)
  /\ fst (Decode short_codec conn_hi_00) = Ret ([Byte.x00; Byte.x02] ++ text "hi")
  /\ logical (snd (Decode short_codec conn_hi_00)) = [Byte.x00]
  /\ BufferLength (snd (Decode short_codec conn_hi_00)) = BufferLength conn_hi_00 - 4.
Proof.
  split; [exact valid_short_codec|].
  destruct (LengthField_Decode_one_call short_codec conn_hi_00 valid_short_codec)
    as [_ [[Hs _] | (header & lenBuf & F & in2 & D & Hm & Hn & Hlog & Hlen & Hret)]].
  - discriminate Hs.
  - vm_compute in D. injection D as <- <- <- <-.
    split; [apply Hret; vm_compute; discriminate|].
    split; [exact Hlog | exact Hlen].
Defined.

(** ** The final slice of the length-field decoder *)

Lemma readN_Ret (n : Z) (b in' : innerBuffer) (v : bytes) :
  readN n b = (Ret v, in') ->
  0 < n <= len b /\ v = firstn (Z.to_nat n) b /\ in' = skipn (Z.to_nat n) b.
Proof.
  unfold readN.
  destruct (n <=? 0) eqn:A; [discriminate|]. apply Z.leb_gt in A.
  destruct (n >? len b) eqn:G; [discriminate|].
  rewrite Z.gtb_ltb in G. apply Z.ltb_ge in G.
  intros [= <- <-]. repeat split; lia.
Qed.

(** C9.  On the success path of [Decode] (header and length field read, the
    message of [msgLength] bytes read), under an offset and a number of
    bytes to strip that are not negative: the full message has
    [LengthFieldOffset + LengthFieldLength + msgLength] bytes; when
    [InitialBytesToStrip] is at most that, the final slice is in bounds and
    [Decode] returns the full message less its first [InitialBytesToStrip]
    bytes; when [InitialBytesToStrip] exceeds it, [Decode] neither returns
    an error nor clamps: the slice expression panics. *)
Theorem LengthField_Decode_final_slice
  (cc : LengthFieldBasedFrameCodec) (c : stdConn)
  (header lenBuf msg : bytes) (F : Z) (in2 in3 : innerBuffer) :
  let dc := decoderConfig cc in
  let full := DecoderConfig.LengthFieldOffset dc
              + DecoderConfig.LengthFieldLength dc
              + msgLengthOf dc F in
  0 <= DecoderConfig.LengthFieldOffset dc ->
  0 <= DecoderConfig.InitialBytesToStrip dc ->
  decodeFields cc (logical c) = (Ret (header, lenBuf, F), in2) ->
  readN (msgLengthOf dc F) in2 = (Ret msg, in3) ->
  len (header ++ lenBuf ++ msg) = full
  /\ (DecoderConfig.InitialBytesToStrip dc <= full ->
      fst (Decode cc c)
      = Ret (skipn (Z.to_nat (DecoderConfig.InitialBytesToStrip dc))
               (header ++ lenBuf ++ msg)))
  /\ (DecoderConfig.InitialBytesToStrip dc > full ->
      fst (Decode cc c) = Panic SliceBoundsOutOfRange).
Proof.
  intros dc full Hoff Hstrip D R. subst dc full.
  destruct (readN_Ret _ _ _ _ R) as (Hm & -> & _).
  destruct (decodeFields_Ret _ _ _ _ _ _ D) as (_ & _ & Hh & Hl & _).
  cbv zeta in Hh, Hl. unfold headerLength in Hh. rewrite Z.max_r in Hh by exact Hoff.
  assert (Hlen : len (header ++ lenBuf
                      ++ firstn (Z.to_nat (msgLengthOf (decoderConfig cc) F)) in2)
                 = DecoderConfig.LengthFieldOffset (decoderConfig cc)
                   + DecoderConfig.LengthFieldLength (decoderConfig cc)
                   + msgLengthOf (decoderConfig cc) F).
  { rewrite !len_app, len_firstn by lia. lia. }
  split; [exact Hlen|].
  rewrite LengthField_Decode_eq. cbv zeta. rewrite D.
  replace ((0 <? msgLengthOf (decoderConfig cc) F)
           && (msgLengthOf (decoderConfig cc) F <=? len in2)) with true
    by (symmetry; apply andb_true_iff; split; [apply Z.ltb_lt | apply Z.leb_le]; lia).
  cbn [fst]. unfold slice_from. rewrite Hlen.
  split; intros H.
  - replace ((0 <=? DecoderConfig.InitialBytesToStrip (decoderConfig cc))
             && (DecoderConfig.InitialBytesToStrip (decoderConfig cc)
                 <=? DecoderConfig.LengthFieldOffset (decoderConfig cc)
                     + DecoderConfig.LengthFieldLength (decoderConfig cc)
                     + msgLengthOf (decoderConfig cc) F)) with true
      by (symmetry; apply andb_true_iff; split; apply Z.leb_le; lia).
    reflexivity.
  - replace (DecoderConfig.InitialBytesToStrip (decoderConfig cc)
             <=? DecoderConfig.LengthFieldOffset (decoderConfig cc)
                 + DecoderConfig.LengthFieldLength (decoderConfig cc)
                 + msgLengthOf (decoderConfig cc) F) with false
      by (symmetry; apply Z.leb_gt; lia).
    now rewrite andb_false_r.
Qed.

Lemma LengthField_Decode_final_slice_witness :
  (0 <= DecoderConfig.LengthFieldOffset (decoderConfig strip2_codec)
   /\ 0 <= DecoderConfig.InitialBytesToStrip (decoderConfig strip2_codec)
   /\ DecoderConfig.InitialBytesToStrip (decoderConfig strip2_codec) <= 0 + 2 + 2
   /\ fst (Decode strip2_codec conn_hi_00) = Ret (text "hi"))
  /\ (0 <= DecoderConfig.InitialBytesToStrip (decoderConfig strip5_codec)
      /\ DecoderConfig.InitialBytesToStrip (decoderConfig strip5_codec) > 0 + 1 + 1
      /\ fst (Decode strip5_codec conn_01_41) = Panic SliceBoundsOutOfRange).
Proof.
  split.
  - assert (H0 : 0 <= DecoderConfig.LengthFieldOffset (decoderConfig strip2_codec))
      by discriminate.
    assert (H1 : 0 <= DecoderConfig.InitialBytesToStrip (decoderConfig strip2_codec))
      by discriminate.
    assert (H2 : DecoderConfig.InitialBytesToStrip (decoderConfig strip2_codec) <= 0 + 2 + 2)
      by discriminate.
    destruct (LengthField_Decode_final_slice strip2_codec conn_hi_00
                [] [Byte.x00; Byte.x02] (text "hi") 2 (text "hi" ++ [Byte.x00]) [Byte.x00]
                H0 H1 eq_refl eq_refl) as (_ & Hin & _).
    exact (conj H0 (conj H1 (conj H2 (Hin H2)))).
  - assert (H0 : 0 <= DecoderConfig.LengthFieldOffset (decoderConfig strip5_codec))
      by discriminate.
    assert (H1 : 0 <= DecoderConfig.InitialBytesToStrip (decoderConfig strip5_codec))
      by discriminate.
    assert (H2 : DecoderConfig.InitialBytesToStrip (decoderConfig strip5_codec) > 0 + 1 + 1)
      by reflexivity.
    destruct (LengthField_Decode_final_slice strip5_codec conn_01_41
                [] [Byte.x01] [Byte.x41] 1 [Byte.x41] []
                H0 H1 eq_refl eq_refl) as (_ & _ & Hout).
    exact (conj H1 (conj H2 (Hout H2))).
Defined.

(** ** Messages of no length *)

(** The message length the decoder computes is the sum [F + adjustment]
    whenever that sum is not positive: the wrap-around of [int] cannot turn
    such a sum into a positive length. *)
Lemma msgLengthOf_nonpositive (dc : DecoderConfig.t) (F : Z) :
  0 <= F < 2 ^ 64 ->
  GoInt.in_range (DecoderConfig.LengthAdjustment dc) ->
  F + DecoderConfig.LengthAdjustment dc <= 0 ->
  msgLengthOf dc F = F + DecoderConfig.LengthAdjustment dc.
Proof.
  unfold msgLengthOf, GoInt.add, GoInt.of_uint64, GoInt.in_range,
    GoInt.min_int, GoInt.max_int.
  intros HF HA Hs.
  destruct (Z.lt_ge_cases F (2 ^ 63)) as [L|L].
  - rewrite (wrap_small F) by (unfold GoInt.in_range, GoInt.min_int, GoInt.max_int; lia).
    apply wrap_small. unfold GoInt.in_range, GoInt.min_int, GoInt.max_int. lia.
  - assert (F = 2 ^ 63 /\ DecoderConfig.LengthAdjustment dc = - 2 ^ 63) as [-> ->] by lia.
    reflexivity.
Qed.

Lemma fieldValue_range (order : binary.ByteOrder) (field : bytes) :
  len field <= 8 -> 0 <= fieldValue order field < 2 ^ 64.
Proof.
  intros H. unfold fieldValue.
  set (l := match order with
            | binary.LittleEndian => field
            | binary.BigEndian => rev field
            end).
  pose proof (le_combine_bound l) as B.
  match type of B with
  | _ <= _ < 2 ^ (8 * Z.of_nat ?n) =>
      assert (Hl : (n <= 8)%nat)
        by (subst l; unfold len in H; destruct order; [|rewrite length_rev]; lia);
      assert (2 ^ (8 * Z.of_nat n) <= 2 ^ 64) by (apply Z.pow_le_mono_r; lia)
  end.
  change (0 <= le_combine l < 2 ^ 64). lia.
Qed.

(** When the message the length field announces cannot be read from the
    cursor, the call ends in [ErrUnexpectedEOF] right after the peek. *)
Lemma LengthField_Decode_message_unread
  (cc : LengthFieldBasedFrameCodec) (c : stdConn)
  (header lenBuf : bytes) (F : Z) (in2 : innerBuffer) :
  decodeFields cc (logical c) = (Ret (header, lenBuf, F), in2) ->
  msgLengthOf (decoderConfig cc) F <= 0
  \/ len in2 < msgLengthOf (decoderConfig cc) F ->
  Decode cc c = (Fail ErrUnexpectedEOF, snd (Read c)).
Proof.
  intros D Hm. rewrite LengthField_Decode_eq. cbv zeta. rewrite D.
  replace ((0 <? msgLengthOf (decoderConfig cc) F)
           && (msgLengthOf (decoderConfig cc) F <=? len in2)) with false;
    [reflexivity|].
  symmetry. apply andb_false_iff.
  destruct Hm as [Hm|Hm]; [left; apply Z.ltb_ge | right; apply Z.leb_gt]; lia.
Qed.

(** C10.  Whatever the configuration and the bytes buffered: once the
    length field [F] has been read, a computed message length
    [msgLength = F + LengthAdjustment] that is zero or negative makes
    [Decode] return [ErrUnexpectedEOF], with the contents untouched, however
    many bytes follow; so the frame is never decoded. *)
Theorem LengthField_Decode_no_message
  (cc : LengthFieldBasedFrameCodec) (c : stdConn)
  (header lenBuf : bytes) (F : Z) (in2 : innerBuffer) :
  decodeFields cc (logical c) = (Ret (header, lenBuf, F), in2) ->
  msgLengthOf (decoderConfig cc) F <= 0 ->
  fst (Decode cc c) = Fail ErrUnexpectedEOF
  /\ logical (snd (Decode cc c)) = logical c
  /\ BufferLength (snd (Decode cc c)) = BufferLength c.
Proof.
  intros D Hm.
  destruct (same_buffers_logical _ _ (Read_same_buffers c)) as [Hlog Hlen].
  rewrite (LengthField_Decode_message_unread cc c header lenBuf F in2 D)
    by (left; exact Hm).
  cbn [fst snd]. split; [reflexivity|]. split; [exact Hlog | exact Hlen].
Qed.

(** The encoding of the empty frame by the codec of scenario 3 is never
    decoded, whatever follows it. *)
Lemma empty_frame_never_decoded (rest : bytes) :
  Encode short_codec [] = Ret [Byte.x00; Byte.x00]
  /\ fst (Decode short_codec (conn_empty_frame rest)) = Fail ErrUnexpectedEOF
  /\ logical (snd (Decode short_codec (conn_empty_frame rest)))
     = [Byte.x00; Byte.x00] ++ rest.
Proof.
  split; [reflexivity|].
  assert (D : decodeFields short_codec (logical (conn_empty_frame rest))
              = (Ret ([], [Byte.x00; Byte.x00], 0), rest)).
  { rewrite decodeFields_eq. cbv zeta.
    change (logical (conn_empty_frame rest)) with (Byte.x00 :: Byte.x00 :: rest).
    change (headerLength (decoderConfig short_codec)) with 0.
    change (DecoderConfig.LengthFieldLength (decoderConfig short_codec)) with 2.
    assert (L : len (Byte.x00 :: Byte.x00 :: rest) = len rest + 2)
      by (unfold len; simpl List.length; lia).
    pose proof (len_nonneg rest) as Hr.
    change (skipn (Z.to_nat 0) (Byte.x00 :: Byte.x00 :: rest))
      with (Byte.x00 :: Byte.x00 :: rest).
    replace (len (Byte.x00 :: Byte.x00 :: rest) <? 0) with false
      by (symmetry; apply Z.ltb_ge; lia).
    replace (len (Byte.x00 :: Byte.x00 :: rest) <? 2) with false
      by (symmetry; apply Z.ltb_ge; lia).
    destruct (supported_width_dec 2) as [_|N]; [reflexivity|].
    exfalso. apply N. unfold supported_width. lia. }
  rewrite (LengthField_Decode_message_unread short_codec (conn_empty_frame rest)
             [] [Byte.x00; Byte.x00] 0 rest D) by (left; discriminate).
  cbn [fst snd]. split; [reflexivity|].
  apply (same_buffers_logical _ _ (Read_same_buffers (conn_empty_frame rest))).
Qed.

Lemma LengthField_Decode_no_message_witness :
  decodeFields short_codec (logical (conn_empty_frame (text "hello")))
  = (Ret ([], [Byte.x00; Byte.x00], 0), text "hello")
  /\ msgLengthOf (decoderConfig short_codec) 0 <= 0
  /\ fst (Decode short_codec (conn_empty_frame (text "hello"))) = Fail ErrUnexpectedEOF
  /\ BufferLength (snd (Decode short_codec (conn_empty_frame (text "hello")))) = 7.
Proof.
  assert (D : decodeFields short_codec (logical (conn_empty_frame (text "hello")))
              = (Ret ([], [Byte.x00; Byte.x00], 0), text "hello")) by reflexivity.
  assert (M : msgLengthOf (decoderConfig short_codec) 0 <= 0) by discriminate.
  destruct (LengthField_Decode_no_message short_codec (conn_empty_frame (text "hello"))
              [] [Byte.x00; Byte.x00] 0 (text "hello") D M) as (H1 & _ & H3).
  exact (conj D (conj M (conj H1 H3))).
Defined.

(** ** Round trips *)

Lemma logical_feed (p : bytes) :
  logical (feed p newTCPConn) = p /\ BufferLength (feed p newTCPConn) = len p.
Proof. split; reflexivity. Qed.

(** C3, as stated, fails: a frame that contains the terminator is cut at
    its first occurrence by the line codec. *)
Lemma round_trip_counterexample :
  let f := text "a" ++ [CRLFByte] ++ text "b" in
  Encode mkLineBasedFrameCodec f = Ret (f ++ [CRLFByte])
  /\ fst (Decode mkLineBasedFrameCodec (feed (f ++ [CRLFByte]) newTCPConn)) = Ret (text "a")
  /\ ~ round_trips mkLineBasedFrameCodec f f.
Proof.
  cbv zeta. split; [reflexivity|]. split; [reflexivity|].
  intros (wire & He & Hd & _).
  injection He as <-. vm_compute in Hd. discriminate.
Qed.

Lemma BuiltIn_round_trip (cc : BuiltInFrameCodec) (f : bytes) : round_trips cc f f.
Proof.
  exists f. split; [reflexivity|].
  simpl. unfold BuiltIn_Decode. rewrite bind_Read.
  destruct (logical_feed f) as [-> _].
  unfold bind, ret. 
  destruct (ResetBuffer_spec (snd (Read (feed f newTCPConn)))) as (Hr & Hb & Hh & _).
  destruct (ResetBuffer (snd (Read (feed f newTCPConn)))) as [o c'].
  simpl in Hr, Hb, Hh. subst o. simpl.
  unfold BufferLength, RingBuffer.Length. now rewrite Hb, Hh.
Qed.

Lemma first_at_end (t : byte) (f : bytes) :
  ~ In t f -> first_at t (f ++ [t]) (List.length f).
Proof.
  intros H. split.
  - rewrite nth_error_app2 by lia. now rewrite Nat.sub_diag.
  - intros j Hj E. rewrite nth_error_app1 in E by exact Hj.
    apply H. eapply nth_error_In. exact E.
Qed.

Lemma terminated_round_trip (t : byte) (e : error) (f : bytes) :
  ~ In t f ->
  fst (terminated_Decode t e (feed (f ++ [t]) newTCPConn)) = Ret f
  /\ BufferLength (snd (terminated_Decode t e (feed (f ++ [t]) newTCPConn))) = 0.
Proof.
  intros H. pose proof (first_at_end t f H) as F.
  destruct (logical_feed (f ++ [t])) as [L B].
  rewrite <- L in F.
  destruct (terminated_Decode_found t e _ _ F) as (Hret & _ & Hlen).
  rewrite Hret, Hlen, L, B. split.
  - now rewrite firstn_app_le, firstn_all by lia.
  - rewrite len_app. unfold len. simpl. lia.
Qed.

Lemma FixedLength_round_trip (cc : FixedLengthFrameCodec) (f : bytes) :
  0 < frameLength cc -> len f = frameLength cc -> round_trips cc f f.
Proof.
  intros Hpos Hlen. exists f. split.
  - simpl. unfold FixedLength_Encode, GoInt.rem.
    replace (frameLength cc =? 0) with false by (symmetry; apply Z.eqb_neq; lia).
    rewrite Hlen, Z.rem_same by lia. reflexivity.
  - destruct (logical_feed f) as [L B].
    destruct (FixedLength_Decode_full cc (feed f newTCPConn)) as (Hret & _ & Hb);
      [rewrite B; lia|].
    rewrite Hret, Hb, L, B, <- Hlen, firstn_len. split; [reflexivity | lia].
Qed.

Lemma encodedLength_fits (ec : EncoderConfig.t) (f : bytes) :
  fits ec f ->
  encodedLength ec f = len f + EncoderConfig.LengthAdjustment ec + included ec.
Proof.
  intros (_ & R1 & R2 & R3). unfold encodedLength, included, GoInt.add in *.
  rewrite (wrap_small _ R1).
  destruct (EncoderConfig.LengthIncludesLengthFieldLength ec); [|lia].
  apply wrap_small. unfold GoInt.in_range, GoInt.min_int in *. lia.
Qed.

Lemma lengthField_fits (ec : EncoderConfig.t) (length : Z) :
  supported_width (EncoderConfig.LengthFieldLength ec) ->
  0 <= length < 2 ^ (8 * EncoderConfig.LengthFieldLength ec) ->
  lengthField ec length
  = Ret (binary.PutUint (EncoderConfig.ByteOrder ec)
           (Z.to_nat (EncoderConfig.LengthFieldLength ec)) length).
Proof.
  intros S H.
  assert (Hlt : forall k, length < k -> (length >=? k) = false)
    by (intros k Hk; rewrite Z.geb_leb; apply Z.leb_gt; lia).
  unfold lengthField.
  destruct S as [E|[E|[E|[E|E]]]]; rewrite E in *; simpl in H.
  - rewrite (Hlt 256) by lia. destruct (EncoderConfig.ByteOrder ec); reflexivity.
  - rewrite (Hlt 65536) by lia. now rewrite (PutUint_to_uint _ 2).
  - rewrite (Hlt 16777216) by lia. now rewrite writeUint24_PutUint.
  - now rewrite (PutUint_to_uint _ 4).
  - now rewrite (PutUint_to_uint _ 8).
Qed.

Lemma LengthField_round_trip (cc : LengthFieldBasedFrameCodec) (f : bytes) :
  let ec := encoderConfig cc in
  let dc := decoderConfig cc in
  let w := EncoderConfig.LengthFieldLength ec in
  let strip := DecoderConfig.InitialBytesToStrip dc in
  mirrors dc ec -> fits ec f -> 0 < len f -> 0 <= strip <= w + len f ->
  exists field,
    len field = w
    /\ Encode cc f = Ret (field ++ f)
    /\ round_trips cc f (skipn (Z.to_nat strip) (field ++ f)).
Proof.
  intros ec dc w strip (Mo & Mw & S & Moff & Madj) Hfit Hf Hs.
  pose proof (encodedLength_fits ec f Hfit) as HL.
  destruct Hfit as (R0 & R1 & R2 & R3). fold w in R3, S.
  set (L := len f + EncoderConfig.LengthAdjustment ec + included ec) in *.
  set (field := binary.PutUint (EncoderConfig.ByteOrder ec) (Z.to_nat w) L).
  assert (Hw : 0 < w) by (unfold supported_width in S; lia).
  assert (Hfield : len field = w).
  { unfold len. subst field. rewrite length_PutUint. lia. }
  assert (Henc : Encode cc f = Ret (field ++ f)).
  { simpl. unfold LengthField_Encode. fold ec. rewrite HL.
    replace (L <? 0) with false by (symmetry; apply Z.ltb_ge; lia).
    rewrite lengthField_fits by assumption. reflexivity. }
  exists field. split; [exact Hfield|]. split; [exact Henc|].
  exists (field ++ f). split; [exact Henc|].
  destruct (LengthField_Decode_contents cc (feed (field ++ f) newTCPConn)) as [A B].
  destruct (logical_feed (field ++ f)) as [Lg _]. rewrite Lg in A, B.
  assert (D : decodeFields cc (field ++ f) = (Ret ([], field, L), f)).
  { rewrite decodeFields_eq. cbv zeta. fold dc. unfold headerLength.
    rewrite Moff, Mw, Mo. fold w. change (Z.max 0 0) with 0.
    change (skipn (Z.to_nat 0) (field ++ f)) with (field ++ f).
    change (firstn (Z.to_nat 0) (field ++ f)) with (@nil byte).
    pose proof (len_nonneg (field ++ f)) as Hn.
    replace (len (field ++ f) <? 0) with false by (symmetry; apply Z.ltb_ge; lia).
    replace (len (field ++ f) <? w) with false
      by (symmetry; apply Z.ltb_ge; rewrite len_app; lia).
    destruct (supported_width_dec w) as [_|N]; [|contradiction].
    assert (Hn' : Z.to_nat w = List.length field) by (unfold len in Hfield; lia).
    rewrite Hn', firstn_app_le, firstn_all, skipn_app_le, skipn_all by lia.
    simpl app. subst field. rewrite fieldValue_PutUint.
    rewrite Z.mod_small; [reflexivity|].
    replace (Z.of_nat (Z.to_nat w) * 8) with (8 * w) by lia. exact R3. }
  assert (Hm : msgLengthOf dc L = len f).
  { unfold msgLengthOf, GoInt.add, GoInt.of_uint64. rewrite Madj.
    rewrite (wrap_small L)
      by (unfold GoInt.in_range, GoInt.min_int in *; lia).
    replace (L + - (EncoderConfig.LengthAdjustment ec + included ec)) with (len f)
      by (subst L; lia).
    apply wrap_small.
    unfold GoInt.in_range, GoInt.min_int, GoInt.max_int in *. subst L. 
    assert (0 <= included ec)
      by (unfold included; destruct (EncoderConfig.LengthIncludesLengthFieldLength ec);
          fold w; lia).
    lia. }
  assert (FL : fullLength cc (field ++ f) = Some (len (field ++ f))).
  { unfold fullLength. rewrite D. cbv zeta. fold dc. rewrite Hm.
    replace ((0 <? len f) && (len f <=? len f)) with true
      by (symmetry; apply andb_true_iff; split; [apply Z.ltb_lt | apply Z.leb_le]; lia).
    rewrite len_app. change (len []) with 0. f_equal. }
  unfold decodeContents in A, B. rewrite D, FL in A, B. cbn [fst snd] in A, B.
  rewrite firstn_len in A. rewrite skipn_len in B.
  split.
  - rewrite A. unfold slice_from. fold dc. fold strip.
    replace ((0 <=? strip) && (strip <=? len (field ++ f))) with true
      by (symmetry; apply andb_true_iff; split; apply Z.leb_le; rewrite ?len_app; lia).
    reflexivity.
  - rewrite BufferLength_logical, B. reflexivity.
Qed.

(** C3, amended.  A frame [f] encoded by a codec, fed to a fresh connection
    and decoded by the same codec comes back
    - from the built-in codec: always;
    - from the line and delimiter codecs: when [f] does not contain the
      terminator;
    - from the fixed-length codec: when [frameLength > 0] and
      [len f = frameLength];
    - from the length-field codec: when [f] is not empty, the decoder
      mirrors the encoder, the length fits the field and [int], and
      [0 <= InitialBytesToStrip <= LengthFieldLength + len f]; what comes
      back is the wire, length field then [f], less its first
      [InitialBytesToStrip] bytes, which is [f] when the field is what is
      stripped. *)
Theorem codec_round_trip (f : bytes) :
  (forall cc : BuiltInFrameCodec, round_trips cc f f)
  /\ (forall cc : LineBasedFrameCodec, ~ In CRLFByte f -> round_trips cc f f)
  /\ (forall cc : DelimiterBasedFrameCodec,
        ~ In (delimiter cc) f -> round_trips cc f f)
  /\ (forall cc : FixedLengthFrameCodec,
        0 < frameLength cc -> len f = frameLength cc -> round_trips cc f f)
  /\ (forall cc : LengthFieldBasedFrameCodec,
        let ec := encoderConfig cc in
        let dc := decoderConfig cc in
        let w := EncoderConfig.LengthFieldLength ec in
        let strip := DecoderConfig.InitialBytesToStrip dc in
        mirrors dc ec -> fits ec f -> 0 < len f -> 0 <= strip <= w + len f ->
        exists field,
          len field = w
          /\ Encode cc f = Ret (field ++ f)
          /\ round_trips cc f (skipn (Z.to_nat strip) (field ++ f))
          /\ (strip = w -> round_trips cc f f)).
Proof.
  split; [intros cc; apply BuiltIn_round_trip|].
  split; [intros cc H; exists (f ++ [CRLFByte]); split; [reflexivity|];
          rewrite LineBased_Decode_terminated; now apply terminated_round_trip|].
  split; [intros cc H; exists (f ++ [delimiter cc]); split; [reflexivity|];
          rewrite DelimiterBased_Decode_terminated; now apply terminated_round_trip|].
  split; [intros cc; apply FixedLength_round_trip|].
  intros cc ec dc w strip M Hfit Hf Hs.
  destruct (LengthField_round_trip cc f M Hfit Hf Hs) as (field & Hl & He & Hr).
  exists field. split; [exact Hl|]. split; [exact He|]. split; [exact Hr|].
  intros E. subst strip w dc ec. cbv zeta in Hr. rewrite E, <- Hl in Hr.
  unfold len in Hr. rewrite Nat2Z.id, skipn_app_le, skipn_all in Hr by lia.
  exact Hr.
Qed.

Lemma codec_round_trip_witness :
  round_trips mkBuiltInFrameCodec (text "hi") (text "hi")
  /\ (~ In CRLFByte (text "hi")
      /\ round_trips mkLineBasedFrameCodec (text "hi") (text "hi"))
  /\ (~ In Byte.x00 (text "hi")
      /\ round_trips (NewDelimiterBasedFrameCodec Byte.x00) (text "hi") (text "hi"))
  /\ (0 < 2 /\ len (text "hi") = 2
      /\ round_trips (NewFixedLengthFrameCodec 2) (text "hi") (text "hi"))
  /\ (mirrors (decoderConfig strip2_codec) (encoderConfig strip2_codec)
      /\ fits (encoderConfig strip2_codec) (text "hi")
      /\ 0 < len (text "hi")
      /\ 0 <= 2 <= 2 + len (text "hi")
      /\ round_trips strip2_codec (text "hi") (text "hi")).
Proof.
  destruct (codec_round_trip (text "hi")) as (Hb & Hl & Hd & Hf & Hlf).
  assert (N1 : ~ In CRLFByte (text "hi")) by (simpl; intuition discriminate).
  assert (N0 : ~ In Byte.x00 (text "hi")) by (simpl; intuition discriminate).
  assert (P2 : 0 < 2) by reflexivity.
  assert (L2 : len (text "hi") = 2) by reflexivity.
  assert (M : mirrors (decoderConfig strip2_codec) (encoderConfig strip2_codec)).
  { unfold mirrors, supported_width, included. simpl. repeat split; lia. }
  assert (F : fits (encoderConfig strip2_codec) (text "hi")).
  { unfold fits, included, GoInt.in_range, GoInt.min_int, GoInt.max_int.
    rewrite L2. simpl. lia. }
  assert (Pf : 0 < len (text "hi")) by reflexivity.
  assert (S : 0 <= 2 <= 2 + len (text "hi")) by (rewrite L2; lia).
  split; [exact (Hb mkBuiltInFrameCodec)|].
  split; [exact (conj N1 (Hl mkLineBasedFrameCodec N1))|].
  split; [exact (conj N0 (Hd (NewDelimiterBasedFrameCodec Byte.x00) N0))|].
  split; [exact (conj P2 (conj L2 (Hf (NewFixedLengthFrameCodec 2) P2 L2)))|].
  destruct (Hlf strip2_codec M F Pf S) as (field & _ & _ & _ & Hrt).
  exact (conj M (conj F (conj Pf (conj S (Hrt eq_refl))))).
Defined.

(** * Further properties of the buffer operations *)

Lemma ShiftN_outcome (n : Z) (c : stdConn) :
  fst (ShiftN n c) = Ret (if shift_ok n (BufferLength c) then n else BufferLength c)
  /\ logical (snd (ShiftN n c))
     = (if shift_ok n (BufferLength c) then skipn (Z.to_nat n) (logical c) else []).
Proof.
  destruct (shift_ok n (BufferLength c)) eqn:E.
  - destruct (ShiftN_logical n c E) as (H1 & H2 & _). now split.
  - destruct (ShiftN_reset n c E) as (H1 & H2 & H3). split; [exact H1|].
    unfold logical. now rewrite H2, H3.
Qed.

(** X1.  Peek, then consume what was peeked: for every [n], [ShiftN size]
    after [(size, buf) = ReadN n] removes exactly the bytes [buf] that
    [ReadN] returned, so [buf] followed by what is left is what was
    buffered, and [BufferLength] drops by [size = len buf]. *)
Theorem ReadN_then_ShiftN (c : stdConn) (n : Z) :
  exists size buf,
    fst (ReadN n c) = Ret (size, buf)
    /\ len buf = size
    /\ let c' := snd (ShiftN size (snd (ReadN n c))) in
       buf ++ logical c' = logical c
       /\ BufferLength c' = BufferLength c - size.
Proof.
  destruct (ReadN_spec n c) as [Hret Hsame]. cbv zeta in Hret.
  destruct (same_buffers_logical _ _ Hsame) as [Hlog Hlen].
  set (m := peek_size n (BufferLength c)) in *.
  pose proof (peek_size_bounds n (BufferLength c)) as Hm. fold m in Hm.
  rewrite BufferLength_logical in Hm. specialize (Hm (len_nonneg _)).
  exists m, (firstn (Z.to_nat m) (logical c)).
  split; [exact Hret|]. split; [apply len_firstn; exact Hm|]. cbv zeta.
  destruct (ShiftN_outcome m (snd (ReadN n c))) as [_ Hl].
  rewrite Hlen, Hlog in Hl.
  assert (Hafter : logical (snd (ShiftN m (snd (ReadN n c))))
                   = skipn (Z.to_nat m) (logical c)).
  { rewrite Hl. destruct (shift_ok m (BufferLength c)) eqn:E; [reflexivity|].
    apply shift_ok_false in E. rewrite BufferLength_logical in E.
    assert (Hz : len (logical c) = 0).
    { assert (m = 0) by lia. subst m. unfold peek_size in H.
      rewrite BufferLength_logical in H.
      destruct (len (logical c) <? n) eqn:A, (n <=? 0) eqn:B0; simpl in H; lia. }
    now rewrite (len_zero_nil _ Hz), skipn_nil. }
  split.
  - rewrite Hafter. apply firstn_skipn.
  - rewrite !BufferLength_logical, Hafter. apply len_skipn. exact Hm.
Qed.

(** X2.  Consuming in two steps is consuming at once: for positive [a] and
    [b] with [a + b] within the bytes buffered, [ShiftN a] followed by
    [ShiftN b] leaves the same logical contents and the same
    [BufferLength] as [ShiftN (a + b)], also when the two steps fall on
    either side of the boundary between ring and scratch. *)
Theorem ShiftN_additive (c : stdConn) (a b : Z) :
  0 < a -> 0 < b -> a + b <= BufferLength c ->
  let c2 := snd (ShiftN b (snd (ShiftN a c))) in
  fst (ShiftN b (snd (ShiftN a c))) = Ret b
  /\ logical c2 = logical (snd (ShiftN (a + b) c))
  /\ BufferLength c2 = BufferLength (snd (ShiftN (a + b) c))
  /\ BufferLength c2 = BufferLength c - (a + b).
Proof.
  intros Ha Hb Hab c2. subst c2.
  assert (Ea : shift_ok a (BufferLength c) = true) by (apply shift_ok_true; lia).
  assert (Eab : shift_ok (a + b) (BufferLength c) = true) by (apply shift_ok_true; lia).
  destruct (ShiftN_logical a c Ea) as (_ & La & Ba).
  destruct (ShiftN_logical (a + b) c Eab) as (_ & Lab & Bab).
  assert (Eb : shift_ok b (BufferLength (snd (ShiftN a c))) = true)
    by (apply shift_ok_true; rewrite Ba; lia).
  destruct (ShiftN_logical b _ Eb) as (Rb & Lb & Bb).
  split; [exact Rb|].
  assert (HL : logical (snd (ShiftN b (snd (ShiftN a c))))
               = logical (snd (ShiftN (a + b) c))).
  { rewrite Lb, La, Lab, skipn_skipn. f_equal. lia. }
  split; [exact HL|]. split.
  - now rewrite !BufferLength_logical, HL.
  - rewrite Bb, Ba. lia.
Qed.

Lemma ShiftN_additive_witness :
  0 < 1 /\ 0 < 2 /\ 1 + 2 <= BufferLength conn_ab_cde
  /\ logical (snd (ShiftN 2 (snd (ShiftN 1 conn_ab_cde)))) = text "de"
  /\ logical (snd (ShiftN 3 conn_ab_cde)) = text "de".
Proof.
  assert (H1 : 0 < 1) by reflexivity.
  assert (H2 : 0 < 2) by reflexivity.
  assert (H3 : 1 + 2 <= BufferLength conn_ab_cde) by discriminate.
  destruct (ShiftN_additive conn_ab_cde 1 2 H1 H2 H3) as (_ & HL & _).
  split; [exact H1|]. split; [exact H2|]. split; [exact H3|].
  split; [rewrite HL|]; reflexivity.
Defined.

(** ** The cached join buffer *)

Lemma Read_join (c : stdConn) :
  join_released c -> join_released (snd (Read c)).
Proof.
  unfold join_released, Read. destruct c as [b j rb]. run_so.
  destruct (RingBuffer.IsEmpty rb) eqn:E.
  - destruct (len b =? 0); simpl; auto.
  - simpl. congruence.
Qed.

Lemma ReadN_join (n : Z) (c : stdConn) :
  join_released c -> join_released (snd (ReadN n c)).
Proof.
  intros H E.
  destruct (ReadN_spec n c) as [_ [_ Hring]]. rewrite Hring in E.
  specialize (H E). revert H.
  unfold ReadN. destruct c as [b j rb]. run_so. simpl in E. rewrite E.
  destruct (slice_to b _); simpl; auto.
Qed.

Lemma ShiftN_join (n : Z) (c : stdConn) :
  join_released c -> byteBuffer (snd (ShiftN n c)) = None.
Proof.
  unfold join_released, ShiftN. destruct c as [b j rb]. run_so. intros H.
  destruct ((RingBuffer.Length rb + len b <? n) || (n <=? 0)); [reflexivity|].
  destruct (RingBuffer.IsEmpty rb) eqn:E.
  - destruct (slice_from b n); simpl; auto.
  - destruct (RingBuffer.Length rb >=? n); [reflexivity|].
    destruct (slice_from b _); reflexivity.
Qed.

(** X3.  While no join buffer is cached on an empty ring, none of the
    buffer methods caches one there: [Read], [ReadN], [ResetBuffer] and
    [ShiftN] keep [join_released]; and [ShiftN], whatever its argument,
    leaves [c.byteBuffer] nil, although on an empty ring it returns without
    touching it. *)
Theorem buffer_methods_release_join (c : stdConn) (n : Z) :
  join_released c ->
  join_released (snd (Read c))
  /\ join_released (snd (ReadN n c))
  /\ join_released (snd (ResetBuffer c))
  /\ join_released (snd (ShiftN n c))
  /\ byteBuffer (snd (ShiftN n c)) = None
  /\ byteBuffer (snd (ResetBuffer c)) = None.
Proof.
  intros H.
  pose proof (ShiftN_join n c H) as HS.
  destruct (ResetBuffer_spec c) as (_ & _ & _ & HR).
  split; [apply Read_join; exact H|].
  split; [apply ReadN_join; exact H|].
  split; [intros _; exact HR|].
  split; [intros _; exact HS|].
  split; [exact HS | exact HR].
Qed.

Lemma buffer_methods_release_join_witness :
  join_released conn_ab_cde_peeked
  /\ byteBuffer conn_ab_cde_peeked = Some (text "abcde")
  /\ byteBuffer (snd (ShiftN 1 conn_ab_cde_peeked)) = None
  /\ join_released (snd (ReadN 3 conn_ab_cde_peeked)).
Proof.
  assert (H : join_released conn_ab_cde_peeked) by (intros E; discriminate E).
  destruct (buffer_methods_release_join conn_ab_cde_peeked 1 H) as (_ & _ & _ & _ & HS & _).
  destruct (buffer_methods_release_join conn_ab_cde_peeked 3 H) as (_ & HN & _).
  split; [exact H|]. split; [reflexivity|]. split; [exact HS | exact HN].
Defined.

(** * Further properties of the decoders *)

(** ** Decoders as functions of the logical contents *)

Lemma BuiltIn_Decode_outcome (cc : BuiltInFrameCodec) (c : stdConn) :
  fst (Decode cc c) = Ret (logical c)
  /\ buffer (snd (Decode cc c)) = []
  /\ RingBuffer.held (inboundBuffer (snd (Decode cc c))) = []
  /\ byteBuffer (snd (Decode cc c)) = None.
Proof.
  simpl. unfold BuiltIn_Decode. rewrite bind_Read. unfold bind, ret.
  destruct (ResetBuffer_spec (snd (Read c))) as (Hr & Hb & Hh & Hj).
  destruct (ResetBuffer (snd (Read c))) as [o c'].
  simpl in Hr, Hb, Hh, Hj. subst o. simpl. easy.
Qed.

Lemma terminated_Decode_contents (t : byte) (e : error) (c : stdConn) :
  fst (terminated_Decode t e c) = fst (terminatedContents t e (logical c))
  /\ logical (snd (terminated_Decode t e c))
     = snd (terminatedContents t e (logical c)).
Proof.
  unfold terminated_Decode, terminatedContents. rewrite bind_Read.
  destruct (same_buffers_logical _ _ (Read_same_buffers c)) as [Hlog Hlen].
  cbv zeta. pose proof (IndexByte_range (logical c) t) as R.
  destruct (IndexByte (logical c) t =? -1) eqn:E; [simpl; easy|].
  apply Z.eqb_neq in E.
  assert (Hok : shift_ok (IndexByte (logical c) t + 1) (BufferLength (snd (Read c))) = true)
    by (apply shift_ok_true; rewrite Hlen, BufferLength_logical; lia).
  destruct (ShiftN_logical _ _ Hok) as (_ & Hl & _).
  rewrite ShiftN_then. cbn [fst snd]. rewrite Hl, Hlog. split; [|reflexivity].
  unfold slice_to.
  replace ((0 <=? IndexByte (logical c) t)
           && (IndexByte (logical c) t <=? len (logical c))) with true
    by (symmetry; apply andb_true_iff; split; apply Z.leb_le; lia).
  reflexivity.
Qed.

Lemma FixedLength_Decode_contents (cc : FixedLengthFrameCodec) (c : stdConn) :
  fst (Decode cc c) = fst (fixedContents (frameLength cc) (logical c))
  /\ logical (snd (Decode cc c)) = snd (fixedContents (frameLength cc) (logical c)).
Proof.
  unfold fixedContents. rewrite <- BufferLength_logical.
  destruct (FixedLength_Decode_cases cc c) as [Hzero Hpos]. cbv zeta in Hpos.
  pose proof (peek_size_bounds (frameLength cc) (BufferLength c)) as Hm.
  rewrite BufferLength_logical in Hm at 1. specialize (Hm (len_nonneg _)).
  set (m := peek_size (frameLength cc) (BufferLength c)) in *.
  assert (Hcases : BufferLength c = 0 \/ 0 < BufferLength c)
    by (rewrite BufferLength_logical; pose proof (len_nonneg (logical c)); lia).
  destruct Hcases as [Z0|P].
  - destruct (Hzero Z0) as [Hret Hsame].
    destruct (same_buffers_logical _ _ Hsame) as [Hlog _].
    replace (m =? 0) with true by (symmetry; apply Z.eqb_eq; lia).
    simpl. easy.
  - destruct (Hpos P) as (Hret & Hl & _).
    assert (0 < m).
    { subst m. unfold peek_size.
      destruct (BufferLength c <? frameLength cc) eqn:A, (frameLength cc <=? 0) eqn:B0;
        simpl; lia. }
    replace (m =? 0) with false by (symmetry; apply Z.eqb_neq; lia).
    simpl. easy.
Qed.

(** X4.  Each of the five decoders reads the logical contents only: two
    connections that buffer the same bytes, however these are split between
    ring and scratch and whatever join buffer is cached, get the same
    outcome from [Decode] and are left with the same logical contents.  For
    the length-field codec this holds under every configuration. *)
Theorem decoders_read_contents_only :
  (forall cc : BuiltInFrameCodec, reads_contents_only cc)
  /\ (forall cc : LineBasedFrameCodec, reads_contents_only cc)
  /\ (forall cc : DelimiterBasedFrameCodec, reads_contents_only cc)
  /\ (forall cc : FixedLengthFrameCodec, reads_contents_only cc)
  /\ (forall cc : LengthFieldBasedFrameCodec, reads_contents_only cc).
Proof.
  unfold reads_contents_only. repeat split.
  - destruct (BuiltIn_Decode_outcome cc c1) as (-> & _).
    destruct (BuiltIn_Decode_outcome cc c2) as (-> & _). now f_equal.
  - destruct (BuiltIn_Decode_outcome cc c1) as (_ & B1 & R1 & _).
    destruct (BuiltIn_Decode_outcome cc c2) as (_ & B2 & R2 & _).
    unfold logical. now rewrite B1, R1, B2, R2.
  - rewrite LineBased_Decode_terminated.
    rewrite (proj1 (terminated_Decode_contents _ _ c1)),
            (proj1 (terminated_Decode_contents _ _ c2)). now rewrite H.
  - rewrite LineBased_Decode_terminated.
    rewrite (proj2 (terminated_Decode_contents _ _ c1)),
            (proj2 (terminated_Decode_contents _ _ c2)). now rewrite H.
  - rewrite DelimiterBased_Decode_terminated.
    rewrite (proj1 (terminated_Decode_contents _ _ c1)),
            (proj1 (terminated_Decode_contents _ _ c2)). now rewrite H.
  - rewrite DelimiterBased_Decode_terminated.
    rewrite (proj2 (terminated_Decode_contents _ _ c1)),
            (proj2 (terminated_Decode_contents _ _ c2)). now rewrite H.
  - rewrite (proj1 (FixedLength_Decode_contents cc c1)),
            (proj1 (FixedLength_Decode_contents cc c2)). now rewrite H.
  - rewrite (proj2 (FixedLength_Decode_contents cc c1)),
            (proj2 (FixedLength_Decode_contents cc c2)). now rewrite H.
  - rewrite (proj1 (LengthField_Decode_contents cc c1)),
            (proj1 (LengthField_Decode_contents cc c2)). now rewrite H.
  - rewrite (proj2 (LengthField_Decode_contents cc c1)),
            (proj2 (LengthField_Decode_contents cc c2)). now rewrite H.
Qed.

Lemma decoders_read_contents_only_witness :
  logical conn_hello_wor = logical conn_hello_wor_flat
  /\ inboundBuffer conn_hello_wor <> inboundBuffer conn_hello_wor_flat
  /\ fst (Decode mkLineBasedFrameCodec conn_hello_wor)
     = fst (Decode mkLineBasedFrameCodec conn_hello_wor_flat)
  /\ logical (snd (Decode mkLineBasedFrameCodec conn_hello_wor))
     = logical (snd (Decode mkLineBasedFrameCodec conn_hello_wor_flat)).
Proof.
  assert (H : logical conn_hello_wor = logical conn_hello_wor_flat) by reflexivity.
  destruct decoders_read_contents_only as (_ & Hline & _).
  destruct (Hline mkLineBasedFrameCodec _ _ H) as [H1 H2].
  split; [exact H|]. split; [discriminate|]. split; [exact H1 | exact H2].
Defined.

(** X5.  The built-in, line, delimiter and fixed-length decoders never
    panic, on any connection and for any delimiter or frame length (zero
    and negative ones included): every slice they take is within bounds. *)
Theorem decoders_never_panic (c : stdConn) (p : panic) :
  (forall cc : BuiltInFrameCodec, fst (Decode cc c) <> Panic p)
  /\ (forall cc : LineBasedFrameCodec, fst (Decode cc c) <> Panic p)
  /\ (forall cc : DelimiterBasedFrameCodec, fst (Decode cc c) <> Panic p)
  /\ (forall cc : FixedLengthFrameCodec, fst (Decode cc c) <> Panic p).
Proof.
  assert (HT : forall t e, fst (terminated_Decode t e c) <> Panic p).
  { intros t e. rewrite (proj1 (terminated_Decode_contents t e c)).
    unfold terminatedContents. cbv zeta.
    destruct (IndexByte (logical c) t =? -1); discriminate. }
  repeat split; intros cc.
  - rewrite (proj1 (BuiltIn_Decode_outcome cc c)). discriminate.
  - rewrite LineBased_Decode_terminated. apply HT.
  - rewrite DelimiterBased_Decode_terminated. apply HT.
  - rewrite (proj1 (FixedLength_Decode_contents cc c)).
    unfold fixedContents. cbv zeta.
    destruct (peek_size (frameLength cc) (len (logical c)) =? 0); discriminate.
Qed.

Lemma decoders_never_panic_witness :
  fst (Decode (NewFixedLengthFrameCodec (-7)) conn_ab_cde) <> Panic SliceBoundsOutOfRange
  /\ fst (Decode (NewDelimiterBasedFrameCodec Byte.x00) conn_ab_cde)
     <> Panic SliceBoundsOutOfRange.
Proof.
  destruct (decoders_never_panic conn_ab_cde SliceBoundsOutOfRange)
    as (_ & _ & Hd & Hf).
  split; [apply Hf | apply Hd].
Defined.

(** ** Decoders and the cached join buffer *)

Lemma FixedLength_Decode_state (cc : FixedLengthFrameCodec) (c : stdConn) :
  (snd (Decode cc c) = snd (ReadN (frameLength cc) c)
   /\ fst (Decode cc c) = Fail ErrUnexpectedEOF)
  \/ exists n, snd (Decode cc c) = snd (ShiftN n (snd (ReadN (frameLength cc) c))).
Proof.
  simpl. unfold FixedLength_Decode. rewrite bind_ReadN.
  destruct (peek_size (frameLength cc) (BufferLength c) =? 0); [left; easy|].
  right. exists (peek_size (frameLength cc) (BufferLength c)).
  change (ret ?x) with (lift (St := stdConn) (Ret x)).
  now rewrite ShiftN_then.
Qed.

Lemma LengthField_Decode_state (cc : LengthFieldBasedFrameCodec) (c : stdConn) :
  (snd (Decode cc c) = snd (Read c)
   /\ exists e, fst (Decode cc c) = Fail e)
  \/ exists n, snd (Decode cc c) = snd (ShiftN n (snd (Read c))).
Proof.
  rewrite LengthField_Decode_eq. cbv zeta.
  destruct (decodeFields cc (logical c)) as [[[[header lenBuf] F]|e|p] in2] eqn:D.
  - destruct ((0 <? _) && (_ <=? _)); [right; eexists; reflexivity|].
    left. split; [reflexivity | eexists; reflexivity].
  - left. split; [reflexivity | eexists; reflexivity].
  - destruct (decodeFields_Fail _ _ _ _ D) as [[v Hv]|[Hv|[Hv _]]]; discriminate.
Qed.

(** X6.  Each of the five decoders keeps [join_released], and whenever one
    returns a frame it has released the join buffer: [c.byteBuffer] is nil
    after every successful [Decode]. *)
Theorem decoders_release_join :
  (forall cc : BuiltInFrameCodec, releases_join cc)
  /\ (forall cc : LineBasedFrameCodec, releases_join cc)
  /\ (forall cc : DelimiterBasedFrameCodec, releases_join cc)
  /\ (forall cc : FixedLengthFrameCodec, releases_join cc)
  /\ (forall cc : LengthFieldBasedFrameCodec, releases_join cc).
Proof.
  assert (HT : forall t e c, join_released c ->
            join_released (snd (terminated_Decode t e c))
            /\ (forall frame, fst (terminated_Decode t e c) = Ret frame ->
                byteBuffer (snd (terminated_Decode t e c)) = None)).
  { intros t e c H. pose proof (Read_join c H) as HR.
    pose proof (proj1 (terminated_Decode_contents t e c)) as Hc.
    unfold terminatedContents in Hc. cbv zeta in Hc. revert Hc.
    unfold terminated_Decode. rewrite bind_Read. cbv zeta.
    destruct (IndexByte (logical c) t =? -1).
    - intros Hc. split; [exact HR|]. intros frame Hf.
      cbn [fst] in Hc. rewrite Hc in Hf. discriminate.
    - rewrite ShiftN_then. cbn [fst snd]. intros _.
      pose proof (ShiftN_join (IndexByte (logical c) t + 1) _ HR) as HS.
      split; [intros _; exact HS | intros frame _; exact HS]. }
  unfold releases_join. repeat split.
  - intros _. apply BuiltIn_Decode_outcome.
  - intros frame _. apply BuiltIn_Decode_outcome.
  - rewrite LineBased_Decode_terminated. now apply HT.
  - rewrite LineBased_Decode_terminated. now apply HT.
  - rewrite DelimiterBased_Decode_terminated. now apply HT.
  - rewrite DelimiterBased_Decode_terminated. now apply HT.
  - destruct (FixedLength_Decode_state cc c) as [[-> _]|[n ->]].
    + now apply ReadN_join.
    + intros _. apply ShiftN_join. now apply ReadN_join.
  - intros frame Hf.
    destruct (FixedLength_Decode_state cc c) as [[_ Hfail]|[n ->]].
    + rewrite Hfail in Hf. discriminate.
    + apply ShiftN_join. now apply ReadN_join.
  - destruct (LengthField_Decode_state cc c) as [[-> _]|[n ->]].
    + now apply Read_join.
    + intros _. apply ShiftN_join. now apply Read_join.
  - intros frame Hf.
    destruct (LengthField_Decode_state cc c) as [[_ [e Hfail]]|[n ->]].
    + rewrite Hfail in Hf. discriminate.
    + apply ShiftN_join. now apply Read_join.
Qed.

Lemma decoders_release_join_witness :
  join_released conn_ab_cde_peeked
  /\ byteBuffer conn_ab_cde_peeked = Some (text "abcde")
  /\ fst (Decode (NewFixedLengthFrameCodec 3) conn_ab_cde_peeked) = Ret (text "abc")
  /\ byteBuffer (snd (Decode (NewFixedLengthFrameCodec 3) conn_ab_cde_peeked)) = None.
Proof.
  assert (H : join_released conn_ab_cde_peeked) by (intros E; discriminate E).
  assert (R : fst (Decode (NewFixedLengthFrameCodec 3) conn_ab_cde_peeked)
              = Ret (text "abc")) by reflexivity.
  destruct decoders_release_join as (_ & _ & _ & Hfixed & _).
  destruct (Hfixed (NewFixedLengthFrameCodec 3) conn_ab_cde_peeked H) as [_ Hnone].
  split; [exact H|]. split; [reflexivity|]. split; [exact R|].
  exact (Hnone _ R).
Defined.

(** * Further properties of the length-field cursor *)

Lemma firstn_plus (n m : nat) (l : bytes) :
  firstn (n + m) l = firstn n l ++ firstn m (skipn n l).
Proof.
  revert l. induction n as [|n IH]; intros l; [reflexivity|].
  destruct l as [|x l]; simpl; [now rewrite firstn_nil | now rewrite IH].
Qed.

(** X7.  [readN] never panics and either fails, leaving the cursor where it
    was, or splits it: the bytes returned followed by the cursor left are
    the cursor before.  Two reads in a row return consecutive segments. *)
Theorem readN_splits (a b : Z) (in_ : innerBuffer) :
  (a <= 0 \/ len in_ < a -> exists e, readN a in_ = (Fail e, in_))
  /\ (0 < a <= len in_ ->
      exists x in1,
        readN a in_ = (Ret x, in1) /\ x ++ in1 = in_ /\ len x = a
        /\ (0 < b -> a + b <= len in_ ->
            exists y in2,
              readN b in1 = (Ret y, in2)
              /\ x ++ y ++ in2 = in_ /\ len y = b
              /\ readN (a + b) in_ = (Ret (x ++ y), in2))).
Proof.
  split.
  - intros H. unfold readN.
    destruct (a <=? 0) eqn:A; [eexists; reflexivity|]. apply Z.leb_gt in A.
    replace (a >? len in_) with true
      by (symmetry; rewrite Z.gtb_ltb; apply Z.ltb_lt; lia).
    eexists; reflexivity.
  - intros Ha.
    exists (firstn (Z.to_nat a) in_), (skipn (Z.to_nat a) in_).
    split; [apply readN_ok; exact Ha|].
    split; [apply firstn_skipn|]. split; [apply len_firstn; lia|].
    intros Hb Hab.
    assert (Hrest : len (skipn (Z.to_nat a) in_) = len in_ - a) by (apply len_skipn; lia).
    exists (firstn (Z.to_nat b) (skipn (Z.to_nat a) in_)),
           (skipn (Z.to_nat b) (skipn (Z.to_nat a) in_)).
    split; [apply readN_ok; lia|].
    split; [now rewrite !firstn_skipn|].
    split; [apply len_firstn; lia|].
    rewrite readN_ok by lia.
    replace (Z.to_nat (a + b)) with (Z.to_nat a + Z.to_nat b)%nat by lia.
    rewrite firstn_plus, skipn_skipn.
    now replace (Z.to_nat b + Z.to_nat a)%nat with (Z.to_nat a + Z.to_nat b)%nat by lia.
Qed.

Lemma readN_splits_witness :
  0 < 2 <= len (text "hello")
  /\ readN 2 (text "hello") = (Ret (text "he"), text "llo")
  /\ readN 3 (text "llo") = (Ret (text "llo"), [])
  /\ (6 <= 0 \/ len (text "hello") < 6)
  /\ exists e, readN 6 (text "hello") = (Fail e, text "hello").
Proof.
  assert (H2 : 0 < 2 <= len (text "hello")) by (split; [reflexivity | discriminate]).
  assert (H6 : 6 <= 0 \/ len (text "hello") < 6) by (right; reflexivity).
  destruct (readN_splits 2 3 (text "hello")) as [_ Hok].
  destruct (readN_splits 6 1 (text "hello")) as [Hfail _].
  destruct (Hok H2) as (x & in1 & Hr & _).
  split; [exact H2|]. split; [reflexivity|]. split; [reflexivity|].
  split; [exact H6 | exact (Hfail H6)].
Defined.

Lemma PutUint_fieldValue (order : binary.ByteOrder) (field : bytes) :
  binary.PutUint order (List.length field) (fieldValue order field) = field.
Proof.
  unfold binary.PutUint, fieldValue. destruct order.
  - apply split_le_combine.
  - rewrite <- (length_rev field), split_le_combine. apply rev_involutive.
Qed.

(** X8.  The 24-bit helpers are inverse to each other under either byte
    order: [writeUint24] always yields three bytes, [readUint24] of them is
    [v] modulo [2^24], so [v] itself for [0 <= v < 2^24]; and every three
    bytes are what [writeUint24] writes for the value [readUint24] reads
    from them, a value below [2^24]. *)
Theorem Uint24_round_trip (order : binary.ByteOrder) (v : Z) (b0 b1 b2 : byte) :
  len (writeUint24 order v) = 3
  /\ readUint24 order (writeUint24 order v) = Ret (v mod 2 ^ 24)
  /\ (0 <= v < 2 ^ 24 -> readUint24 order (writeUint24 order v) = Ret v)
  /\ exists u,
       readUint24 order [b0; b1; b2] = Ret u
       /\ 0 <= u < 2 ^ 24
       /\ writeUint24 order u = [b0; b1; b2].
Proof.
  assert (Hr : readUint24 order (writeUint24 order v) = Ret (v mod 2 ^ 24)).
  { assert (E : exists x y z, writeUint24 order v = [x; y; z])
      by (unfold writeUint24; destruct (binary.is_LittleEndian order);
          do 3 eexists; reflexivity).
    destruct E as (x & y & z & E). rewrite E, readUint24_fieldValue, <- E.
    rewrite writeUint24_PutUint, fieldValue_PutUint. reflexivity. }
  split; [unfold writeUint24; destruct (binary.is_LittleEndian order); reflexivity|].
  split; [exact Hr|].
  split; [intros H; rewrite Hr, Z.mod_small by exact H; reflexivity|].
  exists (fieldValue order [b0; b1; b2]).
  split; [apply readUint24_fieldValue|]. split.
  - pose proof (fieldValue_PutUint order 3 (fieldValue order [b0; b1; b2])) as H.
    pose proof (PutUint_fieldValue order [b0; b1; b2]) as P.
    cbn [List.length] in P. rewrite P in H.
    rewrite H. apply Z.mod_pos_bound. reflexivity.
  - rewrite writeUint24_PutUint. apply (PutUint_fieldValue order [b0; b1; b2]).
Qed.

Lemma Uint24_round_trip_witness :
  0 <= 66051 < 2 ^ 24
  /\ writeUint24 binary.BigEndian 66051 = [Byte.x01; Byte.x02; Byte.x03]
  /\ writeUint24 binary.LittleEndian 66051 = [Byte.x03; Byte.x02; Byte.x01]
  /\ readUint24 binary.BigEndian (writeUint24 binary.BigEndian 66051) = Ret 66051.
Proof.
  assert (H : 0 <= 66051 < 2 ^ 24) by (split; [discriminate | reflexivity]).
  destruct (Uint24_round_trip binary.BigEndian 66051 Byte.x00 Byte.x00 Byte.x00)
    as (_ & _ & Hv & _).
  split; [exact H|]. split; [reflexivity|]. split; [reflexivity|]. exact (Hv H).
Defined.



(** * Further properties of the encoders *)



(** X11.  The fixed-length [Encode] accepts exactly the frames whose length
    [frameLength] divides, returning them unchanged: the empty frame and
    batches of several frames among them, and a negative [frameLength] as
    its absolute value.  Any other length is [ErrInvalidFixedLength], and a
    [frameLength] of zero panics on the remainder, for every frame. *)
Theorem FixedLength_Encode_outcomes (cc : FixedLengthFrameCodec) (buf : bytes) :
  (frameLength cc = 0 -> Encode cc buf = Panic IntegerDivideByZero)
  /\ (frameLength cc <> 0 -> (frameLength cc | len buf) -> Encode cc buf = Ret buf)
  /\ (frameLength cc <> 0 -> ~ (frameLength cc | len buf) ->
      Encode cc buf = Fail ErrInvalidFixedLength).
Proof.
  simpl. unfold FixedLength_Encode, GoInt.rem.
  split; [intros ->; reflexivity|].
  split; intros N D;
    (replace (frameLength cc =? 0) with false by (symmetry; apply Z.eqb_neq; exact N)).
  - apply (Z.rem_divide _ _ N) in D. now rewrite D.
  - destruct (Z.rem (len buf) (frameLength cc) =? 0) eqn:E; [|reflexivity].
    apply Z.eqb_eq, (Z.rem_divide _ _ N) in E. contradiction.
Qed.

Lemma FixedLength_Encode_outcomes_witness :
  (4 <> 0 /\ (4 | len (text "ABCDEFGH"))
   /\ Encode (NewFixedLengthFrameCodec 4) (text "ABCDEFGH") = Ret (text "ABCDEFGH"))
  /\ (-4 <> 0 /\ (-4 | len (text "ABCD"))
      /\ Encode (NewFixedLengthFrameCodec (-4)) (text "ABCD") = Ret (text "ABCD"))
  /\ (4 <> 0 /\ ~ (4 | len (text "IJ"))
      /\ Encode (NewFixedLengthFrameCodec 4) (text "IJ") = Fail ErrInvalidFixedLength)
  /\ (0 = 0 /\ Encode (NewFixedLengthFrameCodec 0) [] = Panic IntegerDivideByZero).
Proof.
  assert (N4 : 4 <> 0) by discriminate.
  assert (Nm : -4 <> 0) by discriminate.
  assert (D8 : (4 | len (text "ABCDEFGH"))) by (exists 2; reflexivity).
  assert (D4 : (-4 | len (text "ABCD"))) by (exists (-1); reflexivity).
  assert (D2 : ~ (4 | len (text "IJ"))).
  { intros [k Hk]. change (len (text "IJ")) with 2 in Hk. lia. }
  destruct (FixedLength_Encode_outcomes (NewFixedLengthFrameCodec 4) (text "ABCDEFGH"))
    as (_ & H1 & _).
  destruct (FixedLength_Encode_outcomes (NewFixedLengthFrameCodec (-4)) (text "ABCD"))
    as (_ & H2 & _).
  destruct (FixedLength_Encode_outcomes (NewFixedLengthFrameCodec 4) (text "IJ"))
    as (_ & _ & H3).
  destruct (FixedLength_Encode_outcomes (NewFixedLengthFrameCodec 0) []) as (H4 & _).
  split; [exact (conj N4 (conj D8 (H1 N4 D8)))|].
  split; [exact (conj Nm (conj D4 (H2 Nm D4)))|].
  split; [exact (conj N4 (conj D2 (H3 N4 D2)))|].
  exact (conj eq_refl (H4 eq_refl)).
Defined.

Lemma app_same_length (a b x y : bytes) :
  List.length a = List.length b -> a ++ x = b ++ y -> x = y.
Proof.
  revert b. induction a as [|h a IH]; intros [|k b]; simpl; intros Hl He;
    try discriminate; [exact He|].
  injection Hl as Hl. injection He as _ He. exact (IH b Hl He).
Qed.

(** X12.  No encoder maps two frames to the same wire bytes: for each of
    the five codecs, frames with the same successful encoding are equal. *)
Theorem encoders_injective (f1 f2 wire : bytes) :
  (forall cc : BuiltInFrameCodec,
     Encode cc f1 = Ret wire -> Encode cc f2 = Ret wire -> f1 = f2)
  /\ (forall cc : LineBasedFrameCodec,
     Encode cc f1 = Ret wire -> Encode cc f2 = Ret wire -> f1 = f2)
  /\ (forall cc : DelimiterBasedFrameCodec,
     Encode cc f1 = Ret wire -> Encode cc f2 = Ret wire -> f1 = f2)
  /\ (forall cc : FixedLengthFrameCodec,
     Encode cc f1 = Ret wire -> Encode cc f2 = Ret wire -> f1 = f2)
  /\ (forall cc : LengthFieldBasedFrameCodec,
     Encode cc f1 = Ret wire -> Encode cc f2 = Ret wire -> f1 = f2).
Proof.
  split; [intros cc [= <-] [= <-]; reflexivity|].
  split; [intros cc [= <-] [= H]; now apply app_inv_tail in H|].
  split; [intros cc [= <-] [= H]; now apply app_inv_tail in H|].
  split.
  - intros cc. simpl. unfold FixedLength_Encode.
    destruct (frameLength cc =? 0); [discriminate|].
    destruct (negb (GoInt.rem (len f1) (frameLength cc) =? 0)); [discriminate|].
    destruct (negb (GoInt.rem (len f2) (frameLength cc) =? 0)); [discriminate|].
    intros [= <-] [= <-]. reflexivity.
  - intros cc H1 H2.
    destruct (LengthField_Encode_Ret cc f1 wire H1) as (_ & field1 & L1 & E1).
    destruct (LengthField_Encode_Ret cc f2 wire H2) as (_ & field2 & L2 & E2).
    destruct (lengthField_Ret _ _ _ L1) as (_ & P1 & _).
    destruct (lengthField_Ret _ _ _ L2) as (_ & P2 & _).
    assert (Hlen : List.length field1 = List.length field2)
      by (rewrite P1, P2, !length_PutUint; reflexivity).
    rewrite E1 in E2. exact (app_same_length _ _ _ _ Hlen E2).
Qed.

Lemma encoders_injective_witness :
  Encode short_codec (text "hi") = Ret ([Byte.x00; Byte.x02] ++ text "hi")
  /\ forall f, Encode short_codec f = Ret ([Byte.x00; Byte.x02] ++ text "hi") ->
               f = text "hi".
Proof.
  assert (H : Encode short_codec (text "hi") = Ret ([Byte.x00; Byte.x02] ++ text "hi"))
    by reflexivity.
  split; [exact H|]. intros f Hf.
  destruct (encoders_injective f (text "hi") ([Byte.x00; Byte.x02] ++ text "hi"))
    as (_ & _ & _ & _ & Hlf).
  exact (Hlf short_codec Hf H).
Defined.

(** * Further properties of the length-field decoder *)

Lemma decodeFields_parses (cc : LengthFieldBasedFrameCodec)
  (header field tail : bytes) :
  let dc := decoderConfig cc in
  supported_width (DecoderConfig.LengthFieldLength dc) ->
  len header = headerLength dc ->
  len field = DecoderConfig.LengthFieldLength dc ->
  decodeFields cc (header ++ field ++ tail)
  = (Ret (header, field, fieldValue (DecoderConfig.ByteOrder dc) field), tail).
Proof.
  intros dc S Hh Hf. rewrite decodeFields_eq. cbv zeta. subst dc.
  pose proof (len_nonneg header) as P1. pose proof (len_nonneg field) as P2.
  pose proof (len_nonneg tail) as P3.
  assert (N1 : Z.to_nat (headerLength (decoderConfig cc)) = List.length header)
    by (unfold len in Hh; lia).
  assert (N2 : Z.to_nat (DecoderConfig.LengthFieldLength (decoderConfig cc))
               = List.length field) by (unfold len in Hf; lia).
  replace (len (header ++ field ++ tail) <? headerLength (decoderConfig cc)) with false
    by (symmetry; apply Z.ltb_ge; rewrite !len_app; lia).
  destruct (supported_width_dec _) as [_|N]; [|contradiction].
  rewrite N1, N2.
  rewrite (skipn_app_ge _ header) by apply Nat.le_refl.
  rewrite Nat.sub_diag. simpl skipn.
  rewrite (firstn_app_le _ header) by apply Nat.le_refl. rewrite firstn_all.
  replace (len (field ++ tail) <? DecoderConfig.LengthFieldLength (decoderConfig cc))
    with false by (symmetry; apply Z.ltb_ge; rewrite len_app; lia).
  rewrite (firstn_app_le _ field) by apply Nat.le_refl. rewrite firstn_all.
  rewrite (skipn_app_ge _ field) by apply Nat.le_refl.
  now rewrite Nat.sub_diag.
Qed.

Lemma decodeContents_parses
  (cc : LengthFieldBasedFrameCodec) (header field msg rest : bytes) :
  let dc := decoderConfig cc in
  supported_width (DecoderConfig.LengthFieldLength dc) ->
  0 <= DecoderConfig.LengthFieldOffset dc ->
  len header = DecoderConfig.LengthFieldOffset dc ->
  len field = DecoderConfig.LengthFieldLength dc ->
  msgLengthOf dc (fieldValue (DecoderConfig.ByteOrder dc) field) = len msg ->
  0 < len msg ->
  decodeContents cc (header ++ field ++ msg ++ rest)
  = (slice_from (header ++ field ++ msg) (DecoderConfig.InitialBytesToStrip dc), rest).
Proof.
  intros dc S Hoff Hh Hf Hm Hpos.
  assert (Hh' : len header = headerLength dc)
    by (unfold headerLength; rewrite Z.max_r by exact Hoff; exact Hh).
  pose proof (decodeFields_parses cc header field (msg ++ rest) S Hh' Hf) as D.
  cbv zeta in D. fold dc in D.
  pose proof (len_nonneg header). pose proof (len_nonneg field).
  pose proof (len_nonneg rest).
  assert (FL : fullLength cc (header ++ field ++ msg ++ rest)
               = Some (len (header ++ field ++ msg))).
  { unfold fullLength. rewrite D. cbv zeta. fold dc. rewrite Hm.
    replace ((0 <? len msg) && (len msg <=? len (msg ++ rest))) with true
      by (symmetry; apply andb_true_iff; split; [apply Z.ltb_lt | apply Z.leb_le];
          rewrite ?len_app; lia).
    now rewrite !len_app, Z.add_assoc. }
  unfold decodeContents. rewrite D, FL. fold dc.
  replace (header ++ field ++ msg ++ rest) with ((header ++ field ++ msg) ++ rest)
    by (now rewrite <- !app_assoc).
  unfold len. rewrite Nat2Z.id.
  rewrite firstn_app_le, firstn_all, skipn_app_ge, Nat.sub_diag by lia.
  reflexivity.
Qed.

(** X13.  The wire format the length-field decoder accepts.  With a
    supported width and an offset that is not negative, when the buffered
    bytes start with a header of [LengthFieldOffset] bytes, a length field
    whose value plus [LengthAdjustment] is the length of the message, and
    that message, not empty, then [Decode] returns header, field and message
    less their first [InitialBytesToStrip] bytes, for every
    [0 <= InitialBytesToStrip] up to their total length, and leaves exactly
    the bytes behind them buffered. *)
Theorem LengthField_Decode_parses
  (cc : LengthFieldBasedFrameCodec) (c : stdConn) (header field msg rest : bytes) :
  let dc := decoderConfig cc in
  let strip := DecoderConfig.InitialBytesToStrip dc in
  supported_width (DecoderConfig.LengthFieldLength dc) ->
  0 <= DecoderConfig.LengthFieldOffset dc ->
  len header = DecoderConfig.LengthFieldOffset dc ->
  len field = DecoderConfig.LengthFieldLength dc ->
  msgLengthOf dc (fieldValue (DecoderConfig.ByteOrder dc) field) = len msg ->
  0 < len msg ->
  0 <= strip <= len header + len field + len msg ->
  logical c = header ++ field ++ msg ++ rest ->
  fst (Decode cc c) = Ret (skipn (Z.to_nat strip) (header ++ field ++ msg))
  /\ logical (snd (Decode cc c)) = rest
  /\ BufferLength (snd (Decode cc c)) = len rest.
Proof.
  intros dc strip S Hoff Hh Hf Hm Hpos Hs Hb.
  destruct (LengthField_Decode_contents cc c) as [A B]. rewrite Hb in A, B.
  rewrite (decodeContents_parses cc header field msg rest S Hoff Hh Hf Hm Hpos) in A, B.
  cbn [fst snd] in A, B.
  split; [|split; [exact B | now rewrite BufferLength_logical, B]].
  rewrite A. unfold slice_from. fold dc. fold strip.
  replace ((0 <=? strip) && (strip <=? len (header ++ field ++ msg))) with true
    by (symmetry; apply andb_true_iff; split; apply Z.leb_le; rewrite ?len_app; lia).
  reflexivity.
Qed.

Lemma LengthField_Decode_parses_witness :
  supported_width (DecoderConfig.LengthFieldLength (decoderConfig header_codec))
  /\ logical conn_GN_abc_xy = text "GN" ++ [Byte.x03] ++ text "abc" ++ text "xy"
  /\ msgLengthOf (decoderConfig header_codec)
       (fieldValue (DecoderConfig.ByteOrder (decoderConfig header_codec)) [Byte.x03])
     = len (text "abc")
  /\ fst (Decode header_codec conn_GN_abc_xy) = Ret (text "abc")
  /\ logical (snd (Decode header_codec conn_GN_abc_xy)) = text "xy".
Proof.
  assert (S : supported_width (DecoderConfig.LengthFieldLength (decoderConfig header_codec)))
    by (unfold supported_width; simpl; lia).
  assert (B : logical conn_GN_abc_xy = text "GN" ++ [Byte.x03] ++ text "abc" ++ text "xy")
    by reflexivity.
  assert (M : msgLengthOf (decoderConfig header_codec)
                (fieldValue (DecoderConfig.ByteOrder (decoderConfig header_codec))
                   [Byte.x03]) = len (text "abc")) by reflexivity.
  destruct (LengthField_Decode_parses header_codec conn_GN_abc_xy
              (text "GN") [Byte.x03] (text "abc") (text "xy"))
    as (Hret & Hlog & _); try reflexivity; try exact S; try exact B.
  - discriminate.
  - split; discriminate.
  - split; [exact S|]. split; [exact B|]. split; [exact M|].
    split; [exact Hret | exact Hlog].
Defined.

(** X14.  A frame that has not arrived in full is left alone.  Under the
    hypotheses of the wire format (supported width, offset not negative, a
    header of [LengthFieldOffset] bytes, a length field announcing the
    message), when the bytes buffered are a proper prefix of header, field
    and message, [Decode] returns [ErrUnexpectedEOF] and the logical
    contents and [BufferLength] are as before, wherever the prefix ends. *)
Theorem LengthField_Decode_incomplete
  (cc : LengthFieldBasedFrameCodec) (c : stdConn)
  (header field msg arrived missing : bytes) :
  let dc := decoderConfig cc in
  supported_width (DecoderConfig.LengthFieldLength dc) ->
  0 <= DecoderConfig.LengthFieldOffset dc ->
  len header = DecoderConfig.LengthFieldOffset dc ->
  len field = DecoderConfig.LengthFieldLength dc ->
  msgLengthOf dc (fieldValue (DecoderConfig.ByteOrder dc) field) = len msg ->
  arrived ++ missing = header ++ field ++ msg ->
  missing <> [] ->
  logical c = arrived ->
  fst (Decode cc c) = Fail ErrUnexpectedEOF
  /\ logical (snd (Decode cc c)) = arrived
  /\ BufferLength (snd (Decode cc c)) = BufferLength c.
Proof.
  intros dc S Hoff Hh Hf Hm Hsplit Hmiss Hb. subst dc.
  destruct (LengthField_Decode_contents cc c) as [A B].
  assert (Hgoal : decodeContents cc (logical c) = (Fail ErrUnexpectedEOF, logical c)).
  { rewrite Hb.
    assert (Hlm : 0 < len missing)
      by (destruct missing; [contradiction | unfold len; simpl; lia]).
    assert (Hlen : len arrived + len missing = len header + len field + len msg)
      by (pose proof (f_equal len Hsplit) as E; rewrite !len_app in E; lia).
    pose proof (len_nonneg arrived) as P0. pose proof (len_nonneg header) as P1.
    pose proof (len_nonneg field) as P2. pose proof (len_nonneg msg) as P3.
    assert (Hh' : len header = headerLength (decoderConfig cc))
      by (unfold headerLength; rewrite Z.max_r by exact Hoff; exact Hh).
    assert (Hw : 0 < DecoderConfig.LengthFieldLength (decoderConfig cc))
      by (unfold supported_width in S; lia).
    unfold decodeContents.
    destruct (Z.lt_ge_cases (len arrived) (len header + len field)) as [Short|Long].
    - (* the cursor ends inside the header or the length field *)
      rewrite decodeFields_eq. cbv zeta. rewrite <- Hh', <- Hf.
      destruct (len arrived <? len header) eqn:E1; [reflexivity|].
      apply Z.ltb_ge in E1.
      destruct (supported_width_dec _) as [_|N]; [|rewrite <- Hf in S; contradiction].
      replace (len (skipn (Z.to_nat (len header)) arrived) <? len field) with true
        by (symmetry; apply Z.ltb_lt; rewrite len_skipn by lia; lia).
      reflexivity.
    - (* the cursor ends inside the message *)
      assert (Ha : arrived = header ++ field
                             ++ skipn (Z.to_nat (len header + len field)) arrived).
      { rewrite <- (firstn_skipn (Z.to_nat (len header + len field)) arrived) at 1.
        rewrite app_assoc. f_equal.
        apply (f_equal (firstn (Z.to_nat (len header + len field)))) in Hsplit.
        rewrite firstn_app_le in Hsplit by (unfold len in *; lia).
        rewrite Hsplit, app_assoc.
        rewrite firstn_app_le by (rewrite length_app; unfold len; lia).
        apply firstn_all2. rewrite length_app. unfold len. lia. }
      set (tail := skipn (Z.to_nat (len header + len field)) arrived) in *.
      assert (Ht : len tail = len arrived - (len header + len field))
        by (subst tail; apply len_skipn; lia).
      rewrite Ha.
      pose proof (decodeFields_parses cc header field tail S Hh' Hf) as D.
      cbv zeta in D. rewrite D.
      unfold fullLength. rewrite D. cbv zeta. rewrite Hm.
      replace ((0 <? len msg) && (len msg <=? len tail)) with false; [reflexivity|].
      symmetry. apply andb_false_iff. right. apply Z.leb_gt. lia. }
  rewrite Hgoal in A, B. cbn [fst snd] in A, B.
  split; [exact A|]. split; [now rewrite B|].
  now rewrite !BufferLength_logical, B.
Qed.

Lemma LengthField_Decode_incomplete_witness :
  supported_width (DecoderConfig.LengthFieldLength (decoderConfig header_codec))
  /\ text "GN" ++ [Byte.x03] ++ text "ab" ++ text "c"
     = text "GN" ++ [Byte.x03] ++ text "abc"
  /\ text "c" <> []
  /\ fst (Decode header_codec (feed (text "GN" ++ [Byte.x03] ++ text "ab") newTCPConn))
     = Fail ErrUnexpectedEOF
  /\ logical (snd (Decode header_codec
                     (feed (text "GN" ++ [Byte.x03] ++ text "ab") newTCPConn)))
     = text "GN" ++ [Byte.x03] ++ text "ab".
Proof.
  assert (S : supported_width (DecoderConfig.LengthFieldLength (decoderConfig header_codec)))
    by (unfold supported_width; simpl; lia).
  assert (E : (text "GN" ++ [Byte.x03] ++ text "ab") ++ text "c"
              = text "GN" ++ [Byte.x03] ++ text "abc") by reflexivity.
  assert (N : text "c" <> []) by discriminate.
  destruct (LengthField_Decode_incomplete header_codec
              (feed (text "GN" ++ [Byte.x03] ++ text "ab") newTCPConn)
              (text "GN") [Byte.x03] (text "abc")
              (text "GN" ++ [Byte.x03] ++ text "ab") (text "c"))
    as (Hret & Hlog & _); try reflexivity; try exact S; try exact E; try exact N.
  - discriminate.
  - split; [exact S|]. split; [reflexivity|]. split; [exact N|].
    split; [exact Hret | exact Hlog].
Defined.

(** * Streams of frames *)

(** When one call of [Decode] takes a frame [w] off the front of the
    contents and returns [e] for it, whatever follows, then as many calls as
    there are frames return them in order. *)
Lemma decode_many_frames {T : Type} `{ICodec T} (cc : T)
  (R : bytes -> bytes -> Prop) :
  (forall c w e rest,
     R w e -> logical c = w ++ rest ->
     fst (Decode cc c) = Ret e /\ logical (snd (Decode cc c)) = rest) ->
  forall ws es, Forall2 R ws es ->
  forall c rest,
    logical c = List.concat ws ++ rest ->
    fst (decode_many cc (List.length es) c) = map Ret es
    /\ logical (snd (decode_many cc (List.length es) c)) = rest.
Proof.
  intros Hstep ws es HF. induction HF as [|w e ws es Hwe HF IH]; intros c rest Hc.
  - simpl. split; [reflexivity | exact Hc].
  - simpl in Hc. rewrite <- app_assoc in Hc.
    destruct (Hstep c w e _ Hwe Hc) as [Hret Hlog].
    destruct (IH _ _ Hlog) as [Hrets Hrest].
    simpl. rewrite Hret, Hrets. split; [reflexivity | exact Hrest].
Qed.

Lemma terminated_Decode_step (t : byte) (e : error) (c : stdConn) (f rest : bytes) :
  ~ In t f -> logical c = (f ++ [t]) ++ rest ->
  fst (terminated_Decode t e c) = Ret f
  /\ logical (snd (terminated_Decode t e c)) = rest.
Proof.
  intros Hf Hc.
  assert (F : first_at t (logical c) (List.length f)).
  { rewrite Hc. split.
    - rewrite <- app_assoc, nth_error_app2 by lia. now rewrite Nat.sub_diag.
    - intros j Hj E. rewrite <- app_assoc, nth_error_app1 in E by exact Hj.
      apply Hf. eapply nth_error_In. exact E. }
  destruct (terminated_Decode_found t e c _ F) as (Hret & Hlog & _).
  rewrite Hret, Hlog, Hc, <- app_assoc. split.
  - now rewrite firstn_app_le, firstn_all by lia.
  - rewrite skipn_app_ge by lia.
    now replace (S (List.length f) - List.length f)%nat with 1%nat by lia.
Qed.

(** X15.  Frames on a terminated stream come out one by one.  When the
    bytes buffered are frames that do not contain the terminator, each
    followed by it, and then any bytes [rest], as many calls of [Decode] as
    there are frames return exactly these frames, in order, and leave
    [rest]; this for the line codec and for the delimiter codec with any
    delimiter, and however the bytes are split between ring and scratch. *)
Theorem terminated_stream (frames : list bytes) (rest : bytes) (c : stdConn) :
  (forall cc : LineBasedFrameCodec,
     Forall (fun f => ~ In CRLFByte f) frames ->
     logical c = terminated_wire CRLFByte frames ++ rest ->
     fst (decode_many cc (List.length frames) c) = map Ret frames
     /\ logical (snd (decode_many cc (List.length frames) c)) = rest)
  /\ (forall cc : DelimiterBasedFrameCodec,
     Forall (fun f => ~ In (delimiter cc) f) frames ->
     logical c = terminated_wire (delimiter cc) frames ++ rest ->
     fst (decode_many cc (List.length frames) c) = map Ret frames
     /\ logical (snd (decode_many cc (List.length frames) c)) = rest).
Proof.
  assert (HF : forall t, Forall (fun f => ~ In t f) frames ->
            Forall2 (fun w f => ~ In t f /\ w = f ++ [t])
              (map (fun f => f ++ [t]) frames) frames).
  { intros t H. induction H; simpl; constructor; auto. }
  split; intros cc Hno Hc.
  - pose proof (decode_many_frames cc (fun w f => ~ In CRLFByte f /\ w = f ++ [CRLFByte]))
      as G.
    apply (G ltac:(intros c0 w f r [Hf ->] Hl; rewrite LineBased_Decode_terminated;
                   now apply terminated_Decode_step) _ _ (HF _ Hno) c rest Hc).
  - pose proof (decode_many_frames cc
                  (fun w f => ~ In (delimiter cc) f /\ w = f ++ [delimiter cc])) as G.
    apply (G ltac:(intros c0 w f r [Hf ->] Hl; rewrite DelimiterBased_Decode_terminated;
                   now apply terminated_Decode_step) _ _ (HF _ Hno) c rest Hc).
Qed.

Lemma terminated_stream_witness :
  Forall (fun f => ~ In Byte.x00 f) [text "foo"; text "bar"]
  /\ logical conn_foo_bar_ba
     = terminated_wire Byte.x00 [text "foo"; text "bar"] ++ text "ba"
  /\ fst (decode_many (NewDelimiterBasedFrameCodec Byte.x00) 2 conn_foo_bar_ba)
     = [Ret (text "foo"); Ret (text "bar")]
  /\ logical (snd (decode_many (NewDelimiterBasedFrameCodec Byte.x00) 2 conn_foo_bar_ba))
     = text "ba".
Proof.
  assert (F : Forall (fun f => ~ In Byte.x00 f) [text "foo"; text "bar"])
    by (repeat constructor; simpl; intuition discriminate).
  assert (L : logical conn_foo_bar_ba
              = terminated_wire Byte.x00 [text "foo"; text "bar"] ++ text "ba")
    by reflexivity.
  destruct (terminated_stream [text "foo"; text "bar"] (text "ba") conn_foo_bar_ba)
    as [_ Hd].
  destruct (Hd (NewDelimiterBasedFrameCodec Byte.x00) F L) as [H1 H2].
  split; [exact F|]. split; [exact L|]. split; [exact H1 | exact H2].
Defined.

Lemma FixedLength_Decode_step (cc : FixedLengthFrameCodec) (c : stdConn)
  (f rest : bytes) :
  0 < frameLength cc -> len f = frameLength cc -> logical c = f ++ rest ->
  fst (Decode cc c) = Ret f /\ logical (snd (Decode cc c)) = rest.
Proof.
  intros Hpos Hlen Hc.
  destruct (FixedLength_Decode_full cc c) as (Hret & Hlog & _).
  { rewrite BufferLength_logical, Hc, len_app. pose proof (len_nonneg rest). lia. }
  rewrite Hret, Hlog, Hc, <- Hlen. unfold len. rewrite Nat2Z.id.
  rewrite firstn_app_le, firstn_all, skipn_app_ge, Nat.sub_diag by lia.
  now split.
Qed.

(** X16.  Frames of the fixed length come out one by one.  With
    [frameLength > 0], when the bytes buffered are frames of exactly
    [frameLength] bytes followed by any bytes [rest], as many calls of
    [Decode] as there are frames return exactly these frames, in order, and
    leave [rest], however the bytes are split between ring and scratch. *)
Theorem FixedLength_stream
  (cc : FixedLengthFrameCodec) (frames : list bytes) (rest : bytes) (c : stdConn) :
  0 < frameLength cc ->
  Forall (fun f => len f = frameLength cc) frames ->
  logical c = List.concat frames ++ rest ->
  fst (decode_many cc (List.length frames) c) = map Ret frames
  /\ logical (snd (decode_many cc (List.length frames) c)) = rest.
Proof.
  intros Hpos HF.
  assert (H2 : Forall2 (fun w f => len f = frameLength cc /\ w = f) frames frames)
    by (induction HF; constructor; auto).
  intros Hc.
  apply (decode_many_frames cc (fun w f => len f = frameLength cc /\ w = f)
           ltac:(intros c0 w f r [Hl ->] Hlog; now apply FixedLength_Decode_step)
           _ _ H2 c rest Hc).
Qed.

Lemma FixedLength_stream_witness :
  0 < 4
  /\ Forall (fun f => len f = 4) [text "ABCD"; text "EFGH"; text "IJKL"]
  /\ logical conn_ABCD_EFGH_IJKL_MN
     = List.concat [text "ABCD"; text "EFGH"; text "IJKL"] ++ text "MN"
  /\ fst (decode_many (NewFixedLengthFrameCodec 4) 3 conn_ABCD_EFGH_IJKL_MN)
     = [Ret (text "ABCD"); Ret (text "EFGH"); Ret (text "IJKL")]
  /\ logical (snd (decode_many (NewFixedLengthFrameCodec 4) 3 conn_ABCD_EFGH_IJKL_MN))
     = text "MN".
Proof.
  assert (P : 0 < 4) by reflexivity.
  assert (F : Forall (fun f => len f = 4) [text "ABCD"; text "EFGH"; text "IJKL"])
    by (repeat constructor).
  assert (L : logical conn_ABCD_EFGH_IJKL_MN
              = List.concat [text "ABCD"; text "EFGH"; text "IJKL"] ++ text "MN")
    by reflexivity.
  destruct (FixedLength_stream (NewFixedLengthFrameCodec 4)
              [text "ABCD"; text "EFGH"; text "IJKL"] (text "MN")
              conn_ABCD_EFGH_IJKL_MN P F L) as [H1 H2].
  split; [exact P|]. split; [exact F|]. split; [exact L|]. split; [exact H1 | exact H2].
Defined.

Lemma mirrored_encoding (cc : LengthFieldBasedFrameCodec) (f : bytes) :
  let ec := encoderConfig cc in
  let dc := decoderConfig cc in
  mirrors dc ec -> fits ec f ->
  exists field,
    Encode cc f = Ret (field ++ f)
    /\ len field = DecoderConfig.LengthFieldLength dc
    /\ msgLengthOf dc (fieldValue (DecoderConfig.ByteOrder dc) field) = len f.
Proof.
  intros ec dc (Mo & Mw & S & Moff & Madj) Hfit.
  pose proof (encodedLength_fits ec f Hfit) as HL.
  destruct Hfit as (R0 & R1 & R2 & R3).
  set (w := EncoderConfig.LengthFieldLength ec) in *.
  set (L := len f + EncoderConfig.LengthAdjustment ec + included ec) in *.
  assert (Hw : 0 < w) by (unfold supported_width in S; lia).
  exists (binary.PutUint (EncoderConfig.ByteOrder ec) (Z.to_nat w) L).
  split; [|split].
  - simpl. unfold LengthField_Encode. fold ec. rewrite HL.
    replace (L <? 0) with false by (symmetry; apply Z.ltb_ge; lia).
    now rewrite lengthField_fits by assumption.
  - unfold len. rewrite length_PutUint, Mw. fold w. lia.
  - rewrite Mo, fieldValue_PutUint.
    replace (Z.of_nat (Z.to_nat w) * 8) with (8 * w) by lia.
    rewrite Z.mod_small by exact R3.
    unfold msgLengthOf, GoInt.add, GoInt.of_uint64. rewrite Madj.
    pose proof (len_nonneg f) as Hf.
    assert (0 <= included ec)
      by (unfold included; destruct (EncoderConfig.LengthIncludesLengthFieldLength ec);
          fold w; lia).
    rewrite (wrap_small L) by (unfold GoInt.in_range, GoInt.min_int in *; lia).
    replace (L + - (EncoderConfig.LengthAdjustment ec + included ec)) with (len f)
      by (subst L; lia).
    apply wrap_small. unfold GoInt.in_range, GoInt.min_int, GoInt.max_int in *. lia.
Qed.

(** What makes a frame one that a mirrored length-field codec carries: its
    length fits, it is not empty, and the bytes to strip do not exceed its
    wire form. *)
Lemma LengthField_Decode_step (cc : LengthFieldBasedFrameCodec) (c : stdConn)
  (f wire rest : bytes) :
  let ec := encoderConfig cc in
  let dc := decoderConfig cc in
  let strip := DecoderConfig.InitialBytesToStrip dc in
  mirrors dc ec -> fits ec f -> 0 < len f ->
  0 <= strip <= EncoderConfig.LengthFieldLength ec + len f ->
  Encode cc f = Ret wire ->
  logical c = wire ++ rest ->
  fst (Decode cc c) = Ret (skipn (Z.to_nat strip) wire)
  /\ logical (snd (Decode cc c)) = rest
  /\ (strip = EncoderConfig.LengthFieldLength ec -> skipn (Z.to_nat strip) wire = f).
Proof.
  intros ec dc strip M Hfit Hpos Hs He Hc. subst strip dc ec.
  destruct (mirrored_encoding cc f M Hfit) as (field & He' & Hf & Hm).
  rewrite He' in He. injection He as <-.
  destruct M as (Mo & Mw & S & Moff & Madj).
  assert (S' : supported_width (DecoderConfig.LengthFieldLength (decoderConfig cc)))
    by (now rewrite Mw).
  destruct (LengthField_Decode_contents cc c) as [A B].
  rewrite Hc, <- app_assoc in A, B.
  change (field ++ f ++ rest) with ([] ++ field ++ f ++ rest) in A, B.
  assert (H0 : len [] = DecoderConfig.LengthFieldOffset (decoderConfig cc))
    by (rewrite Moff; reflexivity).
  assert (H1 : 0 <= DecoderConfig.LengthFieldOffset (decoderConfig cc))
    by (rewrite Moff; lia).
  rewrite (decodeContents_parses cc [] field f rest S' H1 H0 Hf Hm Hpos) in A, B.
  cbn [fst snd app] in A, B. split; [|split; [exact B|]].
  - rewrite A. unfold slice_from.
    replace ((0 <=? DecoderConfig.InitialBytesToStrip (decoderConfig cc))
             && (DecoderConfig.InitialBytesToStrip (decoderConfig cc)
                 <=? len (field ++ f))) with true
      by (symmetry; apply andb_true_iff; split; apply Z.leb_le;
          rewrite ?len_app, ?Hf, ?Mw; lia).
    reflexivity.
  - intros E. rewrite E, <- Mw, <- Hf. unfold len. rewrite Nat2Z.id.
    now rewrite skipn_app_ge, Nat.sub_diag by lia.
Qed.

(** X17.  Frames of a mirrored length-field codec come out one by one.
    When the decoder mirrors the encoder and the bytes buffered are the
    encodings of frames that are not empty and whose lengths fit, followed
    by any bytes [rest], as many calls of [Decode] as there are frames
    return, in order, each encoding less its first [InitialBytesToStrip]
    bytes, and leave [rest]; when the bytes stripped are exactly the length
    field, what is returned is the frames themselves. *)
Theorem LengthField_stream
  (cc : LengthFieldBasedFrameCodec) (frames wires : list bytes)
  (rest : bytes) (c : stdConn) :
  let ec := encoderConfig cc in
  let dc := decoderConfig cc in
  let strip := DecoderConfig.InitialBytesToStrip dc in
  mirrors dc ec ->
  Forall (fun f => fits ec f /\ 0 < len f
                   /\ 0 <= strip <= EncoderConfig.LengthFieldLength ec + len f) frames ->
  Forall2 (fun f wire => Encode cc f = Ret wire) frames wires ->
  logical c = List.concat wires ++ rest ->
  fst (decode_many cc (List.length frames) c)
  = map (fun wire => Ret (skipn (Z.to_nat strip) wire)) wires
  /\ logical (snd (decode_many cc (List.length frames) c)) = rest
  /\ (strip = EncoderConfig.LengthFieldLength ec ->
      fst (decode_many cc (List.length frames) c) = map Ret frames).
Proof.
  intros ec dc strip M HF HE. revert c.
  induction HE as [|f wire frames wires He HE IH]; intros c Hc.
  - simpl. split; [reflexivity|]. split; [exact Hc | reflexivity].
  - inversion HF as [|f' frames' (Hfit & Hpos & Hs) HF' E]; subst.
    simpl in Hc. rewrite <- app_assoc in Hc.
    destruct (LengthField_Decode_step cc c f wire _ M Hfit Hpos Hs He Hc)
      as (Hret & Hlog & Hstrip).
    destruct (IH HF' _ Hlog) as (Hrets & Hrest & Hframes).
    cbn [decode_many List.length]. cbv zeta. cbn [fst snd map].
    rewrite Hret, Hrets. split; [reflexivity|]. split; [exact Hrest|].
    intros E. rewrite <- (Hframes E), Hrets. fold strip. now rewrite (Hstrip E).
Qed.

Lemma LengthField_stream_witness :
  mirrors (decoderConfig strip2_codec) (encoderConfig strip2_codec)
  /\ Forall2 (fun f wire => Encode strip2_codec f = Ret wire)
       [text "hi"; text "hello"]
       [[Byte.x00; Byte.x02] ++ text "hi"; [Byte.x00; Byte.x05] ++ text "hello"]
  /\ logical conn_hi_hello
     = List.concat [[Byte.x00; Byte.x02] ++ text "hi"; [Byte.x00; Byte.x05] ++ text "hello"]
       ++ []
  /\ fst (decode_many strip2_codec 2 conn_hi_hello) = [Ret (text "hi"); Ret (text "hello")]
  /\ logical (snd (decode_many strip2_codec 2 conn_hi_hello)) = [].
Proof.
  assert (M : mirrors (decoderConfig strip2_codec) (encoderConfig strip2_codec)).
  { unfold mirrors, supported_width, included. simpl. repeat split; lia. }
  assert (Hfit : forall f, len f <= 100 ->
            fits (encoderConfig strip2_codec) f).
  { intros f Hf. pose proof (len_nonneg f).
    unfold fits, included, GoInt.in_range, GoInt.min_int, GoInt.max_int. simpl. lia. }
  assert (F : Forall (fun f => fits (encoderConfig strip2_codec) f /\ 0 < len f
                        /\ 0 <= DecoderConfig.InitialBytesToStrip (decoderConfig strip2_codec)
                           <= EncoderConfig.LengthFieldLength (encoderConfig strip2_codec)
                              + len f) [text "hi"; text "hello"]).
  { repeat constructor; try (apply Hfit); try discriminate; reflexivity. }
  assert (E : Forall2 (fun f wire => Encode strip2_codec f = Ret wire)
                [text "hi"; text "hello"]
                [[Byte.x00; Byte.x02] ++ text "hi"; [Byte.x00; Byte.x05] ++ text "hello"])
    by (repeat constructor).
  assert (L : logical conn_hi_hello
              = List.concat [[Byte.x00; Byte.x02] ++ text "hi";
                             [Byte.x00; Byte.x05] ++ text "hello"] ++ [])
    by reflexivity.
  destruct (LengthField_stream strip2_codec _ _ [] conn_hi_hello M F E L)
    as (_ & Hrest & Hframes).
  split; [exact M|]. split; [exact E|]. split; [exact L|].
  split; [exact (Hframes eq_refl) | exact Hrest].
Defined.

(** * Buffers that hold no frame *)

(** X18.  A frame whose terminator has not arrived is left alone: when the
    bytes buffered are a proper prefix of a frame without terminator
    followed by the terminator, [Decode] of the line codec returns
    [ErrCRLFNotFound], that of the delimiter codec
    [ErrDelimiterNotFound], and the logical contents and [BufferLength] are
    as before. *)
Theorem terminated_incomplete (f arrived missing : bytes) (c : stdConn) :
  missing <> [] -> logical c = arrived ->
  (forall cc : LineBasedFrameCodec,
     ~ In CRLFByte f -> arrived ++ missing = f ++ [CRLFByte] ->
     fst (Decode cc c) = Fail ErrCRLFNotFound
     /\ logical (snd (Decode cc c)) = arrived
     /\ BufferLength (snd (Decode cc c)) = BufferLength c)
  /\ (forall cc : DelimiterBasedFrameCodec,
     ~ In (delimiter cc) f -> arrived ++ missing = f ++ [delimiter cc] ->
     fst (Decode cc c) = Fail ErrDelimiterNotFound
     /\ logical (snd (Decode cc c)) = arrived
     /\ BufferLength (snd (Decode cc c)) = BufferLength c).
Proof.
  intros Hmiss Hc.
  assert (Hno : forall t, ~ In t f -> arrived ++ missing = f ++ [t] -> ~ In t arrived).
  { intros t Hf Hsplit Hin.
    assert (Hlen : (List.length arrived <= List.length f)%nat).
    { apply (f_equal (@List.length byte)) in Hsplit. rewrite !length_app in Hsplit.
      simpl in Hsplit. destruct missing; [contradiction | simpl in Hsplit; lia]. }
    apply (f_equal (firstn (List.length arrived))) in Hsplit.
    rewrite firstn_app_le, firstn_all, firstn_app_le in Hsplit by lia.
    apply Hf. rewrite Hsplit in Hin.
    rewrite <- (firstn_skipn (List.length arrived) f).
    apply in_or_app. left. exact Hin. }
  assert (HT : forall t e, ~ In t f -> arrived ++ missing = f ++ [t] ->
            fst (terminated_Decode t e c) = Fail e
            /\ logical (snd (terminated_Decode t e c)) = arrived
            /\ BufferLength (snd (terminated_Decode t e c)) = BufferLength c).
  { intros t e Hf Hsplit. pose proof (Hno t Hf Hsplit) as Hin. rewrite <- Hc in Hin.
    destruct (terminated_Decode_absent t e c Hin) as [Hret Hsame].
    destruct (same_buffers_logical _ _ Hsame) as [Hlog Hlen].
    split; [exact Hret|]. split; [now rewrite Hlog | exact Hlen]. }
  split; intros cc Hf Hsplit.
  - rewrite LineBased_Decode_terminated. now apply HT.
  - rewrite DelimiterBased_Decode_terminated. now apply HT.
Qed.

Lemma terminated_incomplete_witness :
  [CRLFByte] <> []
  /\ logical (feed (text "hel") newTCPConn) = text "hel"
  /\ ~ In CRLFByte (text "hel")
  /\ fst (Decode mkLineBasedFrameCodec (feed (text "hel") newTCPConn))
     = Fail ErrCRLFNotFound
  /\ logical (snd (Decode mkLineBasedFrameCodec (feed (text "hel") newTCPConn)))
     = text "hel".
Proof.
  assert (N : [CRLFByte] <> []) by discriminate.
  assert (L : logical (feed (text "hel") newTCPConn) = text "hel") by reflexivity.
  assert (I : ~ In CRLFByte (text "hel")) by (simpl; intuition discriminate).
  destruct (terminated_incomplete (text "hel") (text "hel") [CRLFByte]
              (feed (text "hel") newTCPConn) N L) as [Hline _].
  destruct (Hline mkLineBasedFrameCodec I eq_refl) as (H1 & H2 & _).
  split; [exact N|]. split; [exact L|]. split; [exact I|]. split; [exact H1 | exact H2].
Defined.

(** X19.  What each decoder does when nothing is buffered.  The built-in
    decoder returns an empty frame and no error; the line and delimiter
    decoders return their not-found error; the fixed-length decoder returns
    [ErrUnexpectedEOF] for every frame length; the length-field decoder
    returns [ErrUnexpectedEOF] when the offset is positive or the width
    supported, and [ErrUnsupportedLength] otherwise.  Nothing is buffered
    afterwards either. *)
Theorem decoders_on_empty_buffer (c : stdConn) :
  BufferLength c = 0 ->
  (forall cc : BuiltInFrameCodec,
     fst (Decode cc c) = Ret [] /\ BufferLength (snd (Decode cc c)) = 0)
  /\ (forall cc : LineBasedFrameCodec,
     fst (Decode cc c) = Fail ErrCRLFNotFound /\ BufferLength (snd (Decode cc c)) = 0)
  /\ (forall cc : DelimiterBasedFrameCodec,
     fst (Decode cc c) = Fail ErrDelimiterNotFound
     /\ BufferLength (snd (Decode cc c)) = 0)
  /\ (forall cc : FixedLengthFrameCodec,
     fst (Decode cc c) = Fail ErrUnexpectedEOF /\ BufferLength (snd (Decode cc c)) = 0)
  /\ (forall cc : LengthFieldBasedFrameCodec,
     let dc := decoderConfig cc in
     (0 < DecoderConfig.LengthFieldOffset dc
      \/ supported_width (DecoderConfig.LengthFieldLength dc) ->
      fst (Decode cc c) = Fail ErrUnexpectedEOF)
     /\ (DecoderConfig.LengthFieldOffset dc <= 0 ->
         ~ supported_width (DecoderConfig.LengthFieldLength dc) ->
         fst (Decode cc c) = Fail ErrUnsupportedLength)
     /\ BufferLength (snd (Decode cc c)) = 0).
Proof.
  intros H0.
  assert (Hnil : logical c = [])
    by (apply len_zero_nil; rewrite <- BufferLength_logical; exact H0).
  assert (HT : forall t e, fst (terminated_Decode t e c) = Fail e
                           /\ BufferLength (snd (terminated_Decode t e c)) = 0).
  { intros t e.
    destruct (terminated_Decode_absent t e c) as [Hret Hsame];
      [rewrite Hnil; intros []|].
    destruct (same_buffers_logical _ _ Hsame) as [_ Hlen].
    split; [exact Hret | now rewrite Hlen]. }
  split; [|split; [|split; [|split]]]; intros cc.
  - destruct (BuiltIn_Decode_outcome cc c) as (Hret & Hb & Hh & _).
    rewrite Hret, Hnil. split; [reflexivity|].
    unfold BufferLength, RingBuffer.Length. now rewrite Hb, Hh.
  - rewrite LineBased_Decode_terminated. apply HT.
  - rewrite DelimiterBased_Decode_terminated. apply HT.
  - destruct (FixedLength_Decode_cases cc c) as [Hz _].
    destruct (Hz H0) as [Hret Hsame].
    destruct (same_buffers_logical _ _ Hsame) as [_ Hlen].
    split; [exact Hret | now rewrite Hlen].
  - cbv zeta. destruct (LengthField_Decode_contents cc c) as [A B].
    rewrite Hnil in A, B. unfold decodeContents, fullLength in A, B.
    rewrite decodeFields_eq in A, B. cbv zeta in A, B.
    unfold headerLength in A, B. change (len []) with 0 in A, B.
    rewrite skipn_nil in A, B. change (len []) with 0 in A, B.
    assert (Hlen : logical (snd (Decode cc c)) = [] ->
                   BufferLength (snd (Decode cc c)) = 0)
      by (intros E; now rewrite BufferLength_logical, E).
    destruct (0 <? Z.max 0 (DecoderConfig.LengthFieldOffset (decoderConfig cc))) eqn:O.
    + apply Z.ltb_lt in O. cbn [fst snd] in A, B.
      split; [intros _; exact A|]. split; [intros; lia | exact (Hlen B)].
    + apply Z.ltb_ge in O.
      destruct (supported_width_dec _) as [S|S].
      * replace (0 <? DecoderConfig.LengthFieldLength (decoderConfig cc)) with true in A, B
          by (symmetry; apply Z.ltb_lt; unfold supported_width in S; lia).
        cbn [fst snd] in A, B.
        split; [intros _; exact A|]. split; [intros; contradiction | exact (Hlen B)].
      * cbn [fst snd] in A, B.
        split; [intros [P|P]; [lia | contradiction]|].
        split; [intros _ _; exact A | exact (Hlen B)].
Qed.

Lemma decoders_on_empty_buffer_witness :
  BufferLength newTCPConn = 0
  /\ fst (Decode mkBuiltInFrameCodec newTCPConn) = Ret []
  /\ fst (Decode mkLineBasedFrameCodec newTCPConn) = Fail ErrCRLFNotFound
  /\ fst (Decode (NewFixedLengthFrameCodec (-1)) newTCPConn) = Fail ErrUnexpectedEOF
  /\ fst (Decode short_codec newTCPConn) = Fail ErrUnexpectedEOF.
Proof.
  assert (H : BufferLength newTCPConn = 0) by reflexivity.
  destruct (decoders_on_empty_buffer newTCPConn H) as (Hb & Hl & _ & Hf & Hlf).
  destruct (Hlf short_codec) as (Heof & _).
  split; [exact H|]. split; [apply Hb|]. split; [apply Hl|]. split; [apply Hf|].
  apply Heof. right. unfold supported_width. simpl. lia.
Defined.

(** X20.  The built-in decoder drains the connection and cannot ask for
    more data: on every connection [Decode] returns all the bytes buffered,
    ring first, and leaves both buffers empty and no join buffer cached; a
    second call at once returns an empty frame, again without error. *)
Theorem BuiltIn_Decode_drains (cc : BuiltInFrameCodec) (c : stdConn) :
  let c' := snd (Decode cc c) in
  fst (Decode cc c) = Ret (RingBuffer.held (inboundBuffer c) ++ buffer c)
  /\ BufferLength c' = 0
  /\ byteBuffer c' = None
  /\ fst (Decode cc c') = Ret []
  /\ BufferLength (snd (Decode cc c')) = 0.
Proof.
  intros c'. subst c'.
  destruct (BuiltIn_Decode_outcome cc c) as (Hret & Hb & Hh & Hj).
  destruct (BuiltIn_Decode_outcome cc (snd (Decode cc c))) as (Hret' & Hb' & Hh' & _).
  split; [exact Hret|].
  split; [unfold BufferLength, RingBuffer.Length; now rewrite Hb, Hh|].
  split; [exact Hj|].
  split; [rewrite Hret'; unfold logical; now rewrite Hb, Hh|].
  unfold BufferLength, RingBuffer.Length. now rewrite Hb', Hh'.
Qed.

(** X21.  The frame the fixed-length decoder returns when anything is
    buffered.  It never fails then: it returns a prefix of the logical
    contents and consumes exactly that prefix.  The prefix has
    [frameLength] bytes when [0 < frameLength <= BufferLength]; in every
    other case, a frame length that is zero, negative or larger than what
    is buffered, it is everything buffered. *)
Theorem FixedLength_Decode_frame (cc : FixedLengthFrameCodec) (c : stdConn) :
  0 < BufferLength c ->
  exists frame,
    fst (Decode cc c) = Ret frame
    /\ frame ++ logical (snd (Decode cc c)) = logical c
    /\ len frame
       = (if (0 <? frameLength cc) && (frameLength cc <=? BufferLength c)
          then frameLength cc else BufferLength c).
Proof.
  intros Hpos. destruct (FixedLength_Decode_cases cc c) as [_ H]. cbv zeta in H.
  destruct (H Hpos) as (Hret & Hlog & _).
  pose proof (peek_size_bounds (frameLength cc) (BufferLength c)) as Hm.
  specialize (Hm ltac:(lia)).
  exists (firstn (Z.to_nat (peek_size (frameLength cc) (BufferLength c))) (logical c)).
  split; [exact Hret|]. split; [rewrite Hlog; apply firstn_skipn|].
  rewrite len_firstn by (rewrite <- BufferLength_logical; exact Hm).
  unfold peek_size.
  destruct (BufferLength c <? frameLength cc) eqn:A, (frameLength cc <=? 0) eqn:B0,
           (0 <? frameLength cc) eqn:C0, (frameLength cc <=? BufferLength c) eqn:D0;
    simpl; try reflexivity; lia.
Qed.

Lemma FixedLength_Decode_frame_witness :
  0 < BufferLength conn_ab_cde
  /\ fst (Decode (NewFixedLengthFrameCodec 3) conn_ab_cde) = Ret (text "abc")
  /\ fst (Decode (NewFixedLengthFrameCodec 0) conn_ab_cde) = Ret (text "abcde")
  /\ fst (Decode (NewFixedLengthFrameCodec (-2)) conn_ab_cde) = Ret (text "abcde")
  /\ fst (Decode (NewFixedLengthFrameCodec 9) conn_ab_cde) = Ret (text "abcde")
  /\ exists frame,
       fst (Decode (NewFixedLengthFrameCodec 3) conn_ab_cde) = Ret frame
       /\ len frame = 3.
Proof.
  assert (H : 0 < BufferLength conn_ab_cde) by reflexivity.
  destruct (FixedLength_Decode_frame (NewFixedLengthFrameCodec 3) conn_ab_cde H)
    as (frame & Hret & _ & Hlen).
  split; [exact H|]. do 4 (split; [reflexivity|]).
  exists frame. split; [exact Hret | exact Hlen].
Defined.
